(** * sync.Mutex and sync/atomic.Value: an interleaving model and its invariants

    The two Go sources annotated in this repository (sync/sync.mutex.md and
    sync/sync.atomic.md) are embedded as small-step machines: one step per
    access to shared memory, with the thread-local computation between two
    accesses folded into the step.  Goroutines interleave their steps in any
    order; every access is atomic and takes effect at once.  The packed
    [state] word is an [int32], modelled as a [Z] with the wrap-around written
    out.

    Part I holds the definitions: the machine integers, the two machines, the
    invariants and a few concrete configurations.  Part II holds the lemmas
    and theorems. *)

From Stdlib Require Import ZArith Lia Bool String.

From stdpp Require Import base list.

Local Open Scope Z_scope.

(** * Part I: definitions *)

(** ** Machine integers and the packed word *)

Definition wrap32 (z : Z) : Z := (z + 2 ^ 31) mod 2 ^ 32 - 2 ^ 31.

Definition wrap64 (z : Z) : Z := (z + 2 ^ 63) mod 2 ^ 64 - 2 ^ 63.

Definition int32 (z : Z) : Prop := - 2 ^ 31 <= z < 2 ^ 31.

Definition mutexLocked : Z := 1.

Definition mutexWoken : Z := 2.

Definition mutexStarving : Z := 4.

Definition mutexWaiterShift : Z := 3.

Definition starvationThresholdNs : Z := 1000000.

(** Field accessors of the packed word, as the source tests them. *)
Definition locked_bit (s : Z) : bool := negb (Z.land s mutexLocked =? 0).

Definition woken_bit (s : Z) : bool := negb (Z.land s mutexWoken =? 0).

Definition starving_bit (s : Z) : bool := negb (Z.land s mutexStarving =? 0).

Definition waiter_count (s : Z) : Z := Z.shiftr s mutexWaiterShift.

(** ** The mutex as a machine

    [Lock] and [Unlock] are cut at their accesses to shared memory.  A control
    point names the access a goroutine is about to perform; its step performs
    that access together with the local computation that follows it up to the
    next access. *)

Module Mutex.

(** The local variables of [Lock] (lines 100-107). *)
Record locals := Locals {
  waitStartTime : Z;
  starving : bool;
  awoke : bool;
  iter : Z;
  old : Z }.

Definition locals0 : locals := Locals 0 false false 0 0.

Inductive pc :=
| Idle                                        (* about to call Lock: line 93 *)
| LockRead (l : locals)                       (* old = m.state: lines 107, 129, 205 *)
| LockLoop (l : locals)                       (* head of the for loop: line 114 *)
| LockSem (l : locals) (queueLifo : bool)     (* runtime_SemacquireMutex: line 177 *)
| LockParked (l : locals)                     (* blocked inside the semaphore *)
| LockWoke (l : locals)                       (* back from the semaphore: lines 180-181 *)
| LockAdd (l : locals) (delta : Z)            (* atomic.AddInt32: line 199 *)
| Held                                        (* Lock returned; Unlock at line 228 *)
| UnlockLoop (old : Z)                        (* line 246 *)
| UnlockRead                                  (* old = m.state: line 259 *)
| UnlockRelease (handoff : bool).             (* runtime_Semrelease: lines 256, 268 *)

(** What a step asks of the runtime. *)
Inductive action :=
| Tau
| Semacquire (l : locals) (queueLifo : bool)
| Semrelease (handoff : bool)
| Throw (msg : string).

(** The values the runtime hands to one step: the answer of
    [runtime_canSpin(iter)] and the reading of [runtime_nanotime()]. *)
Record env := Env { canSpin : bool; nanotime : Z }.

(** atomic.CompareAndSwapInt32 on the state word. *)
Definition CompareAndSwapInt32 (s old new : Z) : bool * Z :=
  if s =? old then (true, new) else (false, s).

(** atomic.AddInt32 on the state word: the new value is stored and returned. *)
Definition AddInt32 (s delta : Z) : Z := wrap32 (s + delta).

(** Lines 135-160: the candidate state of one acquisition attempt. *)
Definition Lock_new (old : Z) (starving awoke : bool) : Z + string :=
  let new := old in
  let new :=
    if Z.land old mutexStarving =? 0 then Z.lor new mutexLocked else new in
  let new :=
    if negb (Z.land old (Z.lor mutexLocked mutexStarving) =? 0)
    then wrap32 (new + Z.shiftl 1 mutexWaiterShift) else new in
  let new :=
    if starving && negb (Z.land old mutexLocked =? 0)
    then Z.lor new mutexStarving else new in
  if awoke then
    if Z.land new mutexWoken =? 0
    then inr "sync: inconsistent mutex state"%string
    else inl (Z.ldiff new mutexWoken)
  else inl new.

(** Lines 190-198: the repair a handed-off waiter adds to the word. *)
Definition handoff_delta (old : Z) (starving : bool) : Z :=
  let delta := wrap32 (mutexLocked - Z.shiftl 1 mutexWaiterShift) in
  if negb starving || (Z.shiftr old mutexWaiterShift =? 1)
  then wrap32 (delta - mutexStarving) else delta.

(** One step of [Lock] from control point [p] on the word [s]. *)
Definition Lock_step (e : env) (p : pc) (s : Z) : pc * Z * action :=
  match p with
  | Idle =>
      match CompareAndSwapInt32 s 0 mutexLocked with
      | (true, s') => (Held, s', Tau)
      | (false, s') => (LockRead locals0, s', Tau)
      end
  | LockRead l =>
      (LockLoop (Locals (waitStartTime l) (starving l) (awoke l) (iter l) s),
       s, Tau)
  | LockLoop l =>
      let old := old l in
      if (Z.land old (Z.lor mutexLocked mutexStarving) =? mutexLocked)
         && canSpin e
      then
        let '(awoke', s') :=
          if negb (awoke l) && (Z.land old mutexWoken =? 0)
             && negb (Z.shiftr old mutexWaiterShift =? 0)
          then
            match CompareAndSwapInt32 s old (Z.lor old mutexWoken) with
            | (true, s') => (true, s')
            | (false, s') => (awoke l, s')
            end
          else (awoke l, s) in
        (LockRead (Locals (waitStartTime l) (starving l) awoke'
                     (wrap64 (iter l + 1)) old),
         s', Tau)
      else
        match Lock_new old (starving l) (awoke l) with
        | inr msg => (p, s, Throw msg)
        | inl new =>
            match CompareAndSwapInt32 s old new with
            | (true, s') =>
                if Z.land old (Z.lor mutexLocked mutexStarving) =? 0
                then (Held, s', Tau)
                else
                  let queueLifo := negb (waitStartTime l =? 0) in
                  let wst :=
                    if waitStartTime l =? 0 then nanotime e
                    else waitStartTime l in
                  (LockSem (Locals wst (starving l) (awoke l) (iter l) old)
                     queueLifo, s', Tau)
            | (false, s') => (LockRead l, s', Tau)
            end
        end
  | LockSem l queueLifo => (LockWoke l, s, Semacquire l queueLifo)
  | LockWoke l =>
      let starving' :=
        starving l
        || (wrap64 (nanotime e - waitStartTime l) >? starvationThresholdNs) in
      let old := s in
      if negb (Z.land old mutexStarving =? 0)
      then
        if negb (Z.land old (Z.lor mutexLocked mutexWoken) =? 0)
           || (Z.shiftr old mutexWaiterShift =? 0)
        then (p, s, Throw "sync: inconsistent mutex state")
        else
          (LockAdd (Locals (waitStartTime l) starving' (awoke l) (iter l) old)
             (handoff_delta old starving'), s, Tau)
      else
        (LockLoop (Locals (waitStartTime l) starving' true 0 old), s, Tau)
  | LockAdd l delta => (Held, AddInt32 s delta, Tau)
  | _ => (p, s, Tau)
  end.

(** One step of [Unlock] from control point [p] on the word [s]. *)
Definition Unlock_step (p : pc) (s : Z) : pc * Z * action :=
  match p with
  | Held =>
      let new := AddInt32 s (- mutexLocked) in
      if Z.land (wrap32 (new + mutexLocked)) mutexLocked =? 0
      then (p, new, Throw "sync: unlock of unlocked mutex")
      else if Z.land new mutexStarving =? 0
      then (UnlockLoop new, new, Tau)
      else (UnlockRelease true, new, Tau)
  | UnlockLoop old =>
      if (Z.shiftr old mutexWaiterShift =? 0)
         || negb (Z.land old
                    (Z.lor (Z.lor mutexLocked mutexWoken) mutexStarving) =? 0)
      then (Idle, s, Tau)
      else
        let new :=
          Z.lor (wrap32 (old - Z.shiftl 1 mutexWaiterShift)) mutexWoken in
        match CompareAndSwapInt32 s old new with
        | (true, s') => (UnlockRelease false, s', Tau)
        | (false, s') => (UnlockRead, s', Tau)
        end
  | UnlockRead => (UnlockLoop s, s, Tau)
  | UnlockRelease handoff => (Idle, s, Semrelease handoff)
  | _ => (p, s, Tau)
  end.

(** A goroutine is inside [Unlock] from [Held] to its return. *)
Definition in_Unlock (p : pc) : bool :=
  match p with
  | Held | UnlockLoop _ | UnlockRead | UnlockRelease _ => true
  | _ => false
  end.

Definition thread_step (e : env) (p : pc) (s : Z) : pc * Z * action :=
  if in_Unlock p then Unlock_step p s else Lock_step e p s.

Record config := Config {
  state : Z;            (* m.state *)
  sema : nat;           (* m.sema: pending wake-ups nobody has consumed yet *)
  semq : list nat;      (* goroutines blocked on &m.sema, head first *)
  threads : list pc;    (* the control point of every goroutine *)
  fatal : option string (* set by throw: the process is gone *) }.

(** Modelled from the spec: runtime_SemacquireMutex is not part of the source.
    The wait handle is "logically a counting semaphore": [park(handle,
    queueAtFront)] consumes a pending wake-up if there is one, and otherwise
    blocks the caller, queued at the front when [queueAtFront] is set and at
    the back otherwise. *)
Definition runtime_SemacquireMutex
    (i : nat) (l : locals) (queueLifo : bool) (c : config) : config :=
  match sema c with
  | S k => Config (state c) k (semq c) (<[i := LockWoke l]> (threads c)) (fatal c)
  | O =>
      Config (state c) O
        (if queueLifo then i :: semq c else semq c ++ [i])
        (<[i := LockParked l]> (threads c)) (fatal c)
  end.

Definition ready (p : pc) : pc :=
  match p with
  | LockParked l => LockWoke l
  | _ => p
  end.

(** Modelled from the spec: runtime_Semrelease is not part of the source.
    [unpark(handle, wakeFront)] wakes the goroutine at the head of the queue
    (the FIFO pick; with [wakeFront] the head is woken directly), one and not
    all; with nobody queued the wake-up stays pending in the counter. *)
Definition runtime_Semrelease (handoff : bool) (c : config) : config :=
  match semq c with
  | [] => Config (state c) (S (sema c)) [] (threads c) (fatal c)
  | j :: q =>
      Config (state c) (sema c) q
        (match threads c !! j with
         | Some p => <[j := ready p]> (threads c)
         | None => threads c
         end) (fatal c)
  end.

(** Goroutine [i] performs its next step; [None] when it cannot move (it is
    parked, it does not exist, or the process has been terminated). *)
Definition step (i : nat) (e : env) (c : config) : option config :=
  match fatal c, threads c !! i with
  | None, Some (LockParked _) => None
  | None, Some p =>
      let '(p', s', a) := thread_step e p (state c) in
      Some
        match a with
        | Tau => Config s' (sema c) (semq c) (<[i := p']> (threads c)) None
        | Throw msg => Config s' (sema c) (semq c) (threads c) (Some msg)
        | Semacquire l queueLifo =>
            runtime_SemacquireMutex i l queueLifo
              (Config s' (sema c) (semq c) (threads c) None)
        | Semrelease handoff =>
            runtime_Semrelease handoff
              (Config s' (sema c) (semq c) (<[i := p']> (threads c)) None)
        end
  | _, _ => None
  end.

(** The zero value of a Mutex shared by [n] goroutines, none of which has
    called [Lock] yet. *)
Definition init (n : nat) : config := Config 0 0 [] (replicate n Idle) None.

Inductive reachable (n : nat) : config -> Prop :=
| reach_init : reachable n (init n)
| reach_step c i e c' :
    reachable n c -> step i e c = Some c' -> reachable n c'.

(** A schedule is run step by step; it fails where a chosen goroutine cannot
    move. *)
Fixpoint run (sched : list (nat * env)) (c : config) : option config :=
  match sched with
  | [] => Some c
  | (i, e) :: rest =>
      match step i e c with
      | Some c' => run rest c'
      | None => None
      end
  end.

(** The roles a goroutine can play in the protocol, counted over all
    goroutines. *)
Record tally := Tally {
  holders : nat;    (* between the return of Lock and the add of Unlock *)
  claimants : nat;  (* running inside Lock with [awoke] set *)
  wakers : nat;     (* inside Unlock, a normal wake-up still to deliver *)
  handers : nat;    (* inside Unlock, a hand-off still to deliver *)
  wokeups : nat;    (* back from the semaphore, word not yet read *)
  adders : nat;     (* about to repair the word after a hand-off *)
  parkers : nat     (* accounted as waiter: about to park, or parked *) }.

Definition tally0 : tally := Tally 0 0 0 0 0 0 0.

Definition tally_add (x y : tally) : tally :=
  Tally (holders x + holders y) (claimants x + claimants y)
    (wakers x + wakers y) (handers x + handers y)
    (wokeups x + wokeups y) (adders x + adders y) (parkers x + parkers y).

Definition role (p : pc) : tally :=
  match p with
  | Held => Tally 1 0 0 0 0 0 0
  | LockRead l | LockLoop l => Tally 0 (if awoke l then 1 else 0) 0 0 0 0 0
  | UnlockRelease false => Tally 0 0 1 0 0 0 0
  | UnlockRelease true => Tally 0 0 0 1 0 0 0
  | LockWoke _ => Tally 0 0 0 0 1 0 0
  | LockAdd _ _ => Tally 0 0 0 0 0 1 0
  | LockSem _ _ | LockParked _ => Tally 0 0 0 0 0 0 1
  | Idle | UnlockLoop _ | UnlockRead => tally0
  end.

Fixpoint census (ts : list pc) : tally :=
  match ts with
  | [] => tally0
  | p :: rest => tally_add (role p) (census rest)
  end.

(** The ownership balance between the word, the pending wake-ups [k] and the
    roles.  The locked bit is set exactly while one goroutine holds the lock.
    The woken flag is a token held by exactly one party: a claimant, a
    normal-mode waker, or a wake-up pending or just delivered.  An unlocked
    starving word is a hand-off in flight, carried by exactly one party. *)
Definition balanced (s : Z) (k : nat) (t : tally) : Prop :=
  holders t = (if locked_bit s then 1 else 0)%nat
  /\ if woken_bit s
     then (claimants t + wakers t + wokeups t + k = 1)%nat
          /\ handers t = 0%nat /\ adders t = 0%nat
          /\ starving_bit s = false
     else claimants t = 0%nat /\ wakers t = 0%nat
          /\ (handers t + wokeups t + adders t + k
              = if starving_bit s && negb (locked_bit s) then 1 else 0)%nat.

(** A goroutine sets its [starving] local only after a wake-up, which also
    sets [awoke]; the repair it adds after a hand-off is the one computed at
    lines 190-198. *)
Definition local_ok (p : pc) : Prop :=
  match p with
  | LockRead l | LockLoop l => starving l = true -> awoke l = true
  | LockAdd l delta => delta = handoff_delta (old l) (starving l)
  | _ => True
  end.

Definition parked (p : pc) : bool :=
  match p with LockParked _ => true | _ => false end.

(** The queue of the semaphore holds parked goroutines, each once. *)
Definition queue_ok (q : list nat) (ts : list pc) : Prop :=
  NoDup q /\ forall j, j ∈ q -> exists l, ts !! j = Some (LockParked l).

(** The ownership invariant: it holds for any number of goroutines. *)
Definition owned (c : config) : Prop :=
  balanced (state c) (sema c) (census (threads c))
  /\ Forall local_ok (threads c)
  /\ queue_ok (semq c) (threads c).

(** The waiter field counts the goroutines accounted as waiters: those about
    to park or parked, less the wake-ups already granted by a normal-mode
    [Unlock] (whose CAS took them off the field) and, during a hand-off, plus
    the woken goroutine that has not repaired the word yet. *)
Definition counted (s : Z) (k : nat) (t : tally) : Prop :=
  int32 s
  /\ (if woken_bit s
      then waiter_count s + Z.of_nat (wakers t) + Z.of_nat k
           = Z.of_nat (parkers t)
      else waiter_count s = Z.of_nat (parkers t + wokeups t + adders t))
  /\ (starving_bit s = true -> 1 <= waiter_count s).

(** What a goroutine knows about the word it has read: a claimant read the
    woken bit set; a repairing waiter read a waiter field that has not
    shrunk since. *)
Definition snapshot_ok (s : Z) (p : pc) : Prop :=
  match p with
  | LockLoop l => awoke l = true -> woken_bit (old l) = true
  | LockAdd l _ => 1 <= waiter_count (old l) <= waiter_count s
  | _ => True
  end.

(** The full invariant, for [n] goroutines: nothing has thrown. *)
Definition sound (n : nat) (c : config) : Prop :=
  owned c
  /\ counted (state c) (sema c) (census (threads c))
  /\ Forall (snapshot_ok (state c)) (threads c)
  /\ length (threads c) = n
  /\ fatal c = None.

(** Every goroutine plays at most one role. *)
Definition headcount (t : tally) : nat :=
  holders t + claimants t + wakers t + handers t + wokeups t + adders t
  + parkers t.

(** A goroutine enters [Unlock] on the zero mutex. *)
Definition fresh_unlock : config := Config 0 0 [] [Held] None.



Definition prompt : env := Env false 0.

Definition late : env := Env false 5000000.

Definition contended_schedule : list (nat * env) :=
  [(0%nat, prompt); (1%nat, prompt); (1%nat, prompt); (1%nat, Env false 1);
   (1%nat, prompt); (2%nat, prompt)].

Definition handoff_schedule : list (nat * env) :=
  [(0%nat, prompt); (1%nat, prompt); (1%nat, prompt); (1%nat, Env false 1);
   (1%nat, prompt); (0%nat, prompt); (0%nat, prompt); (0%nat, prompt);
   (2%nat, prompt); (2%nat, prompt); (2%nat, prompt);
   (1%nat, late); (1%nat, late); (1%nat, late);
   (2%nat, prompt); (2%nat, prompt)].

(** Goroutine 0 holds the lock, goroutine 1 is parked, goroutine 2 has just
    failed the fast path. *)
Definition contended : config :=
  Config 9 0 [1%nat]
    [Held; LockParked (Locals 1 false false 0 1); LockRead locals0] None.

(** Goroutine 1 was passed over for more than a millisecond, switched the
    mutex to starvation mode and has just been handed the lock by
    goroutine 2. *)
Definition handed_off : config :=
  Config 12 0 [] [Idle; LockWoke (Locals 1 true true 0 3); Idle] None.

Definition repairing : config :=
  Config 12 0 [] [Idle; LockAdd (Locals 1 true true 0 12) (-11); Idle] None.

(** Goroutine 2 is about to hand the starving mutex to the parked
    goroutine 1. *)
Definition handing_off : config :=
  Config 12 0 [1%nat]
    [Idle; LockParked (Locals 1 true true 0 3); UnlockRelease true] None.




(** Goroutine 1 parked without ever spinning, was woken by the [Unlock] of
    goroutine 0 and found the lock taken by goroutine 2: it is back at the
    head of the loop with [awoke] set. *)
Definition passed_over_schedule : list (nat * env) := take 12 handoff_schedule.

Definition passed_over : config :=
  Config 3 0 [] [Idle; LockLoop (Locals 1 true true 0 3); Held] None.



(** *** The wake-ups in flight and the goroutines behind them *)

(** No flag of the word is set. *)
Definition flagless (s : Z) : bool :=
  negb (locked_bit s) && negb (woken_bit s) && negb (starving_bit s).

(** The goroutines that carry a wake-up: an [Unlock] about to call
    [runtime_Semrelease], a goroutine back from the semaphore or repairing
    the word after a hand-off, and a goroutine inside [Lock] with [awoke]
    set. *)
Definition waking (p : pc) : bool :=
  match p with
  | UnlockRelease _ | LockWoke _ | LockAdd _ _ => true
  | LockRead l | LockLoop l => awoke l
  | _ => false
  end.

(** The goroutines the parked ones depend on: the holder of the lock, the
    carriers of a wake-up, and an [Unlock] at line 246 whose copy of the word
    is current. *)
Definition pledged (s : Z) (p : pc) : bool :=
  match p with
  | Held => true
  | UnlockLoop old => old =? s
  | _ => waking p
  end.

(** Accounted as waiter: about to park, or parked. *)
Definition waiting (p : pc) : bool :=
  match p with
  | LockSem _ _ | LockParked _ => true
  | _ => false
  end.

(** The number of wake-ups in flight among the goroutines. *)
Definition carriers (t : tally) : nat :=
  claimants t + wakers t + handers t + wokeups t + adders t.

(** What ties the parked goroutines to the rest: the waiter field is not
    negative; a parked goroutine is in the queue of the semaphore; a wake-up
    is pending only while the queue is empty; and a word without flags that
    still has waiters is the word some [Unlock] has just written and is
    looking at. *)
Definition wired (c : config) : Prop :=
  0 <= waiter_count (state c)
  /\ (forall j l, threads c !! j = Some (LockParked l) -> j ∈ semq c)
  /\ (sema c = O \/ semq c = [])
  /\ (flagless (state c) = true -> waiter_count (state c) <> 0 ->
      exists j, threads c !! j = Some (UnlockLoop (state c))).

(** The local variables of the [Lock] call a goroutine is in. *)
Definition locals_of (p : pc) : option locals :=
  match p with
  | LockRead l | LockLoop l | LockSem l _ | LockParked l | LockWoke l
  | LockAdd l _ => Some l
  | _ => None
  end.

(** Goroutine 1 has just switched the mutex to starvation mode. *)
Definition switched : config :=
  Config 13 0 []
    [Idle; LockSem (Locals 1 true true 0 3) true; Held] None.

(** Goroutine 1 has repaired the word after the hand-off and holds the
    lock. *)
Definition repaired : config := Config 1 0 [] [Idle; Held; Idle] None.

(** Goroutine 1 has been woken by the [Unlock] of goroutine 0 and finds
    the mutex free; in [competing] goroutine 2 has taken it first. *)
Definition woken_up : config :=
  Config 2 0 [] [Idle; LockWoke (Locals 1 false false 0 1); Idle] None.

Definition competing : config :=
  Config 3 0 [] [Idle; LockWoke (Locals 1 false false 0 1); Held] None.

(** *** The work left in a configuration *)








End Mutex.

(** ** sync/atomic.Value as a machine *)

Module AtomicValue.

(** [ifaceWords] is the two-word representation of [interface{}]; pointers
    are machine words.  [nil] is the zero word and [^uintptr(0)] the word
    with all bits set (64-bit words). *)
Record ifaceWords := IfaceWords { typ : Z; data : Z }.

Definition nil : Z := 0.

Definition firstStoreInProgress : Z := 2 ^ 64 - 1.

(** The nil interface value, and the test [x == nil] on an interface. *)
Definition nil_iface : ifaceWords := IfaceWords nil nil.

Definition is_nil (x : ifaceWords) : bool := typ x =? nil.

(** No Go type descriptor lives at the all-ones address, and the nil
    interface carries no data. *)
Definition valid (x : ifaceWords) : Prop :=
  typ x <> firstStoreInProgress /\ (typ x = nil -> data x = nil).

Inductive pc :=
| Idle
| Load0                       (* Load, line 38: LoadPointer(&vp.typ) *)
| Load1 (typ : Z)             (* Load, line 47: LoadPointer(&vp.data) *)
| Loaded (x : ifaceWords)     (* Load returned x *)
| Store0 (x : ifaceWords)     (* Store, line 59: x == nil *)
| StoreLoop (x : ifaceWords)  (* Store, line 67: LoadPointer(&vp.typ) *)
| StoreCAS (x : ifaceWords)   (* Store, line 78: CompareAndSwapPointer *)
| StoreData (x : ifaceWords)  (* Store, line 85: StorePointer(&vp.data) *)
| StoreTyp (x : ifaceWords)   (* Store, line 86: StorePointer(&vp.typ) *)
| StoreOver (x : ifaceWords)  (* Store, line 104: StorePointer(&vp.data) *)
| Stored                      (* Store returned *)
| Panicked (msg : string).

(** The access to the cell a step performs. *)
Inductive access :=
| ReadTyp
| ReadData
| CasTyp (swapped : bool)
| WriteData
| WriteTyp.

Definition writes (a : access) : bool :=
  match a with
  | ReadTyp | ReadData | CasTyp false => false
  | CasTyp true | WriteData | WriteTyp => true
  end.

(** One step of [Load] on the cell [v]. *)
Definition Load_step (p : pc) (v : ifaceWords) : pc * ifaceWords * list access :=
  match p with
  | Load0 =>
      let t := typ v in
      if (t =? nil) || (t =? firstStoreInProgress)
      then (Loaded nil_iface, v, [ReadTyp])
      else (Load1 t, v, [ReadTyp])
  | Load1 typ => (Loaded (IfaceWords typ (data v)), v, [ReadData])
  | _ => (p, v, [])
  end.

(** One step of [Store] on the cell [v]. *)
Definition Store_step (p : pc) (v : ifaceWords) : pc * ifaceWords * list access :=
  match p with
  | Store0 x =>
      if is_nil x
      then (Panicked "sync/atomic: store of nil value into Value", v, [])
      else (StoreLoop x, v, [])
  | StoreLoop x =>
      let t := typ v in
      if t =? nil then (StoreCAS x, v, [ReadTyp])
      else if t =? firstStoreInProgress then (StoreLoop x, v, [ReadTyp])
      else if negb (t =? typ x)
      then (Panicked
              "sync/atomic: store of inconsistently typed value into Value",
            v, [ReadTyp])
      else (StoreOver x, v, [ReadTyp])
  | StoreCAS x =>
      if typ v =? nil
      then (StoreData x, IfaceWords firstStoreInProgress (data v),
            [CasTyp true])
      else (StoreLoop x, v, [CasTyp false])
  | StoreData x => (StoreTyp x, IfaceWords (typ v) (data x), [WriteData])
  | StoreTyp x => (Stored, IfaceWords (typ x) (data v), [WriteTyp])
  | StoreOver x => (Stored, IfaceWords (typ v) (data x), [WriteData])
  | _ => (p, v, [])
  end.

(** A call has finished when it has returned or panicked. *)
Definition finished (p : pc) : bool :=
  match p with
  | Idle | Loaded _ | Stored | Panicked _ => true
  | _ => false
  end.

Definition in_Load (p : pc) : bool :=
  match p with Load0 | Load1 _ => true | _ => false end.

Definition thread_step (p : pc) (v : ifaceWords) : pc * ifaceWords * list access :=
  if in_Load p then Load_step p v else Store_step p v.

(** A call run on its own, with nobody else touching the cell, for at most
    [fuel] steps. *)
Fixpoint solo (fuel : nat) (p : pc) (v : ifaceWords)
  : pc * ifaceWords * list access :=
  match fuel with
  | O => (p, v, [])
  | S fuel' =>
      if finished p then (p, v, [])
      else
        let '(p', v', a) := thread_step p v in
        let '(p'', v'', tr) := solo fuel' p' v' in
        (p'', v'', a ++ tr)
  end.

Definition Load (v : ifaceWords) := solo 2 Load0 v.

Definition Store (x v : ifaceWords) := solo 5 (Store0 x) v.

Record config := Config {
  cell : ifaceWords;       (* the Value *)
  threads : list pc;       (* the control point of every goroutine *)
  published : bool         (* history: a first Store has completed *) }.

Inductive request :=
| CallLoad
| CallStore (x : ifaceWords).

Definition begin (r : request) : pc :=
  match r with
  | CallLoad => Load0
  | CallStore x => Store0 x
  end.

Definition valid_request (r : request) : Prop :=
  match r with
  | CallLoad => True
  | CallStore x => valid x
  end.

(** Goroutine [i] performs its next step; when it is between calls it
    starts the call [r].  A goroutine that has panicked does not move. *)
Definition step (i : nat) (r : request) (c : config) : option config :=
  match threads c !! i with
  | None | Some (Panicked _) => None
  | Some p =>
      if finished p
      then Some (Config (cell c) (<[i := begin r]> (threads c)) (published c))
      else
        let '(p', v', _) := thread_step p (cell c) in
        Some (Config v' (<[i := p']> (threads c))
                (published c
                 || match p with StoreTyp _ => true | _ => false end))
  end.

(** The zero Value shared by [n] goroutines. *)
Definition init (n : nat) : config :=
  Config nil_iface (replicate n Idle) false.

Inductive reachable (n : nat) : config -> Prop :=
| reach_init : reachable n (init n)
| reach_step c i r c' :
    reachable n c -> valid_request r -> step i r c = Some c' ->
    reachable n c'.

Fixpoint run (sched : list (nat * request)) (c : config) : option config :=
  match sched with
  | [] => Some c
  | (i, r) :: rest =>
      match step i r c with
      | Some c' => run rest c'
      | None => None
      end
  end.

(** Between the CAS of line 78 and the store of line 86. *)
Definition publisher (p : pc) : nat :=
  match p with
  | StoreData _ | StoreTyp _ => 1
  | _ => 0
  end.

Fixpoint total (f : pc -> nat) (ts : list pc) : nat :=
  match ts with
  | [] => 0
  | p :: rest => f p + total f rest
  end.

(** The value of a [Store] in flight is not nil once past the test of line
    59, and its type tag is never the marker. *)
Definition arg_ok (p : pc) : Prop :=
  match p with
  | Store0 x => typ x <> firstStoreInProgress
  | StoreLoop x | StoreCAS x | StoreData x | StoreTyp x | StoreOver x =>
      typ x <> firstStoreInProgress /\ typ x <> nil
  | _ => True
  end.

(** The marker is in the cell exactly while one goroutine is completing the
    first store, and a real type tag exactly once a first store has
    completed. *)
Definition consistent (c : config) : Prop :=
  total publisher (threads c)
  = (if typ (cell c) =? firstStoreInProgress then 1%nat else 0%nat)
  /\ published c
     = negb ((typ (cell c) =? nil) || (typ (cell c) =? firstStoreInProgress))
  /\ Forall arg_ok (threads c).

(** The steps one call of [Store] can take, each against whatever the other
    goroutines have made of the cell in the meantime. *)
Inductive Store_exec : pc -> list access -> pc -> Prop :=
| exec_done p : Store_exec p [] p
| exec_step p v p' v' a tr p'' :
    finished p = false -> Store_step p v = (p', v', a) ->
    Store_exec p' tr p'' -> Store_exec p (a ++ tr) p''.

(** The control points of [Store] from which a panic can still follow. *)
Definition can_panic (p : pc) : bool :=
  match p with
  | Store0 _ | StoreLoop _ | StoreCAS _ | Panicked _ => true
  | _ => false
  end.

Definition first_value : ifaceWords := IfaceWords 7 100.

Definition second_value : ifaceWords := IfaceWords 7 200.

(** Goroutine 0 has claimed the first store and not yet completed it;
    goroutine 1 has entered the loop of its own [Store]. *)
Definition publishing : config :=
  Config (IfaceWords firstStoreInProgress 0)
    [StoreData first_value; StoreLoop second_value] false.

Definition publishing_schedule : list (nat * request) :=
  [(0%nat, CallStore first_value); (0%nat, CallLoad); (0%nat, CallLoad);
   (0%nat, CallLoad); (1%nat, CallStore second_value); (1%nat, CallLoad)].


(** One goroutine has stored [first_value]; the other is idle. *)
Definition published_once : config :=
  Config first_value [Stored; Idle] true.

(** *** The values that were stored *)

(** The argument of the [Store] call that the step of goroutine [i] begins,
    if it begins one. *)
Definition call_of (i : nat) (r : request) (c : config) : list ifaceWords :=
  match threads c !! i, r with
  | Some p, CallStore x => if finished p then [x] else []
  | _, _ => []
  end.

(** The arguments of the [Store] calls begun along a schedule. *)
Fixpoint stores (sched : list (nat * request)) (c : config)
  : list ifaceWords :=
  match sched with
  | [] => []
  | (i, r) :: rest =>
      match step i r c with
      | Some c' => call_of i r c ++ stores rest c'
      | None => []
      end
  end.

(** What a goroutine holds of the cell, given the arguments [h] of the
    [Store] calls begun so far: a [Load] past line 41 has read the type tag
    of a completed store; a value returned by [Load] is nil or a stored value
    of that type; the value of a [Store] in flight was passed to it; the
    first store has written its data word before it writes the tag; an
    overwriting store has checked the tag; a [Store] has returned only after
    a first store has completed. *)
Definition seen (h : list ifaceWords) (c : config) (p : pc) : Prop :=
  match p with
  | Load1 t => published c = true /\ t = typ (cell c)
  | Loaded x =>
      x = nil_iface
      \/ (x ∈ h /\ published c = true /\ typ x = typ (cell c))
  | Store0 x | StoreLoop x | StoreCAS x | StoreData x => x ∈ h
  | StoreTyp x => x ∈ h /\ data (cell c) = data x
  | StoreOver x => x ∈ h /\ typ x = typ (cell c)
  | Stored => published c = true
  | _ => True
  end.

(** Once a first store has completed, the cell holds one of the values
    passed to [Store]. *)
Definition logged (h : list ifaceWords) (c : config) : Prop :=
  (published c = true -> cell c ∈ h) /\ Forall (seen h c) (threads c).

(** Every [Store] of the request carries the type tag [T]. *)
Definition uniform (T : Z) (r : request) : Prop :=
  match r with
  | CallLoad => True
  | CallStore x => typ x = T
  end.

(** With stores of one type only: the tag of the cell is nil, the marker or
    that type, the stores in flight carry it, and nobody has panicked. *)
Definition calm (T : Z) (c : config) : Prop :=
  (typ (cell c) = nil \/ typ (cell c) = firstStoreInProgress
   \/ typ (cell c) = T)
  /\ Forall (fun p =>
       match p with
       | Store0 x | StoreLoop x | StoreCAS x | StoreData x | StoreTyp x
       | StoreOver x => typ x = T
       | Panicked _ => False
       | _ => True
       end) (threads c).

(** The steps of its own a call needs at most to finish once a first store
    has completed. *)
Definition steps_left (p : pc) : nat :=
  match p with
  | Store0 _ | StoreCAS _ => 3
  | Load0 | StoreLoop _ | StoreData _ => 2
  | Load1 _ | StoreOver _ | StoreTyp _ => 1
  | _ => 0
  end.

(** Goroutine 0 stores [first_value] and loads it back; goroutine 1 loads
    it as well. *)
Definition reading_schedule : list (nat * request) :=
  [(0%nat, CallStore first_value); (0%nat, CallLoad); (0%nat, CallLoad);
   (0%nat, CallLoad); (0%nat, CallLoad); (0%nat, CallLoad);
   (0%nat, CallLoad); (0%nat, CallLoad); (0%nat, CallLoad);
   (1%nat, CallLoad); (1%nat, CallLoad); (1%nat, CallLoad)].

Definition read_twice : config :=
  Config first_value [Loaded first_value; Loaded first_value] true.

(** After [published_once], goroutine 1 has begun a [Store] of
    [second_value]; it is about to overwrite the data word; and both
    goroutines have stored. *)
Definition storing_again : config :=
  Config first_value [Stored; Store0 second_value] true.

Definition overwriting : config :=
  Config first_value [Stored; StoreOver second_value] true.

Definition stored_twice : config :=
  Config second_value [Stored; Stored] true.

(** After [published_once], goroutine 1 is inside a [Load]: it has read the
    type tag and is about to read the data word. *)
Definition half_read : config :=
  Config first_value [Stored; Load1 7] true.

(** *** The work left in a configuration *)

(** How far the cell is from holding a value: nothing stored, a first store
    in progress, a first store completed. *)
Definition phase (v : ifaceWords) : nat :=
  if typ v =? nil then 2
  else if typ v =? firstStoreInProgress then 1 else 0.

(** The steps a call has left when it is not held up, given the type tag of
    the cell. *)
Definition todo (v : ifaceWords) (p : pc) : nat :=
  match p with
  | Store0 _ => 5
  | StoreLoop _ => if typ v =? nil then 4 else 2
  | StoreCAS _ => 3
  | Load0 | StoreData _ => 2
  | Load1 _ | StoreTyp _ | StoreOver _ => 1
  | _ => 0
  end.

End AtomicValue.

(** * Part II: lemmas and theorems *)

(** ** Arithmetic of the packed word

    Every operation of the source on the word is a [Z.lor], a [Z.land], or an
    addition of a small constant followed by the [int32] wrap; all of them act
    on the residue modulo 8 independently of the waiter field. *)

Lemma wrap32_range z : int32 (wrap32 z).
Proof.
  unfold int32, wrap32.
  pose proof (Z.mod_pos_bound (z + 2 ^ 31) (2 ^ 32) ltac:(lia)). lia.
Qed.

Lemma wrap32_id z : int32 z -> wrap32 z = z.
Proof.
  unfold int32, wrap32. intros H.
  rewrite Z.mod_small by lia. lia.
Qed.

Lemma wrap32_mod8 z : wrap32 z mod 8 = z mod 8.
Proof.
  unfold wrap32.
  pose proof (Z.div_mod (z + 2 ^ 31) (2 ^ 32) ltac:(lia)) as H.
  replace ((z + 2 ^ 31) mod 2 ^ 32 - 2 ^ 31)
    with (z + (- (536870912 * ((z + 2 ^ 31) / 2 ^ 32))) * 8) by lia.
  apply Z.mod_add. lia.
Qed.

Lemma land_low3 s m : 0 <= m < 8 -> Z.land s m = Z.land (s mod 8) m.
Proof.
  intros Hm.
  change (s mod 8) with (s mod 2 ^ 3). rewrite <- Z.land_ones by lia.
  rewrite <- Z.land_assoc. f_equal.
  assert (m = 0 \/ m = 1 \/ m = 2 \/ m = 3 \/ m = 4 \/ m = 5 \/ m = 6 \/ m = 7)
    as Hc by lia.
  destruct Hc as [->|[->|[->|[->|[->|[->|[->| ->]]]]]]]; reflexivity.
Qed.

Lemma lor_mod8 s m : 0 <= m < 8 -> Z.lor s m mod 8 = Z.lor (s mod 8) m.
Proof.
  intros Hm.
  change (Z.lor s m mod 8) with (Z.lor s m mod 2 ^ 3).
  change (s mod 8) with (s mod 2 ^ 3). rewrite <- !Z.land_ones by lia.
  rewrite Z.land_lor_distr_l. f_equal.
  assert (m = 0 \/ m = 1 \/ m = 2 \/ m = 3 \/ m = 4 \/ m = 5 \/ m = 6 \/ m = 7)
    as Hc by lia.
  destruct Hc as [->|[->|[->|[->|[->|[->|[->| ->]]]]]]]; reflexivity.
Qed.

Lemma clear_woken_mod8 s :
  Z.ldiff s mutexWoken mod 8 = Z.land (s mod 8) 5.
Proof.
  rewrite Z.ldiff_land.
  change (Z.land s (Z.lnot mutexWoken) mod 8)
    with (Z.land s (Z.lnot mutexWoken) mod 2 ^ 3).
  change (s mod 8) with (s mod 2 ^ 3). rewrite <- !Z.land_ones by lia.
  rewrite <- !Z.land_assoc. f_equal.
Qed.

Lemma mod8_cases s :
  s mod 8 = 0 \/ s mod 8 = 1 \/ s mod 8 = 2 \/ s mod 8 = 3 \/
  s mod 8 = 4 \/ s mod 8 = 5 \/ s mod 8 = 6 \/ s mod 8 = 7.
Proof. pose proof (Z.mod_pos_bound s 8 ltac:(lia)). lia. Qed.

Lemma add_mod8 s k : (s + k) mod 8 = (s mod 8 + k) mod 8.
Proof. rewrite Z.add_mod_idemp_l by lia. reflexivity. Qed.

Lemma locked_bit_low s : locked_bit s = locked_bit (s mod 8).
Proof. unfold locked_bit, mutexLocked. rewrite (land_low3 s 1) by lia. reflexivity. Qed.

Lemma woken_bit_low s : woken_bit s = woken_bit (s mod 8).
Proof. unfold woken_bit, mutexWoken. rewrite (land_low3 s 2) by lia. reflexivity. Qed.

Lemma starving_bit_low s : starving_bit s = starving_bit (s mod 8).
Proof. unfold starving_bit, mutexStarving. rewrite (land_low3 s 4) by lia. reflexivity. Qed.

(** Case analysis on the three flag bits of [s], after the goal has been
    brought to mention [s] only through [s mod 8]. *)
Ltac flag_cases s :=
  let H := fresh "Hlow" in
  destruct (mod8_cases s) as [H|[H|[H|[H|[H|[H|[H|H]]]]]]];
  rewrite ?H; try reflexivity.

(** The tests of the source, read on the flags. *)
Lemma test_starving s : (Z.land s mutexStarving =? 0) = negb (starving_bit s).
Proof. unfold starving_bit. rewrite negb_involutive. reflexivity. Qed.

Lemma test_locked s : (Z.land s mutexLocked =? 0) = negb (locked_bit s).
Proof. unfold locked_bit. rewrite negb_involutive. reflexivity. Qed.

Lemma test_woken s : (Z.land s mutexWoken =? 0) = negb (woken_bit s).
Proof. unfold woken_bit. rewrite negb_involutive. reflexivity. Qed.

Lemma test_locked_or_starving s :
  (Z.land s (Z.lor mutexLocked mutexStarving) =? 0)
  = negb (locked_bit s) && negb (starving_bit s).
Proof.
  rewrite (locked_bit_low s), (starving_bit_low s).
  change (Z.lor mutexLocked mutexStarving) with 5.
  rewrite (land_low3 s 5) by lia. flag_cases s.
Qed.

Lemma test_locked_not_starving s :
  (Z.land s (Z.lor mutexLocked mutexStarving) =? mutexLocked)
  = locked_bit s && negb (starving_bit s).
Proof.
  rewrite (locked_bit_low s), (starving_bit_low s).
  change (Z.lor mutexLocked mutexStarving) with 5.
  rewrite (land_low3 s 5) by lia. flag_cases s.
Qed.

Lemma test_locked_or_woken s :
  (Z.land s (Z.lor mutexLocked mutexWoken) =? 0)
  = negb (locked_bit s) && negb (woken_bit s).
Proof.
  rewrite (locked_bit_low s), (woken_bit_low s).
  change (Z.lor mutexLocked mutexWoken) with 3.
  rewrite (land_low3 s 3) by lia. flag_cases s.
Qed.

Lemma test_any_flag s :
  (Z.land s (Z.lor (Z.lor mutexLocked mutexWoken) mutexStarving) =? 0)
  = negb (locked_bit s) && negb (woken_bit s) && negb (starving_bit s).
Proof.
  rewrite (locked_bit_low s), (woken_bit_low s), (starving_bit_low s).
  change (Z.lor (Z.lor mutexLocked mutexWoken) mutexStarving) with 7.
  rewrite (land_low3 s 7) by lia. flag_cases s.
Qed.

(** The flags after each operation of the source on the word. *)
Lemma locked_wrap32 s : locked_bit (wrap32 s) = locked_bit s.
Proof.
  rewrite (locked_bit_low (wrap32 s)), (locked_bit_low s).
  rewrite wrap32_mod8. flag_cases s.
Qed.

Lemma woken_wrap32 s : woken_bit (wrap32 s) = woken_bit s.
Proof.
  rewrite (woken_bit_low (wrap32 s)), (woken_bit_low s).
  rewrite wrap32_mod8. flag_cases s.
Qed.

Lemma starving_wrap32 s : starving_bit (wrap32 s) = starving_bit s.
Proof.
  rewrite (starving_bit_low (wrap32 s)), (starving_bit_low s).
  rewrite wrap32_mod8. flag_cases s.
Qed.

Lemma locked_add_waiter s : locked_bit (s + Z.shiftl 1 mutexWaiterShift) = locked_bit s.
Proof.
  rewrite (locked_bit_low (s + Z.shiftl 1 mutexWaiterShift)), (locked_bit_low s).
  change (Z.shiftl 1 mutexWaiterShift) with (1 * 8). rewrite Z.mod_add by lia. flag_cases s.
Qed.

Lemma woken_add_waiter s : woken_bit (s + Z.shiftl 1 mutexWaiterShift) = woken_bit s.
Proof.
  rewrite (woken_bit_low (s + Z.shiftl 1 mutexWaiterShift)), (woken_bit_low s).
  change (Z.shiftl 1 mutexWaiterShift) with (1 * 8). rewrite Z.mod_add by lia. flag_cases s.
Qed.

Lemma starving_add_waiter s : starving_bit (s + Z.shiftl 1 mutexWaiterShift) = starving_bit s.
Proof.
  rewrite (starving_bit_low (s + Z.shiftl 1 mutexWaiterShift)), (starving_bit_low s).
  change (Z.shiftl 1 mutexWaiterShift) with (1 * 8). rewrite Z.mod_add by lia. flag_cases s.
Qed.

Lemma locked_sub_waiter s : locked_bit (s - Z.shiftl 1 mutexWaiterShift) = locked_bit s.
Proof.
  rewrite (locked_bit_low (s - Z.shiftl 1 mutexWaiterShift)), (locked_bit_low s).
  change (s - Z.shiftl 1 mutexWaiterShift) with (s + (-1) * 8). rewrite Z.mod_add by lia. flag_cases s.
Qed.

Lemma woken_sub_waiter s : woken_bit (s - Z.shiftl 1 mutexWaiterShift) = woken_bit s.
Proof.
  rewrite (woken_bit_low (s - Z.shiftl 1 mutexWaiterShift)), (woken_bit_low s).
  change (s - Z.shiftl 1 mutexWaiterShift) with (s + (-1) * 8). rewrite Z.mod_add by lia. flag_cases s.
Qed.

Lemma starving_sub_waiter s : starving_bit (s - Z.shiftl 1 mutexWaiterShift) = starving_bit s.
Proof.
  rewrite (starving_bit_low (s - Z.shiftl 1 mutexWaiterShift)), (starving_bit_low s).
  change (s - Z.shiftl 1 mutexWaiterShift) with (s + (-1) * 8). rewrite Z.mod_add by lia. flag_cases s.
Qed.

Lemma locked_set_locked s : locked_bit (Z.lor s mutexLocked) = true.
Proof.
  rewrite (locked_bit_low (Z.lor s mutexLocked)).
  unfold mutexLocked. rewrite lor_mod8 by lia. flag_cases s.
Qed.

Lemma woken_set_locked s : woken_bit (Z.lor s mutexLocked) = woken_bit s.
Proof.
  rewrite (woken_bit_low (Z.lor s mutexLocked)), (woken_bit_low s).
  unfold mutexLocked. rewrite lor_mod8 by lia. flag_cases s.
Qed.

Lemma starving_set_locked s : starving_bit (Z.lor s mutexLocked) = starving_bit s.
Proof.
  rewrite (starving_bit_low (Z.lor s mutexLocked)), (starving_bit_low s).
  unfold mutexLocked. rewrite lor_mod8 by lia. flag_cases s.
Qed.

Lemma locked_set_woken s : locked_bit (Z.lor s mutexWoken) = locked_bit s.
Proof.
  rewrite (locked_bit_low (Z.lor s mutexWoken)), (locked_bit_low s).
  unfold mutexWoken. rewrite lor_mod8 by lia. flag_cases s.
Qed.

Lemma woken_set_woken s : woken_bit (Z.lor s mutexWoken) = true.
Proof.
  rewrite (woken_bit_low (Z.lor s mutexWoken)).
  unfold mutexWoken. rewrite lor_mod8 by lia. flag_cases s.
Qed.

Lemma starving_set_woken s : starving_bit (Z.lor s mutexWoken) = starving_bit s.
Proof.
  rewrite (starving_bit_low (Z.lor s mutexWoken)), (starving_bit_low s).
  unfold mutexWoken. rewrite lor_mod8 by lia. flag_cases s.
Qed.

Lemma locked_set_starving s : locked_bit (Z.lor s mutexStarving) = locked_bit s.
Proof.
  rewrite (locked_bit_low (Z.lor s mutexStarving)), (locked_bit_low s).
  unfold mutexStarving. rewrite lor_mod8 by lia. flag_cases s.
Qed.

Lemma woken_set_starving s : woken_bit (Z.lor s mutexStarving) = woken_bit s.
Proof.
  rewrite (woken_bit_low (Z.lor s mutexStarving)), (woken_bit_low s).
  unfold mutexStarving. rewrite lor_mod8 by lia. flag_cases s.
Qed.

Lemma starving_set_starving s : starving_bit (Z.lor s mutexStarving) = true.
Proof.
  rewrite (starving_bit_low (Z.lor s mutexStarving)).
  unfold mutexStarving. rewrite lor_mod8 by lia. flag_cases s.
Qed.

Lemma locked_clear_woken s : locked_bit (Z.ldiff s mutexWoken) = locked_bit s.
Proof.
  rewrite (locked_bit_low (Z.ldiff s mutexWoken)), (locked_bit_low s).
  rewrite clear_woken_mod8. flag_cases s.
Qed.

Lemma woken_clear_woken s : woken_bit (Z.ldiff s mutexWoken) = false.
Proof.
  rewrite (woken_bit_low (Z.ldiff s mutexWoken)).
  rewrite clear_woken_mod8. flag_cases s.
Qed.

Lemma starving_clear_woken s : starving_bit (Z.ldiff s mutexWoken) = starving_bit s.
Proof.
  rewrite (starving_bit_low (Z.ldiff s mutexWoken)), (starving_bit_low s).
  rewrite clear_woken_mod8. flag_cases s.
Qed.

Lemma locked_succ s : locked_bit (s + mutexLocked) = negb (locked_bit s).
Proof.
  rewrite (locked_bit_low (s + _)), (locked_bit_low s), add_mod8.
  unfold mutexLocked. flag_cases s.
Qed.

Lemma locked_pred s : locked_bit (s + - mutexLocked) = negb (locked_bit s).
Proof.
  rewrite (locked_bit_low (s + _)), (locked_bit_low s), add_mod8.
  unfold mutexLocked. flag_cases s.
Qed.

(** Subtracting [mutexLocked] leaves the other flags alone when the bit is
    set; when it is not, the subtraction borrows from them. *)
Lemma woken_pred s :
  locked_bit s = true -> woken_bit (s + - mutexLocked) = woken_bit s.
Proof.
  rewrite (woken_bit_low (s + _)), (locked_bit_low s), (woken_bit_low s),
    add_mod8.
  unfold mutexLocked. intros Hl. flag_cases s; rewrite Hlow in Hl; discriminate Hl.
Qed.

Lemma starving_pred s :
  locked_bit s = true -> starving_bit (s + - mutexLocked) = starving_bit s.
Proof.
  rewrite (starving_bit_low (s + _)), (locked_bit_low s), (starving_bit_low s),
    add_mod8.
  unfold mutexLocked. intros Hl. flag_cases s; rewrite Hlow in Hl; discriminate Hl.
Qed.

Create Rewrite HintDb flags.

#[global] Hint Rewrite
  test_starving test_locked test_woken test_locked_or_starving
  test_locked_not_starving test_locked_or_woken test_any_flag : flags.

#[global] Hint Rewrite
  locked_wrap32 woken_wrap32 starving_wrap32 locked_add_waiter woken_add_waiter starving_add_waiter locked_sub_waiter woken_sub_waiter starving_sub_waiter
  locked_set_locked woken_set_locked starving_set_locked locked_set_woken woken_set_woken starving_set_woken locked_set_starving woken_set_starving starving_set_starving locked_clear_woken woken_clear_woken starving_clear_woken
  locked_succ locked_pred : flags.

Lemma waiter_count_div s : waiter_count s = s / 8.
Proof. unfold waiter_count, mutexWaiterShift. rewrite Z.shiftr_div_pow2 by lia. reflexivity. Qed.

Lemma word_split s : s = 8 * waiter_count s + s mod 8.
Proof. rewrite waiter_count_div. apply Z.div_mod. lia. Qed.

Lemma flags_value s :
  s mod 8 = (if locked_bit s then 1 else 0) + (if woken_bit s then 2 else 0)
            + (if starving_bit s then 4 else 0).
Proof.
  rewrite (locked_bit_low s), (woken_bit_low s), (starving_bit_low s).
  flag_cases s.
Qed.

Lemma int32_waiters s : int32 s <-> - 2 ^ 28 <= waiter_count s < 2 ^ 28.
Proof.
  unfold int32. pose proof (word_split s).
  pose proof (Z.mod_pos_bound s 8 ltac:(lia)). lia.
Qed.

Lemma waiter_count_lor s m :
  0 <= m < 8 -> waiter_count (Z.lor s m) = waiter_count s.
Proof.
  intros Hm. unfold waiter_count, mutexWaiterShift.
  rewrite Z.shiftr_lor. rewrite (Z.shiftr_div_pow2 m) by lia.
  rewrite Z.div_small by lia. apply Z.lor_0_r.
Qed.

Lemma waiter_count_clear_woken s :
  waiter_count (Z.ldiff s mutexWoken) = waiter_count s.
Proof.
  unfold waiter_count, mutexWaiterShift, mutexWoken.
  rewrite Z.shiftr_ldiff. change (Z.shiftr 2 3) with 0. apply Z.ldiff_0_r.
Qed.

Ltac word_arith :=
  unfold int32, wrap32 in *; rewrite ?waiter_count_div in *;
  Z.div_mod_to_equations; lia.

Lemma int32_lor s m : 0 <= m < 8 -> int32 s -> int32 (Z.lor s m).
Proof.
  intros Hm. rewrite !int32_waiters, waiter_count_lor by lia. auto.
Qed.

Lemma int32_clear_woken s : int32 s -> int32 (Z.ldiff s mutexWoken).
Proof. rewrite !int32_waiters, waiter_count_clear_woken. auto. Qed.

Lemma word_add_waiter s :
  int32 s -> waiter_count s + 1 < 2 ^ 28 ->
  int32 (wrap32 (s + Z.shiftl 1 mutexWaiterShift))
  /\ waiter_count (wrap32 (s + Z.shiftl 1 mutexWaiterShift))
     = waiter_count s + 1.
Proof.
  intros Hs Hw. change (Z.shiftl 1 mutexWaiterShift) with 8.
  assert (int32 (s + 8)) as Hi by word_arith.
  rewrite (wrap32_id _ Hi). split; [exact Hi|]. word_arith.
Qed.

Lemma word_sub_waiter s :
  int32 s -> - 2 ^ 28 < waiter_count s ->
  int32 (wrap32 (s - Z.shiftl 1 mutexWaiterShift))
  /\ waiter_count (wrap32 (s - Z.shiftl 1 mutexWaiterShift))
     = waiter_count s - 1.
Proof.
  intros Hs Hw. change (Z.shiftl 1 mutexWaiterShift) with 8.
  assert (int32 (s - 8)) as Hi by word_arith.
  rewrite (wrap32_id _ Hi). split; [exact Hi|]. word_arith.
Qed.

(** ** The mutex *)

Import Mutex.

(** *** Schedules *)

Lemma run_reachable n sched : forall c c',
  reachable n c -> run sched c = Some c' -> reachable n c'.
Proof.
  induction sched as [|[i e] rest IH]; intros c c' Hc Hrun; simpl in Hrun.
  - congruence.
  - destruct (step i e c) as [c1|] eqn:Hs; [|discriminate].
    eapply IH; [|exact Hrun]. eapply reach_step; eauto.
Qed.

(** *** The flags of the candidate and of the repair *)

Lemma Lock_new_flags old st aw :
  match Lock_new old st aw with
  | inl new =>
      locked_bit new = locked_bit old || negb (starving_bit old)
      /\ woken_bit new = woken_bit old && negb aw
      /\ starving_bit new = starving_bit old || (st && locked_bit old)
      /\ (aw = true -> woken_bit old = true)
  | inr msg =>
      msg = "sync: inconsistent mutex state"%string
      /\ aw = true /\ woken_bit old = false
  end.
Proof.
  unfold Lock_new. autorewrite with flags.
  destruct (starving_bit old) eqn:Est, (locked_bit old) eqn:El,
    (woken_bit old) eqn:Ew, st, aw; simpl;
    autorewrite with flags; rewrite ?Est, ?El, ?Ew; simpl;
    autorewrite with flags; rewrite ?Est, ?El, ?Ew; auto.
Qed.

Lemma handoff_delta_cases old st :
  handoff_delta old st =
  if negb st || (Z.shiftr old mutexWaiterShift =? 1) then -11 else -7.
Proof. unfold handoff_delta. destruct (_ || _); reflexivity. Qed.

Lemma flags_handoff_add s old st :
  locked_bit s = false -> starving_bit s = true ->
  let s' := AddInt32 s (handoff_delta old st) in
  locked_bit s' = true /\ woken_bit s' = woken_bit s /\
  starving_bit s' = negb (negb st || (Z.shiftr old mutexWaiterShift =? 1)).
Proof.
  intros Hl Hs. cbv zeta. unfold AddInt32. rewrite handoff_delta_cases.
  autorewrite with flags.
  rewrite (locked_bit_low (s + _)), (woken_bit_low (s + _)),
    (starving_bit_low (s + _)), (woken_bit_low s), add_mod8.
  rewrite (locked_bit_low s) in Hl. rewrite (starving_bit_low s) in Hs.
  destruct (_ || _); simpl; repeat split; flag_cases s;
    rewrite Hlow in *; discriminate.
Qed.

(** *** The wait queue *)

Lemma queue_ok_insert q ts i p p' :
  queue_ok q ts -> ts !! i = Some p -> parked p = false ->
  queue_ok q (<[i := p']> ts).
Proof.
  intros [Hnd Hq] Hi Hp. split; [exact Hnd|].
  intros j Hj. destruct (Hq j Hj) as [l Hl].
  exists l. rewrite list_lookup_insert_ne; [exact Hl|].
  intros ->. rewrite Hi in Hl. injection Hl as ->. discriminate Hp.
Qed.

Lemma queue_ok_notin q ts i p :
  queue_ok q ts -> ts !! i = Some p -> parked p = false -> i ∉ q.
Proof.
  intros [_ Hq] Hi Hp Hin. destruct (Hq i Hin) as [l Hl].
  rewrite Hi in Hl. injection Hl as ->. discriminate Hp.
Qed.

Lemma queue_ok_park q ts i p l (lifo : bool) :
  queue_ok q ts -> ts !! i = Some p -> parked p = false ->
  queue_ok (if lifo then i :: q else q ++ [i]) (<[i := LockParked l]> ts).
Proof.
  intros Hok Hi Hp. pose proof (queue_ok_notin _ _ _ _ Hok Hi Hp) as Hni.
  destruct Hok as [Hnd Hq]. split.
  - destruct lifo.
    + constructor; assumption.
    + apply NoDup_app. split; [exact Hnd|]. split.
      * intros x Hx Hx'. apply list_elem_of_singleton in Hx'. subst. contradiction.
      * apply NoDup_singleton.
  - intros j Hj.
    assert (j = i \/ j ∈ q) as [->|Hjq].
    { destruct lifo.
      - apply elem_of_cons in Hj. exact Hj.
      - apply elem_of_app in Hj. destruct Hj as [Hj|Hj]; [right; exact Hj|].
        apply list_elem_of_singleton in Hj. left; exact Hj. }
    + exists l. apply list_lookup_insert_eq. eapply lookup_lt_Some; eauto.
    + destruct (Hq j Hjq) as [l' Hl']. exists l'.
      rewrite list_lookup_insert_ne; [exact Hl'|]. intros ->. contradiction.
Qed.

Lemma queue_ok_pop j q ts :
  queue_ok (j :: q) ts ->
  exists l, ts !! j = Some (LockParked l)
            /\ queue_ok q (<[j := LockWoke l]> ts).
Proof.
  intros [Hnd Hq]. destruct (Hq j) as [l Hl]; [left|].
  exists l. split; [exact Hl|].
  apply NoDup_cons in Hnd as [Hnj Hnd]. split; [exact Hnd|].
  intros x Hx. destruct (Hq x) as [l' Hl']; [right; exact Hx|].
  exists l'. rewrite list_lookup_insert_ne; [exact Hl'|].
  intros ->. contradiction.
Qed.

(** *** Preservation of the ownership invariant *)

Lemma census_split ts i p :
  ts !! i = Some p ->
  exists rest, census ts = tally_add (role p) rest
               /\ forall p', census (<[i := p']> ts) = tally_add (role p') rest.
Proof.
  revert i. induction ts as [|a ts IH]; intros [|i] H; simpl in *;
    try discriminate.
  - injection H as ->. exists (census ts). auto.
  - destruct (IH i H) as (rest & E1 & E2).
    exists (tally_add (role a) rest). split.
    + rewrite E1. unfold tally_add; simpl. f_equal; lia.
    + intros p'. rewrite E2. unfold tally_add; simpl. f_equal; lia.
Qed.

Ltac bits_of s :=
  destruct (locked_bit s) eqn:?, (woken_bit s) eqn:?, (starving_bit s) eqn:?.

Ltac use_flags :=
  repeat match goal with
  | H : locked_bit ?x = _ |- context [locked_bit ?x] => rewrite H
  | H : woken_bit ?x = _ |- context [woken_bit ?x] => rewrite H
  | H : starving_bit ?x = _ |- context [starving_bit ?x] => rewrite H
  end.

Ltac tally_crush :=
  unfold balanced, tally_add; simpl; autorewrite with flags; use_flags;
  simpl; try (intuition (try congruence; lia)).

(** A step that touches only the word and the stepping goroutine. *)
Lemma owned_tau s k q ts i p s' p' f' :
  owned (Config s k q ts None) ->
  ts !! i = Some p -> parked p = false -> local_ok p' ->
  (forall rest, balanced s k (tally_add (role p) rest) ->
                balanced s' k (tally_add (role p') rest)) ->
  owned (Config s' k q (<[i := p']> ts) f').
Proof.
  intros (Hb & Hloc & Hq) Hi Hp Hp' Hnum. simpl in *.
  destruct (census_split _ _ _ Hi) as (rest & E1 & E2).
  split; [|split]; simpl.
  - rewrite E2. apply Hnum. rewrite <- E1. exact Hb.
  - apply Forall_insert; assumption.
  - eapply queue_ok_insert; eauto.
Qed.

(** A step of goroutine [i] that is a [Tau]: the balance is checked on the
    tallies of everybody else. *)
Ltac by_owned_tau Hown Hi :=
  eapply (owned_tau _ _ _ _ _ _ _ _ _ Hown Hi);
  [reflexivity | simpl; auto; try discriminate
  | intros [? ? ? ? ? ? ?]; tally_crush].

Ltac split_ifs H :=
  repeat match type of H with
  | context [if ?b then _ else _] => destruct b eqn:?
  end.

Lemma owned_step i e c c' : owned c -> step i e c = Some c' -> owned c'.
Proof.
  intros Hown Hstep. unfold step in Hstep.
  destruct c as [s k q ts f]; simpl in *.
  destruct f; [discriminate|].
  destruct (ts !! i) as [p|] eqn:Hi; [|discriminate].
  pose proof Hown as (Hb & Hloc & Hq); simpl in *.
  pose proof (Forall_lookup_1 _ _ _ _ Hloc Hi) as Hlp.
  destruct p as [|l|l|l lifo|l|l|l delta| |old| |h]; try discriminate;
    unfold thread_step in Hstep; simpl in_Unlock in Hstep;
    cbv iota in Hstep;
    try (destruct l as [wst st aw it old]);
    unfold Lock_step, Unlock_step, CompareAndSwapInt32 in Hstep;
    simpl in Hstep, Hlp.
  - (* Idle *)
    destruct (Z.eqb_spec s 0) as [->|Hne]; injection Hstep as <-;
    by_owned_tau Hown Hi.
  - injection Hstep as <-;
    by_owned_tau Hown Hi.
  - autorewrite with flags in Hstep.
    pose proof (Lock_new_flags old st aw) as HN.
    destruct (Lock_new old st aw) as [new|msg];
    [destruct HN as (? & ? & ? & ?) | destruct HN as (? & ? & ?)];
    bits_of old; simpl in *;
    destruct (canSpin e), aw, st; simpl in Hstep;
    try (specialize (Hlp eq_refl); discriminate Hlp);
    destruct (Z.eqb_spec s old) as [->|Hne]; simpl in Hstep;
    split_ifs Hstep; simpl in Hstep; injection Hstep as <-;
    try exact Hown;
    try by_owned_tau Hown Hi.
  - (* LockSem *)
    unfold runtime_SemacquireMutex in Hstep; simpl in Hstep.
    injection Hstep as <-.
    destruct (census_split _ _ _ Hi) as (rest & E1 & E2).
    destruct k as [|k].
    + split; [|split]; simpl.
      * rewrite E2. rewrite E1 in Hb. exact Hb.
      * apply Forall_insert; [assumption | exact I].
      * eapply queue_ok_park; eauto.
    + split; [|split]; simpl.
      * rewrite E2. rewrite E1 in Hb. revert Hb.
        destruct rest as [h a n w u d g]. bits_of s; tally_crush.
      * apply Forall_insert; [assumption | exact I].
      * eapply queue_ok_insert; eauto.
  - (* LockWoke *)
    autorewrite with flags in Hstep.
    bits_of s; simpl in Hstep; split_ifs Hstep; injection Hstep as <-;
    try exact Hown;
    try by_owned_tau Hown Hi.
  - (* LockAdd *)
    injection Hstep as <-. simpl in Hlp. subst delta.
    destruct (census_split _ _ _ Hi) as (rest & E1 & E2).
    assert (locked_bit s = false /\ starving_bit s = true) as [Hl Hs].
    { rewrite E1 in Hb. revert Hb. destruct rest as [h a n w u d g].
      bits_of s; tally_crush. }
    destruct (flags_handoff_add s old st Hl Hs) as (F1 & F2 & F3).
    eapply (owned_tau _ _ _ _ _ _ _ _ _ Hown Hi);
      [reflexivity | exact I |].
    intros [h a n w u d g]. destruct (woken_bit s) eqn:?; tally_crush.
    rewrite andb_false_r. lia.
  - (* Held: the add of Unlock *)
    destruct (census_split _ _ _ Hi) as (rest & E1 & E2).
    assert (locked_bit s = true) as Hl.
    { rewrite E1 in Hb. revert Hb. destruct rest as [h a n w u d g].
      bits_of s; tally_crush. }
    unfold AddInt32 in Hstep. autorewrite with flags in Hstep.
    rewrite (starving_pred s Hl), Hl in Hstep. simpl in Hstep.
    pose proof (woken_pred s Hl). pose proof (starving_pred s Hl).
    pose proof (locked_pred s).
    bits_of s; simpl in *; try discriminate; injection Hstep as <-;
    by_owned_tau Hown Hi.
  - (* UnlockLoop *)
    autorewrite with flags in Hstep.
    destruct (Z.eqb_spec s old) as [->|Hne]; simpl in Hstep;
    bits_of old; simpl in Hstep; split_ifs Hstep; simpl in Hstep;
    injection Hstep as <-;
    by_owned_tau Hown Hi.
  - (* UnlockRead *)
    injection Hstep as <-.
    by_owned_tau Hown Hi.
  - (* UnlockRelease *)
    unfold runtime_Semrelease in Hstep; simpl in Hstep.
    injection Hstep as <-.
    destruct (census_split _ _ _ Hi) as (rest & E1 & E2).
    assert (queue_ok q (<[i := Idle]> ts)) as Hq'
      by (eapply queue_ok_insert; eauto).
    assert (Forall local_ok (<[i := Idle]> ts)) as Hloc'
      by (apply Forall_insert; [assumption | exact I]).
    rewrite E1 in Hb. specialize (E2 Idle).
    destruct q as [|j q0].
    + split; [|split]; simpl; [|assumption|assumption].
      rewrite E2. revert Hb. destruct rest as [a b n w u d g].
      destruct h; bits_of s; tally_crush.
    + destruct (queue_ok_pop _ _ _ Hq') as (l & Hj & Hq0).
      rewrite Hj. simpl ready.
      destruct (census_split _ _ _ Hj) as (rest' & E1' & E2').
      split; [|split]; simpl; [| |assumption].
      * rewrite E2'. rewrite E2 in E1'. revert Hb E1'.
        destruct rest as [a b n w u d g], rest' as [a' b' n' w' u' d' g'].
        unfold tally_add; simpl. intros Hb [= -> -> -> -> -> -> ->]. revert Hb.
        destruct h; bits_of s; tally_crush.
      * apply Forall_insert; [assumption | exact I].
Qed.

(** *** The waiter field

    With fewer than 2^28 goroutines the waiter field never wraps: it counts
    the goroutines accounted as waiters, and a starving word has at least
    one. *)

Lemma word_unlock s :
  int32 s -> locked_bit s = true ->
  int32 (AddInt32 s (- mutexLocked))
  /\ waiter_count (AddInt32 s (- mutexLocked)) = waiter_count s.
Proof.
  intros Hs Hl. unfold AddInt32.
  pose proof (flags_value s) as Hf. rewrite Hl in Hf.
  assert (int32 (s + - mutexLocked)) as Hi
    by (unfold mutexLocked; destruct (woken_bit s), (starving_bit s);
        word_arith).
  rewrite (wrap32_id _ Hi). split; [exact Hi|].
  unfold mutexLocked; destruct (woken_bit s), (starving_bit s); word_arith.
Qed.

Lemma word_handoff s old st :
  int32 s -> locked_bit s = false -> starving_bit s = true ->
  - 2 ^ 28 < waiter_count s ->
  int32 (AddInt32 s (handoff_delta old st))
  /\ waiter_count (AddInt32 s (handoff_delta old st)) = waiter_count s - 1.
Proof.
  intros Hs Hl Hst Hw. unfold AddInt32. rewrite handoff_delta_cases.
  pose proof (flags_value s) as Hf. rewrite Hl, Hst in Hf.
  assert (int32 (s + (if negb st || (Z.shiftr old mutexWaiterShift =? 1)
                      then -11 else -7))) as Hi
    by (destruct (_ || _), (woken_bit s); word_arith).
  rewrite (wrap32_id _ Hi). split; [exact Hi|].
  destruct (_ || _), (woken_bit s); word_arith.
Qed.

Lemma Lock_new_waiters old st aw new :
  int32 old -> waiter_count old + 1 < 2 ^ 28 ->
  Lock_new old st aw = inl new ->
  int32 new
  /\ waiter_count new
     = waiter_count old + (if locked_bit old || starving_bit old then 1 else 0).
Proof.
  intros Ho Hw. unfold Lock_new. autorewrite with flags.
  set (n1 := if negb (starving_bit old) then Z.lor old mutexLocked else old).
  assert (int32 n1 /\ waiter_count n1 = waiter_count old) as [I1 W1].
  { subst n1. destruct (negb (starving_bit old)); [|auto].
    split; [apply int32_lor; [unfold mutexLocked; lia | exact Ho]
           | apply waiter_count_lor; unfold mutexLocked; lia]. }
  set (n2 := if negb (negb (locked_bit old) && negb (starving_bit old))
             then wrap32 (n1 + Z.shiftl 1 mutexWaiterShift) else n1).
  assert (int32 n2 /\ waiter_count n2
          = waiter_count old
            + (if locked_bit old || starving_bit old then 1 else 0))
    as [I2 W2].
  { subst n2. rewrite <- W1 in Hw.
    destruct (word_add_waiter n1 I1 Hw) as [? ?].
    destruct (locked_bit old), (starving_bit old); simpl; split;
      try assumption; lia. }
  set (n3 := if st && negb (negb (locked_bit old))
             then Z.lor n2 mutexStarving else n2).
  assert (int32 n3 /\ waiter_count n3 = waiter_count n2) as [I3 W3].
  { subst n3. destruct (st && negb (negb (locked_bit old))); [|auto].
    split; [apply int32_lor; [unfold mutexStarving; lia | exact I2]
           | apply waiter_count_lor; unfold mutexStarving; lia]. }
  destruct aw; [destruct (negb (woken_bit n3)); [discriminate|]|];
    intros [= <-].
  - rewrite waiter_count_clear_woken. split; [apply int32_clear_woken; exact I3 | lia].
  - split; [exact I3 | lia].
Qed.

Lemma headcount_role p : (headcount (role p) <= 1)%nat.
Proof.
  destruct p as [|l|l|l b|l|l|l d| |o| |[|]]; unfold headcount; simpl;
    try destruct (awoke l); simpl; lia.
Qed.

Lemma headcount_census ts : (headcount (census ts) <= length ts)%nat.
Proof.
  induction ts as [|p ts IH]; simpl; [unfold headcount; simpl; lia|].
  pose proof (headcount_role p). unfold headcount, tally_add in *; simpl. lia.
Qed.

Lemma adders_elem ts x :
  x ∈ ts -> (adders (role x) <= adders (census ts))%nat.
Proof.
  induction 1 as [x ts|x y ts _ IH]; simpl; lia.
Qed.

Lemma snapshot_mono s s' ts i p' :
  waiter_count s <= waiter_count s' ->
  Forall (snapshot_ok s) ts -> snapshot_ok s' p' ->
  Forall (snapshot_ok s') (<[i := p']> ts).
Proof.
  intros Hle Hall Hp'. apply Forall_insert; [|exact Hp'].
  eapply Forall_impl; [exact Hall|].
  intros [] H; simpl in *; auto; lia.
Qed.

Lemma snapshot_free s s' ts i p' :
  adders (census (<[i := p']> ts)) = 0%nat ->
  Forall (snapshot_ok s) ts -> snapshot_ok s' p' ->
  Forall (snapshot_ok s') (<[i := p']> ts).
Proof.
  intros Hfree Hall Hp'. apply Forall_lookup. intros j x Hj.
  destruct (decide (j = i)) as [->|Hne].
  - destruct (decide (i < length ts)%nat) as [Hlt|Hge].
    + rewrite list_lookup_insert_eq in Hj by exact Hlt. injection Hj as <-. exact Hp'.
    + rewrite list_insert_ge in Hj by lia.
      apply lookup_lt_Some in Hj. lia.
  - pose proof (list_elem_of_lookup_2 _ _ _ Hj) as Hin.
    apply adders_elem in Hin. rewrite Hfree in Hin.
    rewrite list_lookup_insert_ne in Hj by auto.
    pose proof (Forall_lookup_1 _ _ _ _ Hall Hj) as Hx.
    destruct x; simpl in *; auto; lia.
Qed.

Lemma sound_tau n s k q ts i p s' p' :
  sound n (Config s k q ts None) -> ts !! i = Some p ->
  owned (Config s' k q (<[i := p']> ts) None) ->
  (forall rest,
     balanced s k (tally_add (role p) rest) ->
     counted s k (tally_add (role p) rest) ->
     balanced s' k (tally_add (role p') rest) ->
     (headcount (tally_add (role p') rest) <= n)%nat ->
     counted s' k (tally_add (role p') rest)
     /\ (waiter_count s <= waiter_count s'
         \/ adders (tally_add (role p') rest) = 0%nat)) ->
  snapshot_ok s' p' ->
  sound n (Config s' k q (<[i := p']> ts) None).
Proof.
  intros (Hown & Hcnt & Hsnap & Hlen & _) Hi Hown' Hnum Hp'. simpl in *.
  destruct (census_split _ _ _ Hi) as (rest & E1 & E2).
  pose proof (headcount_census (<[i := p']> ts)) as Hhc.
  rewrite length_insert, Hlen, E2 in Hhc.
  pose proof Hown as (Hb & _). pose proof Hown' as (Hb' & _). simpl in *.
  rewrite E1 in Hb, Hcnt. rewrite E2 in Hb'.
  destruct (Hnum rest Hb Hcnt Hb' Hhc) as [Hc' Hdir].
  split; [exact Hown'|]. split; [|split; [|split]]; simpl.
  - rewrite E2. exact Hc'.
  - destruct Hdir as [Hle|Hfree].
    + apply snapshot_mono with s; assumption.
    + apply snapshot_free with s; [rewrite E2|..]; assumption.
  - rewrite length_insert. exact Hlen.
  - reflexivity.
Qed.

Ltac count_open :=
  unfold counted, balanced, headcount, tally_add; simpl;
  autorewrite with flags; use_flags; simpl;
  rewrite ?andb_false_r, ?andb_true_r.

Ltac count_crush :=
  unfold counted, balanced, headcount, tally_add; simpl;
  autorewrite with flags; use_flags; simpl;
  rewrite ?andb_false_r, ?andb_true_r;
  try (intuition (try congruence; lia)).

Lemma sound_step n i e c c' :
  Z.of_nat n < 2 ^ 28 -> sound n c -> step i e c = Some c' -> sound n c'.
Proof.
  intros Hn Hsound Hstep.
  pose proof Hsound as (Hown & Hcnt & Hsnap & Hlen & Hf).
  pose proof (owned_step _ _ _ _ Hown Hstep) as Hown'.
  unfold step in Hstep.
  destruct c as [s k q ts f]; simpl in *. subst f.
  destruct (ts !! i) as [p|] eqn:Hi; [|discriminate].
  pose proof (Forall_lookup_1 _ _ _ _ Hsnap Hi) as Hsp.
  pose proof Hown as (_ & Hloc & _); simpl in Hloc.
  pose proof (Forall_lookup_1 _ _ _ _ Hloc Hi) as Hlp.
  destruct (census_split _ _ _ Hi) as ([h0 a0 b0 w0 u0 d0 g0] & E0 & _).
  pose proof Hown as (Hb0 & _); simpl in Hb0. rewrite E0 in Hb0.
  pose proof Hcnt as Hc0. rewrite E0 in Hc0. clear E0.
  destruct p as [|l|l|l lifo|l|l|l delta| |old| |h]; try discriminate;
    unfold thread_step in Hstep, Hown'; simpl in_Unlock in Hstep, Hown';
    cbv iota in Hstep, Hown';
    try (destruct l as [wst st aw it old]);
    unfold Lock_step, Unlock_step, CompareAndSwapInt32 in Hstep, Hown';
    simpl in Hstep, Hown', Hlp, Hsp, Hb0, Hc0.
  - (* Idle *)
    destruct (Z.eqb_spec s 0) as [->|Hne]; injection Hstep as <-;
      (eapply (sound_tau _ _ _ _ _ _ _ _ _ Hsound Hi Hown');
       [intros [h a b w u d g]; count_crush | simpl; auto]).
  - (* LockRead *)
    injection Hstep as <-.
    eapply (sound_tau _ _ _ _ _ _ _ _ _ Hsound Hi Hown');
      [intros [h a b w u d g]; count_crush | simpl].
    revert Hb0. destruct aw; bits_of s; tally_crush.
  - (* LockLoop *)
    autorewrite with flags in Hstep, Hown'.
    pose proof (Lock_new_flags old st aw) as HN.
    pose proof (Lock_new_waiters old st aw) as HW.
    destruct (Lock_new old st aw) as [new|msg];
    [destruct HN as (? & ? & ? & ?) | destruct HN as (? & ? & ?)];
    bits_of old; simpl in *;
    destruct (canSpin e), aw, st; simpl in Hstep, Hown';
    try (specialize (Hlp eq_refl); discriminate Hlp);
    try (specialize (Hsp eq_refl); discriminate Hsp);
    destruct (Z.eqb_spec s old) as [->|Hne]; simpl in Hstep, Hown';
    split_ifs Hstep; simpl in Hstep, Hown'; injection Hstep as <-;
    try congruence;
    try (exfalso; revert Hb0; clear; count_open; intuition (try congruence; lia));
    pose proof (int32_lor old mutexWoken ltac:(unfold mutexWoken; lia)) as HL;
    pose proof (waiter_count_lor old mutexWoken ltac:(unfold mutexWoken; lia)) as HL';
    try (eapply (sound_tau _ _ _ _ _ _ _ _ _ Hsound Hi Hown');
       [intros [h a b w u d g]; count_open; intros Hb Hc Hb' Hhc;
        try (destruct (HW new) as [? ?]; [tauto | lia | reflexivity | ]);
        rewrite ?HL';
        solve [intuition (try congruence; lia)]
       | simpl; auto]).
  - (* LockSem *)
    unfold runtime_SemacquireMutex in Hstep; simpl in Hstep.
    injection Hstep as <-.
    destruct (census_split _ _ _ Hi) as (rest & E1 & E2).
    pose proof Hown as (Hb & _); simpl in Hb. rewrite E1 in Hb, Hcnt.
    destruct k as [|k]; (split; [exact Hown'|]);
      (split; [|split; [|split]]); simpl;
      try (rewrite length_insert; exact Hlen); try reflexivity;
      try (apply snapshot_mono with s; [lia | assumption | exact I]).
    + rewrite E2. exact Hcnt.
    + rewrite E2. revert Hb Hcnt. destruct rest as [h a b w u d g].
      bits_of s; count_crush.
  - (* LockWoke *)
    autorewrite with flags in Hstep, Hown'.
    bits_of s; simpl in Hstep, Hown'; split_ifs Hstep; injection Hstep as <-;
    repeat match goal with
    | H : (Z.shiftr ?s mutexWaiterShift =? 0) = _ |- _ =>
        apply Z.eqb_eq in H || apply Z.eqb_neq in H;
        fold (waiter_count s) in H
    end;
    try (exfalso; revert Hb0 Hc0; count_open;
         solve [intuition (try congruence; lia)]);
    (eapply (sound_tau _ _ _ _ _ _ _ _ _ Hsound Hi Hown');
       [intros [h a b w u d g]; count_open; intros Hb Hc Hb' Hhc;
        solve [intuition (try congruence; lia)]
       | simpl; auto]).
    destruct Hc0 as (_ & _ & Hst). specialize (Hst Heqb1). lia.
  - (* LockAdd *)
    injection Hstep as <-. subst delta.
    assert (locked_bit s = false /\ starving_bit s = true
            /\ woken_bit s = false) as (Hl & Hs & Hw).
    { revert Hb0. clear. bits_of s; tally_crush. }
    destruct (flags_handoff_add s old st Hl Hs) as (F1 & F2 & F3).
    rewrite Hw in F2.
    assert (int32 s /\ 1 <= waiter_count s) as [Hi32 Hw1].
    { destruct Hc0 as (? & _ & Hst). split; [assumption|]. auto. }
    destruct (word_handoff s old st Hi32 Hl Hs ltac:(lia)) as [W1 W2].
    assert (starving_bit (AddInt32 s (handoff_delta old st)) = true ->
            2 <= waiter_count s) as Hkeep.
    { rewrite F3. destruct st; simpl; [|discriminate].
      destruct (Z.eqb_spec (Z.shiftr old mutexWaiterShift) 1) as [|Hne];
        [discriminate|]. fold (waiter_count old) in Hne. lia. }
    eapply (sound_tau _ _ _ _ _ _ _ _ _ Hsound Hi Hown'); [|exact I].
    intros [h a b w u d g]. revert Hkeep W1 W2.
    generalize (AddInt32 s (handoff_delta old st)) F1 F2. intros s' F1' F2'.
    count_open. intros Hkeep W1 W2 Hb Hc Hb' Hhc.
    destruct (starving_bit s') eqn:Hst'; simpl in *;
      (split; [intuition (try congruence; lia) | right; lia]).
  - (* Held: the add of Unlock *)
    assert (locked_bit s = true) as Hl.
    { revert Hb0. clear. bits_of s; tally_crush. }
    assert (int32 s) as Hi32 by (destruct Hc0 as (? & _); assumption).
    destruct (word_unlock s Hi32 Hl) as [W1 W2].
    unfold AddInt32 in Hstep. autorewrite with flags in Hstep.
    rewrite (starving_pred s Hl), Hl in Hstep. simpl in Hstep.
    pose proof (woken_pred s Hl) as P1. pose proof (starving_pred s Hl) as P2.
    pose proof (locked_pred s) as P3. rewrite Hl in P3. simpl in P3.
    rewrite <- woken_wrap32 in P1. rewrite <- starving_wrap32 in P2.
    rewrite <- locked_wrap32 in P3.
    unfold AddInt32 in W1, W2.
    destruct (starving_bit s) eqn:Hs; simpl in Hstep;
      injection Hstep as <-; fold (AddInt32 s (- mutexLocked)) in Hown';
      unfold AddInt32 in Hown';
      (eapply (sound_tau _ _ _ _ _ _ _ _ _ Hsound Hi Hown'); [|exact I]);
      intros [h a b w u d g]; revert W1 W2 P1 P2 P3;
      generalize (wrap32 (s + - mutexLocked)); intros s' W1 W2 P1 P2 P3;
      destruct (woken_bit s) eqn:Hw; count_open; intros;
      solve [intuition (try congruence; lia)].
  - (* UnlockLoop *)
    autorewrite with flags in Hstep, Hown'.
    destruct (Z.eqb_spec (Z.shiftr old mutexWaiterShift) 0) as [Hz|Hnz];
      fold (waiter_count old) in *; simpl in Hstep;
      destruct (Z.eqb_spec s old) as [->|Hne]; simpl in Hstep;
      bits_of old; simpl in Hstep; injection Hstep as <-;
      try (eapply (sound_tau _ _ _ _ _ _ _ _ _ Hsound Hi Hown');
        [intros [h a b w u d g]; count_open; intros Hb Hc Hb' Hhc;
         solve [intuition (try congruence; lia)]
        | simpl; auto]).
    assert (int32 old /\ 0 <= waiter_count old) as [Hi32 Hw0].
    { revert Hc0. clear -Heqb0. count_open. intuition lia. }
    destruct (word_sub_waiter old Hi32 ltac:(lia)) as [W1 W2].
    pose proof (int32_lor _ mutexWoken ltac:(unfold mutexWoken; lia) W1) as W3.
    pose proof (waiter_count_lor (wrap32 (old - Z.shiftl 1 mutexWaiterShift))
                  mutexWoken ltac:(unfold mutexWoken; lia)) as W4.
    eapply (sound_tau _ _ _ _ _ _ _ _ _ Hsound Hi Hown'); [|exact I].
    intros [h a b w u d g]; count_open; intros Hb Hc Hb' Hhc.
    rewrite W4, W2. split; [intuition (try congruence; lia) | right; lia].
  - (* UnlockRead *)
    injection Hstep as <-.
    eapply (sound_tau _ _ _ _ _ _ _ _ _ Hsound Hi Hown');
      [intros [h a b w u d g]; count_crush | exact I].
  - (* UnlockRelease *)
    unfold runtime_Semrelease in Hstep; simpl in Hstep.
    injection Hstep as <-.
    clear Hb0 Hc0.
    destruct (census_split _ _ _ Hi) as (rest & E1 & E2).
    pose proof Hown as (Hb & _ & Hq); simpl in Hb, Hq.
    assert (queue_ok q (<[i := Idle]> ts)) as Hq'
      by (eapply queue_ok_insert; eauto).
    assert (Forall (snapshot_ok s) (<[i := Idle]> ts)) as Hsnap'
      by (apply Forall_insert; [assumption | exact I]).
    rewrite E1 in Hb, Hcnt. specialize (E2 Idle).
    destruct q as [|j q0].
    + split; [exact Hown'|]. split; [|split; [|split]]; simpl;
        [|assumption|rewrite length_insert; exact Hlen|reflexivity].
      rewrite E2. revert Hb Hcnt. destruct rest as [a b c w u d g].
      destruct h; bits_of s; count_crush.
    + destruct (queue_ok_pop _ _ _ Hq') as (l & Hj & Hq0).
      rewrite Hj in Hown' |- *. simpl ready in *.
      destruct (census_split _ _ _ Hj) as (rest' & E1' & E2').
      split; [exact Hown'|]. split; [|split; [|split]]; simpl;
        [| |rewrite !length_insert; exact Hlen|reflexivity].
      * rewrite E2'. rewrite E2 in E1'. revert Hb Hcnt E1'.
        destruct rest as [a b c w u d g], rest' as [a' b' c' w' u' d' g'].
        unfold tally_add; simpl. intros Hb Hcnt [= -> -> -> -> -> -> ->].
        revert Hb Hcnt. destruct h; bits_of s; count_crush.
      * apply Forall_insert; [assumption | exact I].
Qed.

(** *** Reachable configurations *)

Lemma owned_init n : owned (init n).
Proof.
  unfold owned, init; simpl. split; [|split].
  - assert (census (replicate n Idle) = tally0) as ->
      by (induction n as [|n IH]; simpl; [|rewrite IH]; reflexivity).
    unfold balanced; simpl. auto.
  - apply Forall_replicate. exact I.
  - split; [constructor|]. intros j Hj. inversion Hj.
Qed.

Lemma reachable_owned n c : reachable n c -> owned c.
Proof.
  induction 1 as [|c i e c' _ IH Hs]; [apply owned_init|].
  eapply owned_step; eauto.
Qed.

Lemma sound_init n : sound n (init n).
Proof.
  split; [apply owned_init|]. unfold init; simpl.
  assert (census (replicate n Idle) = tally0) as ->
    by (induction n as [|n IH]; simpl; [|rewrite IH]; reflexivity).
  split; [|split; [|split]].
  - unfold counted; simpl. split; [unfold int32; lia|]. split; [reflexivity|].
    discriminate.
  - apply Forall_replicate. exact I.
  - apply length_replicate.
  - reflexivity.
Qed.

Lemma reachable_sound n c :
  Z.of_nat n < 2 ^ 28 -> reachable n c -> sound n c.
Proof.
  intros Hn. induction 1 as [|c i e c' _ IH Hs]; [apply sound_init|].
  eapply sound_step; eauto.
Qed.

Lemma two_holders ts i j :
  ts !! i = Some Held -> ts !! j = Some Held -> i <> j ->
  (2 <= holders (census ts))%nat.
Proof.
  intros Hi Hj Hne.
  destruct (census_split _ _ _ Hi) as (rest & E1 & E2).
  assert (<[i := Idle]> ts !! j = Some Held) as Hj'
    by (rewrite list_lookup_insert_ne; auto).
  destruct (census_split _ _ _ Hj') as (rest' & E1' & _).
  rewrite E2 in E1'. rewrite E1.
  destruct rest, rest'. unfold tally_add in *; simpl in *.
  injection E1' as -> _ _ _ _ _ _. lia.
Qed.

(** Claim C1 (mutual exclusion).  In every configuration reachable from the
    zero mutex, for any number [n] of goroutines that each alternate [Lock]
    and [Unlock] and interleave their steps in any order, no two goroutines
    are at the same time between the return of their [Lock] and the add of
    their [Unlock]; while a goroutine is in that position the locked bit of
    the word is set, and the number of goroutines in that position is one
    when the bit is set and zero when it is clear. *)
Theorem mutual_exclusion n c :
  reachable n c ->
  (forall i j,
     threads c !! i = Some Held -> threads c !! j = Some Held -> i = j)
  /\ (forall i, threads c !! i = Some Held -> locked_bit (state c) = true)
  /\ holders (census (threads c))
     = (if locked_bit (state c) then 1 else 0)%nat.
Proof.
  intros Hr. destruct (reachable_owned _ _ Hr) as ((Hh & _) & _).
  split; [|split; [|exact Hh]].
  - intros i j Hi Hj. destruct (decide (i = j)) as [|Hne]; [assumption|].
    pose proof (two_holders _ _ _ Hi Hj Hne).
    destruct (locked_bit (state c)); lia.
  - intros i Hi. destruct (census_split _ _ _ Hi) as (rest & E & _).
    rewrite E in Hh. simpl in Hh.
    destruct (locked_bit (state c)); [reflexivity | discriminate Hh].
Qed.

Lemma counted_starving s k t :
  counted s k t -> waiter_count s = 0 -> starving_bit s = false.
Proof.
  intros (_ & _ & Hst) Hz. destruct (starving_bit s); [|reflexivity].
  specialize (Hst eq_refl). lia.
Qed.

Lemma step_sets_starving i e c c' :
  owned c -> step i e c = Some c' ->
  starving_bit (state c) = false -> starving_bit (state c') = true ->
  locked_bit (state c) = true.
Proof.
  intros Hown Hstep. unfold step in Hstep.
  destruct c as [s k q ts f]; simpl in *.
  destruct f; [discriminate|].
  destruct (ts !! i) as [p|] eqn:Hi; [|discriminate].
  destruct (census_split _ _ _ Hi) as ([h0 a0 b0 w0 u0 d0 g0] & E0 & _).
  pose proof Hown as (Hb0 & _); simpl in Hb0. rewrite E0 in Hb0. clear E0.
  destruct p as [|l|l|l lifo|l|l|l delta| |old| |h]; try discriminate;
    unfold thread_step in Hstep; simpl in_Unlock in Hstep;
    cbv iota in Hstep;
    try (destruct l as [wst st aw it old]);
    unfold Lock_step, Unlock_step, CompareAndSwapInt32 in Hstep;
    simpl in Hstep, Hb0.
  - destruct (Z.eqb_spec s 0) as [->|Hne]; injection Hstep as <-; simpl;
      try congruence. discriminate.
  - injection Hstep as <-; simpl; congruence.
  - autorewrite with flags in Hstep.
    pose proof (Lock_new_flags old st aw) as HN.
    destruct (Lock_new old st aw) as [new|msg];
    [destruct HN as (? & ? & ? & ?) | destruct HN as (? & ? & ?)];
    destruct (canSpin e); simpl in Hstep;
    destruct (Z.eqb_spec s old) as [->|Hne]; simpl in Hstep;
    split_ifs Hstep; simpl in Hstep; injection Hstep as <-; simpl;
    autorewrite with flags; try congruence;
    intros Hs Hs'; rewrite Hs in *; simpl in *;
    destruct (locked_bit old); try reflexivity;
    rewrite ?andb_false_r in *; congruence.
  - unfold runtime_SemacquireMutex in Hstep; simpl in Hstep.
    injection Hstep as <-. destruct k; simpl; congruence.
  - autorewrite with flags in Hstep. split_ifs Hstep;
      injection Hstep as <-; simpl; congruence.
  - injection Hstep as <-; simpl. intros Hs _. revert Hb0 Hs.
    clear. bits_of s; tally_crush.
  - intros _ _. revert Hb0. clear. bits_of s; tally_crush.
  - split_ifs Hstep; injection Hstep as <-; simpl; autorewrite with flags;
      try congruence.
    destruct (Z.eqb_spec s old); congruence.
  - injection Hstep as <-; simpl; congruence.
  - unfold runtime_Semrelease in Hstep; simpl in Hstep.
    injection Hstep as <-. destruct q; simpl; congruence.
Qed.

(** Claim C4 (a starving mutex has waiters).  In every configuration
    reachable from the zero mutex with fewer than 2^28 goroutines, a zero
    waiter field implies a clear starving bit; a step sets the starving bit
    only on a locked word; and the repair after a hand-off takes one off the
    waiter field and leaves no starving word without waiters. *)
Theorem starving_implies_waiters n c :
  Z.of_nat n < 2 ^ 28 -> reachable n c ->
  (waiter_count (state c) = 0 -> starving_bit (state c) = false)
  /\ (forall i e c',
        step i e c = Some c' ->
        starving_bit (state c) = false -> starving_bit (state c') = true ->
        locked_bit (state c) = true)
  /\ (forall i e c' l delta,
        threads c !! i = Some (LockAdd l delta) -> step i e c = Some c' ->
        waiter_count (state c') = waiter_count (state c) - 1
        /\ (waiter_count (state c') = 0 -> starving_bit (state c') = false)).
Proof.
  intros Hn Hr.
  pose proof (reachable_sound _ _ Hn Hr) as Hsound.
  pose proof Hsound as (Hown & Hcnt & _).
  split; [|split].
  - eapply counted_starving; eauto.
  - intros i e c' Hstep. eapply step_sets_starving; eauto.
  - intros i e c' l delta Hi Hstep.
    assert (reachable n c') as Hr' by (eapply reach_step; eauto).
    pose proof (reachable_sound _ _ Hn Hr') as (_ & Hcnt' & _).
    split; [|eapply counted_starving; eauto].
    pose proof Hown as (Hb & Hloc & _).
    pose proof (Forall_lookup_1 _ _ _ _ Hloc Hi) as Hlp. simpl in Hlp.
    destruct (census_split _ _ _ Hi) as ([h0 a0 b0 w0 u0 d0 g0] & E0 & _).
    rewrite E0 in Hb, Hcnt.
    unfold step in Hstep. destruct c as [s k q ts f]; simpl in *.
    destruct f; [discriminate|]. rewrite Hi in Hstep.
    injection Hstep as <-. simpl. subst delta.
    assert (locked_bit s = false /\ starving_bit s = true) as [Hl Hs]
      by (revert Hb; clear; bits_of s; tally_crush).
    destruct Hcnt as (Hi32 & _ & Hst). specialize (Hst Hs).
    apply word_handoff; auto. lia.
Qed.

Lemma woke_in_starvation n c i l :
  Z.of_nat n < 2 ^ 28 -> reachable n c ->
  threads c !! i = Some (LockWoke l) -> starving_bit (state c) = true ->
  locked_bit (state c) = false /\ woken_bit (state c) = false
  /\ 1 <= waiter_count (state c).
Proof.
  intros Hn Hr Hi Hs.
  pose proof (reachable_sound _ _ Hn Hr) as ((Hb & _) & (_ & _ & Hst) & _).
  destruct (census_split _ _ _ Hi) as ([h0 a0 b0 w0 u0 d0 g0] & E0 & _).
  rewrite E0 in Hb. specialize (Hst Hs). split; [|split; [|exact Hst]];
    revert Hb Hs; clear; bits_of (state c); tally_crush.
Qed.

(** With fewer than 2^28 goroutines, each unlocking only what it has locked,
    no reachable configuration has thrown. *)
Lemma reachable_not_fatal n c :
  Z.of_nat n < 2 ^ 28 -> reachable n c -> fatal c = None.
Proof. intros Hn Hr. apply (reachable_sound _ _ Hn Hr). Qed.

(** *** What the steps of [Lock] and [Unlock] do *)

(** Claim C6 (unlock of an unlocked mutex).  Whenever a goroutine runs
    [Unlock] on a word whose locked bit is clear, the test after the add
    throws "sync: unlock of unlocked mutex": the process is terminated and no
    goroutine takes another step. *)
Theorem Unlock_unlocked_fatal i e c :
  fatal c = None -> threads c !! i = Some Held ->
  locked_bit (state c) = false ->
  Unlock_step Held (state c)
  = (Held, AddInt32 (state c) (- mutexLocked),
     Throw "sync: unlock of unlocked mutex")
  /\ exists c',
       step i e c = Some c'
       /\ fatal c' = Some "sync: unlock of unlocked mutex"%string
       /\ forall j e', step j e' c' = None.
Proof.
  intros Hf Hi Hl.
  assert (Unlock_step Held (state c)
          = (Held, AddInt32 (state c) (- mutexLocked),
             Throw "sync: unlock of unlocked mutex")) as Hu.
  { unfold Unlock_step, AddInt32. autorewrite with flags. rewrite Hl.
    reflexivity. }
  split; [exact Hu|].
  unfold step. rewrite Hf, Hi. unfold thread_step. simpl in_Unlock.
  cbv iota. rewrite Hu. eexists. split; [reflexivity|]. split; [reflexivity|].
  intros j e'. reflexivity.
Qed.

Lemma Unlock_unlocked_fatal_witness :
  Unlock_step Held 0
  = (Held, -1, Throw "sync: unlock of unlocked mutex")
  /\ exists c',
       step 0 (Env false 0) fresh_unlock = Some c'
       /\ fatal c' = Some "sync: unlock of unlocked mutex"%string
       /\ forall j e', step j e' c' = None.
Proof.
  apply (Unlock_unlocked_fatal 0 (Env false 0) fresh_unlock); reflexivity.
Defined.



Lemma Semrelease_head handoff c j q l :
  semq c = j :: q -> threads c !! j = Some (LockParked l) ->
  runtime_Semrelease handoff c
  = Config (state c) (sema c) q (<[j := LockWoke l]> (threads c)) (fatal c).
Proof.
  intros Hq Hj. unfold runtime_Semrelease. rewrite Hq, Hj. reflexivity.
Qed.

(** The add of line 228 on a locked word. *)
Lemma Unlock_add s :
  int32 s -> locked_bit s = true ->
  let new := AddInt32 s (- mutexLocked) in
  Unlock_step Held s
  = (if starving_bit s then UnlockRelease true else UnlockLoop new, new, Tau)
  /\ locked_bit new = false /\ woken_bit new = woken_bit s
  /\ starving_bit new = starving_bit s
  /\ waiter_count new = waiter_count s.
Proof.
  intros Hi Hl. cbv zeta.
  destruct (word_unlock s Hi Hl) as [_ Hw].
  pose proof (woken_pred s Hl) as Hwk. pose proof (starving_pred s Hl) as Hst.
  unfold Unlock_step, AddInt32 in *. autorewrite with flags.
  rewrite ?Hwk, ?Hst, ?Hl. simpl.
  destruct (starving_bit s); simpl; auto 10.
Qed.

(** Claim C2 (the hand-off of starvation mode).  [Unlock] on a starving word
    clears the locked bit with its add, leaves the rest of the word alone and
    calls [runtime_Semrelease] with [handoff] set, which wakes the head of the
    queue.  A waiter that wakes up and reads a starving word throws
    "sync: inconsistent mutex state" when the locked or the woken bit is set
    or the waiter field is zero, and otherwise adds the repair
    [handoff_delta]: on a word that is unlocked, starving and has a waiter,
    the add sets the locked bit, takes one off the waiter field, keeps the
    woken bit and clears the starving bit exactly when the waiter is not
    starving itself or read a waiter field of one; it then holds the lock.
    In every reachable configuration of fewer than 2^28 goroutines the
    waiter does find both bits clear and a waiter registered. *)
Theorem starvation_handoff :
  (forall s,
     int32 s -> locked_bit s = true -> starving_bit s = true ->
     let s' := AddInt32 s (- mutexLocked) in
     Unlock_step Held s = (UnlockRelease true, s', Tau)
     /\ locked_bit s' = false /\ woken_bit s' = woken_bit s
     /\ starving_bit s' = true /\ waiter_count s' = waiter_count s
     /\ forall t, Unlock_step (UnlockRelease true) t
                  = (Idle, t, Semrelease true))
  /\ (forall c j q l,
        semq c = j :: q -> threads c !! j = Some (LockParked l) ->
        runtime_Semrelease true c
        = Config (state c) (sema c) q (<[j := LockWoke l]> (threads c))
            (fatal c))
  /\ (forall e l s,
        starving_bit s = true ->
        Lock_step e (LockWoke l) s
        = if locked_bit s || woken_bit s || (waiter_count s =? 0)
          then (LockWoke l, s, Throw "sync: inconsistent mutex state")
          else
            let st :=
              starving l
              || (wrap64 (nanotime e - waitStartTime l)
                  >? starvationThresholdNs) in
            (LockAdd (Locals (waitStartTime l) st (awoke l) (iter l) s)
               (handoff_delta s st), s, Tau))
  /\ (forall e l old st s,
        int32 s -> locked_bit s = false -> starving_bit s = true ->
        1 <= waiter_count s ->
        let s' := AddInt32 s (handoff_delta old st) in
        Lock_step e (LockAdd l (handoff_delta old st)) s = (Held, s', Tau)
        /\ locked_bit s' = true
        /\ waiter_count s' = waiter_count s - 1
        /\ woken_bit s' = woken_bit s
        /\ (starving_bit s' = false <-> st = false \/ waiter_count old = 1))
  /\ (forall n c i l,
        Z.of_nat n < 2 ^ 28 -> reachable n c ->
        threads c !! i = Some (LockWoke l) ->
        starving_bit (state c) = true ->
        locked_bit (state c) = false /\ woken_bit (state c) = false
        /\ 1 <= waiter_count (state c)).
Proof.
  split; [|split; [|split; [|split]]].
  - intros s Hi Hl Hs. cbv zeta.
    destruct (Unlock_add s Hi Hl) as (E & L & K & S & W).
    rewrite Hs in E, S. auto 10.
  - intros c j q l. apply Semrelease_head.
  - intros e [wst st aw it old] s Hs. unfold Lock_step. simpl.
    autorewrite with flags. rewrite Hs. simpl.
    fold (waiter_count s).
    destruct (locked_bit s), (woken_bit s); reflexivity.
  - intros e l old st s Hi Hl Hs Hw. cbv zeta.
    destruct (flags_handoff_add s old st Hl Hs) as (F1 & F2 & F3).
    destruct (word_handoff s old st Hi Hl Hs ltac:(lia)) as [_ W].
    split; [reflexivity|]. split; [exact F1|]. split; [exact W|].
    split; [exact F2|]. rewrite F3. fold (waiter_count old).
    destruct st; simpl; destruct (Z.eqb_spec (waiter_count old) 1);
      split; auto; intros [?|?]; congruence.
  - intros n c i l. apply woke_in_starvation.
Qed.



Lemma step_tau i e c p p' s' :
  fatal c = None -> threads c !! i = Some p -> parked p = false ->
  thread_step e p (state c) = (p', s', Tau) ->
  step i e c
  = Some (Config s' (sema c) (semq c) (<[i := p']> (threads c)) None).
Proof.
  intros Hf Hi Hp Ht. unfold step. rewrite Hf, Hi, Ht.
  destruct p; try reflexivity. discriminate Hp.
Qed.








(** *** Concrete executions *)

Lemma contended_reachable : reachable 3 contended.
Proof.
  apply (run_reachable 3 contended_schedule (init 3));
    [apply reach_init | reflexivity].
Defined.

Lemma handed_off_reachable : reachable 3 handed_off.
Proof.
  apply (run_reachable 3 handoff_schedule (init 3));
    [apply reach_init | reflexivity].
Defined.

Lemma repairing_reachable : reachable 3 repairing.
Proof.
  apply (reach_step 3 handed_off 1 late); [apply handed_off_reachable|].
  reflexivity.
Defined.

Lemma mutual_exclusion_witness :
  (forall i j,
     threads contended !! i = Some Held ->
     threads contended !! j = Some Held -> i = j)
  /\ (forall i,
        threads contended !! i = Some Held ->
        locked_bit (state contended) = true)
  /\ holders (census (threads contended))
     = (if locked_bit (state contended) then 1 else 0)%nat.
Proof. apply (mutual_exclusion 3 contended). apply contended_reachable. Defined.

Lemma starving_implies_waiters_witness :
  (waiter_count (state repairing) = 0 -> starving_bit (state repairing) = false)
  /\ (forall i e c',
        step i e repairing = Some c' ->
        starving_bit (state repairing) = false ->
        starving_bit (state c') = true ->
        locked_bit (state repairing) = true)
  /\ (forall i e c' l delta,
        threads repairing !! i = Some (LockAdd l delta) ->
        step i e repairing = Some c' ->
        waiter_count (state c') = waiter_count (state repairing) - 1
        /\ (waiter_count (state c') = 0 -> starving_bit (state c') = false)).
Proof.
  apply (starving_implies_waiters 3 repairing);
    [vm_compute; reflexivity | apply repairing_reachable].
Defined.


Lemma starvation_handoff_witness :
  Unlock_step Held 13 = (UnlockRelease true, 12, Tau)
  /\ runtime_Semrelease true handing_off
     = Config 12 0 []
         [Idle; LockWoke (Locals 1 true true 0 3); UnlockRelease true] None
  /\ Lock_step late (LockWoke (Locals 1 true true 0 3)) 12
     = (LockAdd (Locals 1 true true 0 12) (-11), 12, Tau)
  /\ Lock_step late (LockAdd (Locals 1 true true 0 12) (-11)) 12
     = (Held, 1, Tau)
  /\ (locked_bit (state handed_off) = false
      /\ woken_bit (state handed_off) = false
      /\ 1 <= waiter_count (state handed_off)).
Proof.
  destruct starvation_handoff as (Hunlock & Hrel & Hwoke & Hadd & Hreach).
  split; [|split; [|split; [|split]]].
  - apply (Hunlock 13); [unfold int32; lia | reflexivity | reflexivity].
  - apply (Hrel handing_off 1%nat [] (Locals 1 true true 0 3)); reflexivity.
  - apply (Hwoke late (Locals 1 true true 0 3) 12). reflexivity.
  - apply (Hadd late (Locals 1 true true 0 12) 12 true 12);
      [unfold int32; lia | reflexivity | reflexivity | vm_compute; discriminate].
  - apply (Hreach 3%nat handed_off 1%nat (Locals 1 true true 0 3));
      [vm_compute; reflexivity | apply handed_off_reachable
      | reflexivity | reflexivity].
Defined.


(** *** Further invariants of the reachable configurations

    On top of [owned] and [sound]: where the parked goroutines are, and who
    stands for them. *)

Lemma wired_tau s k q ts i p s' p' :
  wired (Config s k q ts None) -> ts !! i = Some p -> parked p' = false ->
  0 <= waiter_count s' ->
  (flagless s' = true -> waiter_count s' <> 0 ->
   p' = UnlockLoop s' \/ (s' = s /\ p <> UnlockLoop s)) ->
  wired (Config s' k q (<[i := p']> ts) None).
Proof.
  intros (Hw & Hpark & Hsem & Hloop) Hi Hp' Hw' Hflag. simpl in *.
  assert (i < length ts)%nat as Hlt by (eapply lookup_lt_Some; eauto).
  split; [exact Hw'|]. split; [|split; [exact Hsem|]]; simpl.
  - intros j l Hj. destruct (decide (j = i)) as [->|Hne].
    + rewrite list_lookup_insert_eq in Hj by exact Hlt.
      injection Hj as ->. discriminate Hp'.
    + rewrite list_lookup_insert_ne in Hj by auto. eauto.
  - intros Hf Hnz. destruct (Hflag Hf Hnz) as [->|[-> Hne]].
    + exists i. apply list_lookup_insert_eq. exact Hlt.
    + destruct (Hloop Hf Hnz) as [j Hj]. exists j.
      rewrite list_lookup_insert_ne; [exact Hj|].
      intros ->. rewrite Hi in Hj. injection Hj as ->. contradiction.
Qed.

Lemma flagless_locked s : locked_bit s = true -> flagless s = false.
Proof. unfold flagless. intros ->. reflexivity. Qed.

Lemma flagless_woken s : woken_bit s = true -> flagless s = false.
Proof.
  unfold flagless. intros ->. destruct (locked_bit s), (starving_bit s);
    reflexivity.
Qed.

Lemma flagless_starving s : starving_bit s = true -> flagless s = false.
Proof. unfold flagless. intros ->. apply andb_false_r. Qed.

Lemma waiter_count_bound n s k t :
  counted s k t -> (headcount t <= n)%nat -> waiter_count s <= Z.of_nat n.
Proof.
  intros (_ & Hc & _) Hh. unfold headcount in Hh.
  destruct (woken_bit s); lia.
Qed.

Lemma sound_waiters n c :
  sound n c -> int32 (state c) /\ waiter_count (state c) <= Z.of_nat n.
Proof.
  intros (_ & Hcnt & _ & Hlen & _).
  split; [apply Hcnt|].
  eapply waiter_count_bound; [exact Hcnt|].
  rewrite <- Hlen. apply headcount_census.
Qed.

Lemma wired_step n i e c c' :
  Z.of_nat n < 2 ^ 28 -> sound n c -> wired c -> step i e c = Some c' ->
  wired c'.
Proof.
  intros Hn Hsound Hwired Hstep.
  pose proof (sound_step _ _ _ _ _ Hn Hsound Hstep) as Hsound'.
  destruct (sound_waiters _ _ Hsound) as [Hi32 Hbound].
  pose proof Hsound as (Hown & Hcnt & Hsnap & Hlen & Hf).
  pose proof Hsound' as (_ & _ & _ & _ & Hf').
  unfold step in Hstep.
  destruct c as [s k q ts f]; simpl in *. subst f.
  destruct (ts !! i) as [p|] eqn:Hi; [|discriminate].
  pose proof Hown as (_ & Hloc & Hq); simpl in Hloc, Hq.
  pose proof (Forall_lookup_1 _ _ _ _ Hloc Hi) as Hlp.
  destruct (census_split _ _ _ Hi) as ([h0 a0 b0 w0 u0 d0 g0] & E0 & E2).
  assert (forall p', (headcount (tally_add (role p')
                                   (Tally h0 a0 b0 w0 u0 d0 g0)) <= n)%nat)
    as Hhc.
  { intros p'. rewrite <- E2, <- Hlen.
    etransitivity; [apply headcount_census|]. rewrite length_insert. lia. }
  clear E2.
  pose proof Hown as (Hb0 & _); simpl in Hb0. rewrite E0 in Hb0.
  pose proof Hcnt as Hc0. rewrite E0 in Hc0. clear E0.
  pose proof Hwired as (Hw0 & Hpark & Hsem & Hloop); simpl in Hw0, Hpark, Hsem, Hloop.
  destruct p as [|l|l|l lifo|l|l|l delta| |old| |h]; try discriminate;
    unfold thread_step in Hstep; simpl in_Unlock in Hstep;
    cbv iota in Hstep;
    try (destruct l as [wst st aw it old]);
    unfold Lock_step, Unlock_step, CompareAndSwapInt32 in Hstep;
    simpl in Hstep, Hlp, Hb0, Hc0.
  - (* Idle *)
    destruct (Z.eqb_spec s 0) as [->|Hne]; injection Hstep as <-;
      (eapply (wired_tau _ _ _ _ _ _ _ _ Hwired Hi); [reflexivity| |]).
    + reflexivity.
    + intros Hfl. discriminate Hfl.
    + exact Hw0.
    + intros _ _. right. split; [reflexivity | discriminate].
  - (* LockRead *)
    injection Hstep as <-.
    eapply (wired_tau _ _ _ _ _ _ _ _ Hwired Hi); [reflexivity|exact Hw0|].
    intros _ _. right. split; [reflexivity | discriminate].
  - (* LockLoop *)
    pose proof (Lock_new_flags old st aw) as HN.
    pose proof (Lock_new_waiters old st aw) as HW.
    destruct ((Z.land old (Z.lor mutexLocked mutexStarving) =? mutexLocked)
              && canSpin e) eqn:Hspin.
    + (* spinning *)
      destruct (negb aw && (Z.land old mutexWoken =? 0)
                && negb (Z.shiftr old mutexWaiterShift =? 0)) eqn:Hclaim.
      * destruct (Z.eqb_spec s old) as [->|Hne]; injection Hstep as <-.
        -- eapply (wired_tau _ _ _ _ _ _ _ _ Hwired Hi); [reflexivity| |].
           ++ rewrite waiter_count_lor by (unfold mutexWoken; lia). exact Hw0.
           ++ rewrite flagless_woken by (autorewrite with flags; reflexivity).
              discriminate.
        -- eapply (wired_tau _ _ _ _ _ _ _ _ Hwired Hi);
             [reflexivity|exact Hw0|].
           intros _ _. right. split; [reflexivity | discriminate].
      * injection Hstep as <-.
        eapply (wired_tau _ _ _ _ _ _ _ _ Hwired Hi);
          [reflexivity|exact Hw0|].
        intros _ _. right. split; [reflexivity | discriminate].
    + destruct (Lock_new old st aw) as [new|msg].
      * destruct HN as (HL & HK & HS & _).
        destruct (Z.eqb_spec s old) as [->|Hne].
        -- assert (waiter_count old + 1 < 2 ^ 28) as Hroom.
           { specialize (Hhc (LockSem locals0 true)). revert Hc0 Hhc.
             unfold counted, headcount, tally_add; simpl.
             destruct (woken_bit old), aw; simpl; intros (_ & Hc & _) Hh; lia. }
           destruct (HW new Hi32 Hroom eq_refl) as [Hi32' Hwc].
           assert (0 <= waiter_count new) as Hw'
             by (rewrite Hwc; destruct (locked_bit old || starving_bit old);
                 lia).
           assert (flagless new = false) as Hfl.
           { destruct (starving_bit old) eqn:Hs.
             - apply flagless_starving. rewrite HS. reflexivity.
             - apply flagless_locked. rewrite HL. apply orb_true_r. }
           destruct (Z.land old (Z.lor mutexLocked mutexStarving) =? 0);
             injection Hstep as <-;
             (eapply (wired_tau _ _ _ _ _ _ _ _ Hwired Hi);
              [reflexivity|exact Hw'|rewrite Hfl; discriminate]).
        -- injection Hstep as <-.
           eapply (wired_tau _ _ _ _ _ _ _ _ Hwired Hi);
             [reflexivity|exact Hw0|].
           intros _ _. right. split; [reflexivity | discriminate].
      * injection Hstep as <-. discriminate Hf'.
  - (* LockSem *)
    unfold runtime_SemacquireMutex in Hstep; simpl in Hstep.
    injection Hstep as <-.
    assert (i < length ts)%nat as Hlt by (eapply lookup_lt_Some; eauto).
    destruct k as [|k]; (split; [exact Hw0|]); simpl.
    + split; [|split; [left; reflexivity|]].
      * intros j l Hj.
        assert (j = i \/ j ∈ q) as Hin.
        { destruct (decide (j = i)) as [->|Hne]; [left; reflexivity|].
          rewrite list_lookup_insert_ne in Hj by auto. right. eauto. }
        destruct lifo; [apply elem_of_cons | apply elem_of_app];
          destruct Hin as [->|Hin]; auto.
        right. apply list_elem_of_singleton. reflexivity.
      * intros Hfl Hnz. destruct (Hloop Hfl Hnz) as [j Hj]. exists j.
        rewrite list_lookup_insert_ne; [exact Hj|].
        intros ->. rewrite Hi in Hj. discriminate Hj.
    + destruct Hsem as [Hk|Hq0]; [discriminate|].
      split; [|split; [right; exact Hq0|]].
      * intros j l Hj. destruct (decide (j = i)) as [->|Hne].
        -- rewrite list_lookup_insert_eq in Hj by exact Hlt. discriminate Hj.
        -- rewrite list_lookup_insert_ne in Hj by auto. eauto.
      * intros Hfl Hnz. destruct (Hloop Hfl Hnz) as [j Hj]. exists j.
        rewrite list_lookup_insert_ne; [exact Hj|].
        intros ->. rewrite Hi in Hj. discriminate Hj.
  - (* LockWoke *)
    split_ifs Hstep; injection Hstep as <-; try discriminate Hf';
      (eapply (wired_tau _ _ _ _ _ _ _ _ Hwired Hi);
       [reflexivity|exact Hw0|]);
      intros _ _; right; (split; [reflexivity | discriminate]).
  - (* LockAdd *)
    injection Hstep as <-. subst delta.
    assert (locked_bit s = false /\ starving_bit s = true) as (Hl & Hs).
    { revert Hb0. clear. bits_of s; tally_crush. }
    destruct (flags_handoff_add s old st Hl Hs) as (F1 & _).
    assert (1 <= waiter_count s) as Hw1
      by (destruct Hc0 as (_ & _ & Hst); auto).
    destruct (word_handoff s old st Hi32 Hl Hs ltac:(lia)) as [_ W2].
    eapply (wired_tau _ _ _ _ _ _ _ _ Hwired Hi); [reflexivity| |].
    + rewrite W2. lia.
    + rewrite (flagless_locked _ F1). discriminate.
  - (* Held *)
    assert (locked_bit s = true) as Hl.
    { revert Hb0. clear. bits_of s; tally_crush. }
    destruct (Unlock_add s Hi32 Hl) as (E & L & K & S & W).
    cbv zeta in E. unfold Unlock_step in E.
    rewrite E in Hstep. injection Hstep as <-.
    eapply (wired_tau _ _ _ _ _ _ _ _ Hwired Hi).
    + destruct (starving_bit s); reflexivity.
    + rewrite W. exact Hw0.
    + intros Hfl _. left. destruct (starving_bit s) eqn:Hs; [|reflexivity].
      rewrite flagless_starving in Hfl by congruence. discriminate.
  - (* UnlockLoop *)
    destruct ((Z.shiftr old mutexWaiterShift =? 0)
              || negb (Z.land old (Z.lor (Z.lor mutexLocked mutexWoken)
                                     mutexStarving) =? 0)) eqn:Hret.
    + injection Hstep as <-.
      eapply (wired_tau _ _ _ _ _ _ _ _ Hwired Hi); [reflexivity|exact Hw0|].
      intros Hfl Hnz. right. split; [reflexivity|]. intros [= ->].
      autorewrite with flags in Hret. fold (waiter_count s) in Hret.
      unfold flagless in Hfl. rewrite Hfl in Hret. simpl in Hret.
      rewrite orb_false_r in Hret. apply Z.eqb_eq in Hret. contradiction.
    + destruct (Z.eqb_spec s old) as [->|Hne]; injection Hstep as <-.
      * apply orb_false_elim in Hret as [Hnz _].
        apply Z.eqb_neq in Hnz. fold (waiter_count old) in Hnz.
        destruct (word_sub_waiter old Hi32 ltac:(lia)) as [_ W2].
        eapply (wired_tau _ _ _ _ _ _ _ _ Hwired Hi); [reflexivity| |].
        -- rewrite waiter_count_lor by (unfold mutexWoken; lia).
           rewrite W2. lia.
        -- rewrite flagless_woken by (autorewrite with flags; reflexivity).
           discriminate.
      * eapply (wired_tau _ _ _ _ _ _ _ _ Hwired Hi);
          [reflexivity|exact Hw0|].
        intros _ _. right. split; [reflexivity|]. congruence.
  - (* UnlockRead *)
    injection Hstep as <-.
    eapply (wired_tau _ _ _ _ _ _ _ _ Hwired Hi); [reflexivity|exact Hw0|].
    intros _ _. left. reflexivity.
  - (* UnlockRelease *)
    unfold runtime_Semrelease in Hstep; simpl in Hstep.
    injection Hstep as <-.
    assert (i < length ts)%nat as Hlt by (eapply lookup_lt_Some; eauto).
    assert (queue_ok q (<[i := Idle]> ts)) as Hq'
      by (eapply queue_ok_insert; eauto).
    destruct q as [|j q0].
    + split; [exact Hw0|]. simpl. split; [|split; [right; reflexivity|]].
      * intros j l Hj. destruct (decide (j = i)) as [->|Hne].
        -- rewrite list_lookup_insert_eq in Hj by exact Hlt. discriminate Hj.
        -- rewrite list_lookup_insert_ne in Hj by auto. eauto.
      * intros Hfl Hnz. destruct (Hloop Hfl Hnz) as [j Hj]. exists j.
        rewrite list_lookup_insert_ne; [exact Hj|].
        intros ->. rewrite Hi in Hj. discriminate Hj.
    + destruct (queue_ok_pop _ _ _ Hq') as (l & Hj & Hq0).
      rewrite Hj. simpl ready.
      assert (j <> i) as Hji.
      { intros ->. rewrite list_lookup_insert_eq in Hj by exact Hlt.
        discriminate Hj. }
      assert (j < length (<[i := Idle]> ts))%nat as Hltj
        by (eapply lookup_lt_Some; eauto).
      destruct Hq as [Hnd _]. apply NoDup_cons in Hnd as [Hnj _].
      split; [exact Hw0|]. simpl.
      split; [|split; [destruct Hsem as [?|?]; [left; assumption|discriminate]|]].
      * intros m l' Hm. destruct (decide (m = j)) as [->|Hmj].
        -- rewrite list_lookup_insert_eq in Hm by exact Hltj. discriminate Hm.
        -- rewrite list_lookup_insert_ne in Hm by auto.
           destruct (decide (m = i)) as [->|Hmi].
           ++ rewrite list_lookup_insert_eq in Hm by exact Hlt.
              discriminate Hm.
           ++ rewrite list_lookup_insert_ne in Hm by auto.
              specialize (Hpark _ _ Hm). apply elem_of_cons in Hpark.
              destruct Hpark as [->|?]; [contradiction | assumption].
      * intros Hfl Hnz. destruct (Hloop Hfl Hnz) as [m Hm]. exists m.
        rewrite list_lookup_insert_ne in Hj by auto.
        rewrite !list_lookup_insert_ne; [exact Hm| |].
        -- intros ->. rewrite Hi in Hm. discriminate Hm.
        -- intros ->. rewrite Hj in Hm. discriminate Hm.
Qed.

Lemma wired_init n : wired (init n).
Proof.
  unfold wired, init; simpl. split; [reflexivity|].
  split; [|split; [left; reflexivity|]].
  - intros j l Hj. apply lookup_replicate in Hj as [Hj _]. discriminate Hj.
  - intros _ Hnz. exfalso. apply Hnz. reflexivity.
Qed.

Lemma reachable_wired n c :
  Z.of_nat n < 2 ^ 28 -> reachable n c -> wired c.
Proof.
  intros Hn. induction 1 as [|c i e c' Hr IH Hs]; [apply wired_init|].
  eapply wired_step; eauto. apply reachable_sound; assumption.
Qed.

(** Counting a role over all goroutines. *)
Section Measures.

Variable f : tally -> nat.
Hypothesis f_add : forall x y, f (tally_add x y) = (f x + f y)%nat.
Hypothesis f_zero : f tally0 = 0%nat.

Lemma census_pos ts :
  (0 < f (census ts))%nat ->
  exists j p, ts !! j = Some p /\ (0 < f (role p))%nat.
Proof.
  induction ts as [|a ts IH]; simpl.
  - rewrite f_zero. lia.
  - rewrite f_add. intros H.
    destruct (decide (0 < f (role a))%nat) as [Ha|Ha].
    + exists 0%nat, a. auto.
    + destruct IH as (j & p & Hj & Hp); [lia|].
      exists (S j), p. auto.
Qed.


Lemma census_one ts i p :
  ts !! i = Some p -> (f (role p) <= f (census ts))%nat.
Proof.
  intros Hi. destruct (census_split _ _ _ Hi) as (rest & E1 & _).
  rewrite E1, f_add. lia.
Qed.

End Measures.

Lemma carriers_add x y :
  carriers (tally_add x y) = (carriers x + carriers y)%nat.
Proof. unfold carriers, tally_add; simpl. lia. Qed.

Lemma holders_add x y :
  holders (tally_add x y) = (holders x + holders y)%nat.
Proof. reflexivity. Qed.

Lemma parkers_add x y :
  parkers (tally_add x y) = (parkers x + parkers y)%nat.
Proof. reflexivity. Qed.

Lemma carriers_role p : carriers (role p) = if waking p then 1%nat else 0%nat.
Proof.
  destruct p as [|l|l|l b|l|l|l d| |o| |[|]]; unfold carriers; simpl;
    try destruct (awoke l); reflexivity.
Qed.

Lemma holders_role p : (0 < holders (role p))%nat -> p = Held.
Proof.
  destruct p as [|l|l|l b|l|l|l d| |o| |[|]]; simpl;
    try destruct (awoke l); simpl; try lia. reflexivity.
Qed.

Lemma parkers_role p : parkers (role p) = if waiting p then 1%nat else 0%nat.
Proof.
  destruct p as [|l|l|l b|l|l|l d| |o| |[|]]; simpl;
    try destruct (awoke l); reflexivity.
Qed.

(** In every reachable configuration at most one wake-up is in flight. *)
Lemma balanced_carriers s k t :
  balanced s k t -> (carriers t + k <= 1)%nat.
Proof.
  unfold balanced, carriers. intros [_ H].
  destruct (woken_bit s); [|destruct (starving_bit s && negb (locked_bit s))];
    lia.
Qed.

(** Unless the word is free of flags, somebody holds the lock or carries a
    wake-up, or a wake-up is pending. *)
Lemma balanced_flagged s k t :
  balanced s k t -> flagless s = false ->
  (1 <= holders t + carriers t + k)%nat.
Proof.
  unfold balanced, carriers, flagless. intros [Hh H].
  destruct (locked_bit s); [lia|].
  destruct (woken_bit s); [lia|].
  destruct (starving_bit s); simpl in *; [lia | discriminate].
Qed.

Lemma step_moves i e c p :
  fatal c = None -> threads c !! i = Some p -> parked p = false ->
  exists c', step i e c = Some c'.
Proof.
  intros Hf Hi Hp. unfold step. rewrite Hf, Hi.
  destruct p; try discriminate Hp;
    destruct (thread_step e _ (state c)) as [[p' s'] a]; eauto.
Qed.

Lemma pledged_running s p : pledged s p = true -> parked p = false.
Proof. destruct p; try discriminate; reflexivity. Qed.

(** Every wake-up that has been granted has a goroutine to take it. *)
Lemma counted_takers s k t :
  balanced s k t -> counted s k t -> 0 <= waiter_count s ->
  (wakers t + handers t + k <= parkers t)%nat.
Proof.
  unfold balanced, counted. intros [_ Hb] (_ & Hc & Hs) Hw.
  destruct (woken_bit s); [lia|].
  destruct (starving_bit s) eqn:Hst; simpl in *.
  - specialize (Hs eq_refl). destruct (negb (locked_bit s)); lia.
  - lia.
Qed.

Lemma held_locked c i :
  owned c -> threads c !! i = Some Held -> locked_bit (state c) = true.
Proof.
  intros ((Hh & _) & _) Hi.
  pose proof (census_one holders holders_add eq_refl _ _ _ Hi) as Hle.
  simpl in Hle. destruct (locked_bit (state c)); [reflexivity | lia].
Qed.

Lemma step_switches_mode i e c c' :
  owned c -> step i e c = Some c' ->
  starving_bit (state c) = false -> starving_bit (state c') = true ->
  exists l,
    threads c !! i = Some (LockLoop l) /\ old l = state c
    /\ starving l = true /\ awoke l = true.
Proof.
  intros Hown Hstep. unfold step in Hstep.
  destruct c as [s k q ts f]; simpl in *.
  destruct f; [discriminate|].
  destruct (ts !! i) as [p|] eqn:Hi; [|discriminate].
  destruct (census_split _ _ _ Hi) as ([h0 a0 b0 w0 u0 d0 g0] & E0 & _).
  pose proof Hown as (Hb0 & Hloc & _); simpl in Hb0, Hloc. rewrite E0 in Hb0.
  clear E0.
  pose proof (Forall_lookup_1 _ _ _ _ Hloc Hi) as Hlp.
  destruct p as [|l|l|l lifo|l|l|l delta| |old| |h]; try discriminate;
    unfold thread_step in Hstep; simpl in_Unlock in Hstep;
    cbv iota in Hstep;
    try (destruct l as [wst st aw it old]);
    unfold Lock_step, Unlock_step, CompareAndSwapInt32 in Hstep;
    simpl in Hstep, Hb0, Hlp.
  - destruct (Z.eqb_spec s 0) as [->|Hne]; injection Hstep as <-; simpl;
      try congruence. discriminate.
  - injection Hstep as <-; simpl; congruence.
  - autorewrite with flags in Hstep.
    pose proof (Lock_new_flags old st aw) as HN.
    destruct (Lock_new old st aw) as [new|msg];
    [destruct HN as (? & ? & HS & ?) | destruct HN as (? & ? & ?)];
    destruct (canSpin e); simpl in Hstep;
    destruct (Z.eqb_spec s old) as [->|Hne]; simpl in Hstep;
    split_ifs Hstep; simpl in Hstep; injection Hstep as <-; simpl;
    autorewrite with flags; try congruence;
    intros Hs Hs'; rewrite Hs' in HS; rewrite Hs in HS; simpl in HS;
    symmetry in HS; apply andb_true_iff in HS as [-> _];
    (eexists; split; [reflexivity|]; simpl; auto).
  - unfold runtime_SemacquireMutex in Hstep; simpl in Hstep.
    injection Hstep as <-. destruct k; simpl; congruence.
  - autorewrite with flags in Hstep. split_ifs Hstep;
      injection Hstep as <-; simpl; congruence.
  - injection Hstep as <-; simpl. intros Hs _. exfalso. revert Hb0 Hs.
    clear. bits_of s; tally_crush.
  - assert (locked_bit s = true) as Hl.
    { revert Hb0. clear. bits_of s; tally_crush. }
    pose proof (starving_pred s Hl) as P.
    unfold AddInt32 in Hstep.
    split_ifs Hstep; injection Hstep as <-; simpl;
      autorewrite with flags; congruence.
  - split_ifs Hstep; injection Hstep as <-; simpl; autorewrite with flags;
      try congruence.
    destruct (Z.eqb_spec s old); congruence.
  - injection Hstep as <-; simpl; congruence.
  - unfold runtime_Semrelease in Hstep; simpl in Hstep.
    injection Hstep as <-. destruct q; simpl; congruence.
Qed.

(** A parked goroutine is backed by one that runs. *)
Lemma parked_is_backed n c i l :
  sound n c -> wired c -> threads c !! i = Some (LockParked l) ->
  sema c = 0%nat
  /\ exists j p, threads c !! j = Some p /\ pledged (state c) p = true.
Proof.
  intros Hsound (Hw0 & Hpark & Hsem & Hloop) Hi.
  pose proof Hsound as ((Hb & _) & Hcnt & _ & _ & Hf).
  pose proof (Hpark _ _ Hi) as Hin.
  assert (sema c = 0%nat) as Hk.
  { destruct Hsem as [?|Hq]; [assumption|]. rewrite Hq in Hin.
    inversion Hin. }
  split; [exact Hk|].
  destruct (flagless (state c)) eqn:Hfl.
  - (* only an Unlock at line 246 can be responsible *)
    assert (waiter_count (state c) <> 0) as Hnz.
    { pose proof (census_one parkers parkers_add eq_refl _ _ _ Hi) as Hone.
      simpl in Hone. unfold flagless in Hfl.
      destruct Hcnt as (_ & Hc & _).
      destruct (woken_bit (state c)); [|lia].
      rewrite andb_false_r in Hfl. discriminate Hfl. }
    destruct (Hloop eq_refl Hnz) as [j Hj]. exists j, (UnlockLoop (state c)).
    split; [exact Hj|]. simpl. apply Z.eqb_refl.
  - pose proof (balanced_flagged _ _ _ Hb Hfl) as Hone. rewrite Hk in Hone.
    destruct (census_pos (fun t => holders t + carriers t)%nat)
      with (ts := threads c) as (j & p & Hj & Hp).
    + intros x y. rewrite holders_add, carriers_add. lia.
    + reflexivity.
    + lia.
    + exists j, p. split; [exact Hj|]. rewrite carriers_role in Hp.
      destruct (waking p) eqn:Hwk.
      * destruct p; try discriminate Hwk; simpl; try reflexivity;
          exact Hwk.
      * assert (p = Held) as -> by (apply holders_role; lia). reflexivity.
Qed.


(** *** Throws, waiters and wake-ups *)

(** Property X1 (no throw).  With fewer than 2^28 goroutines, each calling
    [Unlock] only after its own [Lock] has returned, nothing ever throws:
    no reachable configuration is fatal, no step leads to one, and no
    goroutine is at a point whose next step is the throw of line 157, of
    line 188 or of line 231. *)
Theorem Lock_Unlock_never_throw n c :
  Z.of_nat n < 2 ^ 28 -> reachable n c ->
  fatal c = None
  /\ (forall i e c', step i e c = Some c' -> fatal c' = None)
  /\ (forall i e p msg,
        threads c !! i = Some p ->
        (thread_step e p (state c)).2 <> Throw msg).
Proof.
  intros Hn Hr.
  assert (forall i e c', step i e c = Some c' -> fatal c' = None) as Hnext.
  { intros i e c' Hs. eapply reachable_not_fatal; [exact Hn|].
    eapply reach_step; eauto. }
  pose proof (reachable_not_fatal _ _ Hn Hr) as Hf.
  split; [exact Hf|]. split; [exact Hnext|].
  intros i e p msg Hi Ha.
  destruct (decide (parked p = true)) as [Hp|Hp].
  { destruct p; try discriminate Hp. discriminate Ha. }
  apply not_true_is_false in Hp.
  specialize (Hnext i e). unfold step in Hnext. rewrite Hf, Hi in Hnext.
  destruct (thread_step e p (state c)) as [[p' s'] a]. simpl in Ha. subst a.
  destruct p; try discriminate Hp;
    specialize (Hnext _ eq_refl); discriminate Hnext.
Qed.

Lemma Lock_Unlock_never_throw_witness :
  fatal contended = None
  /\ (forall i e c', step i e contended = Some c' -> fatal c' = None)
  /\ (forall i e p msg,
        threads contended !! i = Some p ->
        (thread_step e p (state contended)).2 <> Throw msg).
Proof.
  apply (Lock_Unlock_never_throw 3 contended);
    [vm_compute; reflexivity | exact contended_reachable].
Defined.

(** Property X2 (the waiter field counts the waiters).  With fewer than
    2^28 goroutines the word is never negative and its waiter field lies
    between zero and the number of goroutines.  The field differs by at most
    one from the number of goroutines that are parked or about to park, and
    equals it whenever no wake-up is in flight: none pending in the
    semaphore and none carried by a goroutine. *)
Theorem waiter_field_counts n c :
  Z.of_nat n < 2 ^ 28 -> reachable n c ->
  0 <= waiter_count (state c) <= Z.of_nat n
  /\ 0 <= state c < 8 * (Z.of_nat n + 1)
  /\ Z.of_nat (parkers (census (threads c))) - 1
     <= waiter_count (state c)
     <= Z.of_nat (parkers (census (threads c))) + 1
  /\ (sema c = 0%nat -> carriers (census (threads c)) = 0%nat ->
      waiter_count (state c) = Z.of_nat (parkers (census (threads c)))).
Proof.
  intros Hn Hr.
  pose proof (reachable_sound _ _ Hn Hr) as Hsound.
  pose proof (reachable_wired _ _ Hn Hr) as (Hw0 & _).
  destruct (sound_waiters _ _ Hsound) as [Hi32 Hbound].
  pose proof Hsound as ((Hb & _) & Hcnt & _).
  pose proof (balanced_carriers _ _ _ Hb) as Hone.
  split; [lia|]. split.
  { pose proof (word_split (state c)).
    pose proof (Z.mod_pos_bound (state c) 8 ltac:(lia)). lia. }
  destruct Hcnt as (_ & Hc & _). unfold carriers in *.
  split; [|intros Hk Hz]; destruct (woken_bit (state c)); lia.
Qed.

Lemma waiter_field_counts_witness :
  0 <= waiter_count (state contended) <= 3
  /\ 0 <= state contended < 8 * (3 + 1)
  /\ Z.of_nat (parkers (census (threads contended))) - 1
     <= waiter_count (state contended)
     <= Z.of_nat (parkers (census (threads contended))) + 1
  /\ (sema contended = 0%nat ->
      carriers (census (threads contended)) = 0%nat ->
      waiter_count (state contended)
      = Z.of_nat (parkers (census (threads contended)))).
Proof.
  apply (waiter_field_counts 3 contended);
    [vm_compute; reflexivity | exact contended_reachable].
Defined.

(** Property X3 (no lost wake-up).  With fewer than 2^28 goroutines, while
    a goroutine is parked inside [Lock] it is in the queue of the semaphore,
    no wake-up is pending, and some goroutine that is able to step has the
    lock or stands for the waiters: the holder, the carrier of a wake-up, or
    an [Unlock] at line 246 whose copy of the word is current.  So the
    goroutines never all go back to idle and leave one parked. *)
Theorem no_lost_wakeup n c i l :
  Z.of_nat n < 2 ^ 28 -> reachable n c ->
  threads c !! i = Some (LockParked l) ->
  i ∈ semq c /\ sema c = 0%nat
  /\ exists j p,
       threads c !! j = Some p /\ pledged (state c) p = true
       /\ forall e, exists c', step j e c = Some c'.
Proof.
  intros Hn Hr Hi.
  pose proof (reachable_sound _ _ Hn Hr) as Hsound.
  pose proof (reachable_wired _ _ Hn Hr) as Hwired.
  pose proof Hsound as (_ & _ & _ & _ & Hf).
  pose proof Hwired as (_ & Hpark & _).
  destruct (parked_is_backed _ _ _ _ Hsound Hwired Hi)
    as (Hk & j & p & Hj & Hp).
  split; [exact (Hpark _ _ Hi)|]. split; [exact Hk|].
  exists j, p. split; [exact Hj|]. split; [exact Hp|].
  intros e. eapply step_moves; eauto. eapply pledged_running; eauto.
Qed.

Lemma no_lost_wakeup_witness :
  1%nat ∈ semq contended /\ sema contended = 0%nat
  /\ exists j p,
       threads contended !! j = Some p /\ pledged (state contended) p = true
       /\ forall e, exists c', step j e contended = Some c'.
Proof.
  apply (no_lost_wakeup 3 contended 1 (Locals 1 false false 0 1));
    [vm_compute; reflexivity | exact contended_reachable | reflexivity].
Defined.



(** Property X5 (every wake-up has a taker).  With fewer than 2^28
    goroutines, whenever an [Unlock] is about to call [runtime_Semrelease],
    some goroutine is parked or about to park; and a wake-up stays pending
    in the semaphore only while nobody is parked and some goroutine is about
    to call [runtime_SemacquireMutex], which will then not block. *)
Theorem wakeup_has_taker n c :
  Z.of_nat n < 2 ^ 28 -> reachable n c ->
  (forall i h,
     threads c !! i = Some (UnlockRelease h) ->
     exists j p, threads c !! j = Some p /\ waiting p = true)
  /\ (sema c <> 0%nat ->
      semq c = []
      /\ exists j l lifo, threads c !! j = Some (LockSem l lifo)).
Proof.
  intros Hn Hr.
  pose proof (reachable_sound _ _ Hn Hr) as ((Hb & _) & Hcnt & _).
  pose proof (reachable_wired _ _ Hn Hr) as (Hw0 & Hpark & Hsem & _).
  pose proof (counted_takers _ _ _ Hb Hcnt Hw0) as Htake.
  assert ((0 < parkers (census (threads c)))%nat ->
          exists j p, threads c !! j = Some p /\ waiting p = true) as Hex.
  { intros Hpos.
    destruct (census_pos parkers parkers_add eq_refl _ Hpos)
      as (j & p & Hj & Hp).
    exists j, p. split; [exact Hj|]. rewrite parkers_role in Hp.
    destruct (waiting p); [reflexivity | lia]. }
  split.
  - intros i h Hi. apply Hex.
    pose proof (census_one (fun t => wakers t + handers t)%nat) as Hle.
    specialize (Hle ltac:(intros; simpl; lia) eq_refl _ _ _ Hi). destruct h; simpl in Hle; lia.
  - intros Hk. destruct Hsem as [?|Hq]; [contradiction|].
    split; [exact Hq|].
    destruct Hex as (j & p & Hj & Hp); [lia|].
    destruct p as [|l0|l0|l0 lifo|l0| | | | | |]; try discriminate Hp.
    + eauto.
    + specialize (Hpark _ _ Hj). rewrite Hq in Hpark. inversion Hpark.
Qed.

Lemma wakeup_has_taker_witness :
  (forall i h,
     threads handing_off !! i = Some (UnlockRelease h) ->
     exists j p, threads handing_off !! j = Some p /\ waiting p = true)
  /\ (sema handing_off <> 0%nat ->
      semq handing_off = []
      /\ exists j l lifo, threads handing_off !! j = Some (LockSem l lifo)).
Proof.
  apply (wakeup_has_taker 3 handing_off); [vm_compute; reflexivity|].
  apply (run_reachable 3 (take 15 handoff_schedule) (init 3));
    [apply reach_init | reflexivity].
Defined.

(** *** Starvation mode and the flags *)

(** Property X6 (a hand-off cannot be stolen).  For any number of
    goroutines, from a reachable configuration whose word is starving and
    unlocked, the only step that makes a goroutine the holder is the add of
    line 199 by the waiter that was handed the lock; every other step of
    every goroutine leaves the word starving and unlocked and nobody holding
    the lock. *)
Theorem handoff_not_stolen n c j e c' :
  reachable n c ->
  starving_bit (state c) = true -> locked_bit (state c) = false ->
  step j e c = Some c' ->
  (exists l delta,
     threads c !! j = Some (LockAdd l delta)
     /\ threads c' !! j = Some Held /\ locked_bit (state c') = true)
  \/ (starving_bit (state c') = true /\ locked_bit (state c') = false
      /\ forall m, threads c' !! m <> Some Held).
Proof.
  intros Hr Hs Hl Hstep.
  pose proof (reachable_owned _ _ Hr) as Hown.
  assert (owned c') as Hown'
    by (eapply owned_step; eauto).
  assert (starving_bit (state c') = true -> locked_bit (state c') = false ->
          starving_bit (state c') = true /\ locked_bit (state c') = false
          /\ forall m, threads c' !! m <> Some Held) as Hkeep.
  { intros Hs' Hl'. split; [exact Hs'|]. split; [exact Hl'|].
    intros m Hm. pose proof (held_locked _ _ Hown' Hm). congruence. }
  unfold step in Hstep.
  destruct c as [s k q ts f]; simpl in *.
  destruct f; [discriminate|].
  destruct (ts !! j) as [p|] eqn:Hj; [|discriminate].
  assert (j < length ts)%nat as Hlt by (eapply lookup_lt_Some; eauto).
  destruct p as [|l|l|l lifo|l|l|l delta| |old| |h]; try discriminate;
    unfold thread_step in Hstep; simpl in_Unlock in Hstep;
    cbv iota in Hstep;
    try (destruct l as [wst st aw it old]);
    unfold Lock_step, Unlock_step, CompareAndSwapInt32 in Hstep;
    simpl in Hstep.
  - (* Idle: the fast path fails on a starving word *)
    destruct (Z.eqb_spec s 0) as [->|Hne]; [discriminate Hs|].
    injection Hstep as <-. right. apply Hkeep; assumption.
  - injection Hstep as <-. right. apply Hkeep; assumption.
  - (* LockLoop *)
    right.
    pose proof (Lock_new_flags old st aw) as HN.
    destruct ((Z.land old (Z.lor mutexLocked mutexStarving) =? mutexLocked)
              && canSpin e) eqn:Hspin.
    + autorewrite with flags in Hspin.
      destruct (negb aw && (Z.land old mutexWoken =? 0)
                && negb (Z.shiftr old mutexWaiterShift =? 0)).
      * destruct (Z.eqb_spec s old) as [->|Hne]; injection Hstep as <-.
        -- rewrite Hl in Hspin. discriminate Hspin.
        -- apply Hkeep; assumption.
      * injection Hstep as <-. apply Hkeep; assumption.
    + destruct (Lock_new old st aw) as [new|msg].
      * destruct HN as (HL & _ & HS & _).
        destruct (Z.eqb_spec s old) as [->|Hne].
        -- assert (starving_bit new = true /\ locked_bit new = false)
             as [Hs' Hl'].
           { rewrite HS, HL, Hs, Hl. auto. }
           destruct (Z.land old (Z.lor mutexLocked mutexStarving) =? 0);
             injection Hstep as <-; apply Hkeep; assumption.
        -- injection Hstep as <-. apply Hkeep; assumption.
      * injection Hstep as <-. apply Hkeep; assumption.
  - (* LockSem *)
    unfold runtime_SemacquireMutex in Hstep; simpl in Hstep.
    injection Hstep as <-. right.
    destruct k; apply Hkeep; assumption.
  - (* LockWoke *)
    right. split_ifs Hstep; injection Hstep as <-; apply Hkeep; assumption.
  - (* LockAdd: the repair of the woken waiter *)
    injection Hstep as <-. left. exists (Locals wst st aw it old), delta.
    split; [reflexivity|]. simpl.
    assert (<[j := Held]> ts !! j = Some Held) as Hj'
      by (apply list_lookup_insert_eq; exact Hlt).
    split; [exact Hj'|]. apply (held_locked _ _ Hown' Hj').
  - (* Held: nobody holds an unlocked mutex *)
    pose proof (held_locked _ _ Hown Hj) as Hl'. simpl in Hl'. congruence.
  - (* UnlockLoop *)
    right. autorewrite with flags in Hstep. rewrite ?Hs, ?Hl in Hstep.
    destruct ((Z.shiftr old mutexWaiterShift =? 0)
              || negb (negb (locked_bit old) && negb (woken_bit old)
                       && negb (starving_bit old))) eqn:Hret.
    + injection Hstep as <-. apply Hkeep; assumption.
    + destruct (Z.eqb_spec s old) as [->|Hne]; injection Hstep as <-.
      * rewrite Hs, andb_false_r, orb_true_r in Hret. discriminate Hret.
      * apply Hkeep; assumption.
  - injection Hstep as <-. right. apply Hkeep; assumption.
  - (* UnlockRelease *)
    unfold runtime_Semrelease in Hstep; simpl in Hstep.
    injection Hstep as <-. right.
    destruct q; apply Hkeep; assumption.
Qed.

Lemma handoff_not_stolen_witness :
  (exists l delta,
     threads repairing !! 1%nat = Some (LockAdd l delta)
     /\ threads repaired !! 1%nat = Some Held
     /\ locked_bit (state repaired) = true)
  \/ (starving_bit (state repaired) = true
      /\ locked_bit (state repaired) = false
      /\ forall m, threads repaired !! m <> Some Held).
Proof.
  apply (handoff_not_stolen 3 repairing 1 prompt repaired);
    [exact repairing_reachable | reflexivity | reflexivity | reflexivity].
Defined.



(** Property X8 (starvation mode needs a long wait).  A call of [Lock]
    starts with [starving] clear.  The only step that sets it is the return
    from the semaphore, and only when the clock has advanced by more than
    [starvationThresholdNs] since [waitStartTime]; a wait of exactly the
    threshold is not enough.  In a reachable configuration, for any number
    of goroutines, the only step that turns the starving bit of the word on
    is the CAS of line 163 by a goroutine that has [starving] and [awoke]
    set and whose copy of the word is current. *)
Theorem starvation_needs_a_long_wait :
  (forall e s,
     (Lock_step e Idle s).1.1 = Held
     \/ (Lock_step e Idle s).1.1 = LockRead locals0)
  /\ starving locals0 = false
  /\ (forall e p s l l',
        locals_of p = Some l -> locals_of (Lock_step e p s).1.1 = Some l' ->
        starving l' = true ->
        starving l = true
        \/ (p = LockWoke l
            /\ starvationThresholdNs
               < wrap64 (nanotime e - waitStartTime l)))
  /\ (forall e l s l',
        locals_of (Lock_step e (LockWoke l) s).1.1 = Some l' ->
        wrap64 (nanotime e - waitStartTime l) <= starvationThresholdNs ->
        starving l' = starving l)
  /\ (forall n c i e c',
        reachable n c -> step i e c = Some c' ->
        starving_bit (state c) = false -> starving_bit (state c') = true ->
        exists l,
          threads c !! i = Some (LockLoop l) /\ old l = state c
          /\ starving l = true /\ awoke l = true).
Proof.
  split; [|split; [reflexivity|split; [|split]]].
  - intros e s. unfold Lock_step, CompareAndSwapInt32.
    destruct (s =? 0); auto.
  - intros e p s l l' Hl Hl' Hst.
    destruct p as [|l0|l0|l0 lifo|l0|l0|l0 delta| |old| |h];
      try discriminate Hl; injection Hl as ->;
      unfold Lock_step, CompareAndSwapInt32 in Hl'; simpl in Hl'.
    + injection Hl' as <-. auto.
    + repeat match type of Hl' with
        | context [if ?b then _ else _] => destruct b
        | context [match ?b with inl _ => _ | inr _ => _ end] => destruct b
        end; simpl in Hl'; try discriminate Hl'; injection Hl' as <-; auto.
    + injection Hl' as <-. auto.
    + injection Hl' as <-. auto.
    + destruct (wrap64 (nanotime e - waitStartTime l) >? starvationThresholdNs)
        eqn:Hlate.
      * right. split; [reflexivity|]. apply Z.gtb_lt in Hlate. lia.
      * left. rewrite orb_false_r in Hl'.
        repeat match type of Hl' with
        | context [if ?b then _ else _] => destruct b
        end; simpl in Hl'; injection Hl' as <-; auto.
    + discriminate Hl'.
  - intros e l s l' Hl' Hle. unfold Lock_step in Hl'.
    assert ((wrap64 (nanotime e - waitStartTime l) >? starvationThresholdNs)
            = false) as Hnot.
    { destruct (Z.gtb_spec (wrap64 (nanotime e - waitStartTime l))
                  starvationThresholdNs); [lia | reflexivity]. }
    rewrite Hnot, orb_false_r in Hl'.
    repeat match type of Hl' with
    | context [if ?b then _ else _] => destruct b
    end; simpl in Hl'; injection Hl' as <-; reflexivity.
  - intros n c i e c' Hr. apply step_switches_mode.
    eapply reachable_owned; eauto.
Qed.

Lemma starvation_needs_a_long_wait_witness :
  (starving (Locals 1 false false 0 1) = true
   \/ (LockWoke (Locals 1 false false 0 1)
       = LockWoke (Locals 1 false false 0 1)
       /\ starvationThresholdNs < wrap64 (nanotime late - 1)))
  /\ (exists l,
        threads passed_over !! 1%nat = Some (LockLoop l)
        /\ old l = state passed_over
        /\ starving l = true /\ awoke l = true).
Proof.
  destruct starvation_needs_a_long_wait as (_ & _ & Hset & _ & Hmode).
  split.
  - apply (Hset late (LockWoke (Locals 1 false false 0 1)) 3
             (Locals 1 false false 0 1) (Locals 1 true true 0 3));
      reflexivity.
  - apply (Hmode 3%nat passed_over 1%nat prompt switched);
      [|reflexivity..].
    apply (run_reachable 3 passed_over_schedule (init 3));
      [apply reach_init | reflexivity].
Defined.

(** *** A mutex at rest *)

(** Property X9 (an uncontended [Lock] and [Unlock] leave no trace).  On a
    word that is zero, a goroutine that is idle takes the lock with the CAS
    of line 93, gives it back with the add of line 228 and returns at line
    247: three steps, none of which touches the semaphore, after which the
    configuration is exactly the one it started from. *)
Theorem Lock_Unlock_round_trip i e1 e2 e3 c :
  fatal c = None -> threads c !! i = Some Idle -> state c = 0 ->
  exists c1 c2,
    step i e1 c = Some c1 /\ threads c1 !! i = Some Held
    /\ state c1 = mutexLocked
    /\ step i e2 c1 = Some c2 /\ state c2 = 0
    /\ step i e3 c2 = Some c
    /\ sema c1 = sema c /\ semq c1 = semq c
    /\ sema c2 = sema c /\ semq c2 = semq c.
Proof.
  intros Hf Hi Hs. destruct c as [s k q ts f]; simpl in *. subst s f.
  assert (i < length ts)%nat as Hlt by (eapply lookup_lt_Some; eauto).
  exists (Config 1 k q (<[i := Held]> ts) None),
         (Config 0 k q (<[i := UnlockLoop 0]> ts) None).
  split; [unfold step; simpl; rewrite Hi; reflexivity|].
  split; [simpl; apply list_lookup_insert_eq; exact Hlt|].
  split; [reflexivity|].
  split.
  { unfold step; simpl. rewrite list_lookup_insert_eq by exact Hlt.
    simpl. rewrite list_insert_insert_eq. reflexivity. }
  split; [reflexivity|]. split; [|auto].
  unfold step; simpl. rewrite list_lookup_insert_eq by exact Hlt.
  simpl. rewrite list_insert_insert_eq, list_insert_id by exact Hi.
  reflexivity.
Qed.

Lemma Lock_Unlock_round_trip_witness :
  exists c1 c2,
    step 0 prompt (init 2) = Some c1 /\ threads c1 !! 0%nat = Some Held
    /\ state c1 = mutexLocked
    /\ step 0 prompt c1 = Some c2 /\ state c2 = 0
    /\ step 0 prompt c2 = Some (init 2)
    /\ sema c1 = sema (init 2) /\ semq c1 = semq (init 2)
    /\ sema c2 = sema (init 2) /\ semq c2 = semq (init 2).
Proof.
  apply (Lock_Unlock_round_trip 0 prompt prompt prompt (init 2));
    reflexivity.
Defined.

Lemma census_quiet ts :
  (forall i p, ts !! i = Some p -> p = Idle \/ p = Held) ->
  carriers (census ts) = 0%nat /\ parkers (census ts) = 0%nat.
Proof.
  induction ts as [|a ts IH]; intros H; simpl; [auto|].
  destruct IH as [IH1 IH2].
  { intros i p Hi. apply (H (S i)). exact Hi. }
  rewrite carriers_add, IH1, IH2.
  destruct (H 0%nat a eq_refl) as [->| ->]; auto.
Qed.

(** Property X10 (a quiescent mutex is clean).  With fewer than 2^28
    goroutines, in a reachable configuration in which every goroutine is
    idle or holds the lock, the word is zero when nobody holds the lock and
    [mutexLocked] when somebody does: no waiter count and no woken or
    starving bit is left behind, no wake-up is pending and nobody is
    queued. *)
Theorem quiescent_mutex n c :
  Z.of_nat n < 2 ^ 28 -> reachable n c ->
  (forall i p, threads c !! i = Some p -> p = Idle \/ p = Held) ->
  state c = (if locked_bit (state c) then mutexLocked else 0)
  /\ sema c = 0%nat /\ semq c = []
  /\ (locked_bit (state c) = true <-> exists i, threads c !! i = Some Held).
Proof.
  intros Hn Hr Hq.
  pose proof (reachable_sound _ _ Hn Hr) as ((Hb & _ & Hqueue) & Hcnt & _).
  pose proof (reachable_wired _ _ Hn Hr) as (Hw0 & _).
  destruct (census_quiet _ Hq) as [Hcar Hpar].
  assert (semq c = []) as Hempty.
  { destruct (semq c) as [|j q] eqn:E; [reflexivity|].
    destruct Hqueue as [_ Hin]. destruct (Hin j) as [l Hl]; [left|].
    destruct (Hq _ _ Hl); discriminate. }
  assert (sema c = 0%nat) as Hk.
  { pose proof (counted_takers _ _ _ Hb Hcnt Hw0). lia. }
  unfold carriers in Hcar.
  destruct Hb as [Hh Hb]. destruct Hcnt as (_ & Hc & _).
  rewrite Hk in Hb, Hc. rewrite ?Hpar in Hb, Hc.
  assert (woken_bit (state c) = false) as Hw.
  { destruct (woken_bit (state c)); [lia | reflexivity]. }
  rewrite Hw in Hb, Hc.
  assert (starving_bit (state c) && negb (locked_bit (state c)) = false)
    as Hs.
  { destruct (starving_bit (state c) && negb (locked_bit (state c)));
      [lia | reflexivity]. }
  split; [|split; [exact Hk|split; [exact Hempty|]]].
  - pose proof (word_split (state c)) as Hsplit.
    pose proof (flags_value (state c)) as Hfl.
    rewrite Hw in Hfl.
    assert (waiter_count (state c) = 0) as Hz by lia.
    assert (starving_bit (state c) = false) as Hst.
    { eapply counted_starving; [|exact Hz].
      apply (reachable_sound _ _ Hn Hr). }
    rewrite Hst in Hfl. unfold mutexLocked.
    destruct (locked_bit (state c)); lia.
  - split.
    + intros Hl. rewrite Hl in Hh.
      destruct (census_pos holders holders_add eq_refl (threads c))
        as (i & p & Hi & Hp); [lia|].
      exists i. rewrite Hi. f_equal. apply holders_role. exact Hp.
    + intros [i Hi]. eapply held_locked; [|exact Hi].
      eapply reachable_owned; eauto.
Qed.

Lemma quiescent_mutex_witness :
  state repaired = (if locked_bit (state repaired) then mutexLocked else 0)
  /\ sema repaired = 0%nat /\ semq repaired = []
  /\ (locked_bit (state repaired) = true
      <-> exists i, threads repaired !! i = Some Held).
Proof.
  apply (quiescent_mutex 3 repaired); [vm_compute; reflexivity | |].
  - apply (reach_step 3 repairing 1 prompt);
      [exact repairing_reachable | reflexivity].
  - intros [|[|[|i]]] p; simpl; intros [= <-]; auto.
Defined.

(** Property X11 (the capacity of the waiter field).  The waiter field is
    the upper 29 bits of an [int32]: on a word that is locked or starving
    and already counts 2^28 - 1 waiters, the candidate of lines 135-160
    wraps around: it is negative and its waiter field reads -2^28 instead of
    2^28, while the locked bit is computed as usual. *)
Theorem waiter_field_wraps old st :
  int32 old -> waiter_count old = 2 ^ 28 - 1 ->
  locked_bit old || starving_bit old = true ->
  exists new,
    Lock_new old st false = inl new
    /\ new < 0 /\ waiter_count new = - 2 ^ 28
    /\ locked_bit new = locked_bit old || negb (starving_bit old)
    /\ int32 new.
Proof.
  intros Hi Hw Hflag.
  pose proof (Lock_new_flags old st false) as HN.
  unfold Lock_new in *. autorewrite with flags in *.
  set (n1 := if negb (starving_bit old) then Z.lor old mutexLocked else old)
    in *.
  assert (int32 n1 /\ waiter_count n1 = 2 ^ 28 - 1) as [I1 W1].
  { subst n1. destruct (negb (starving_bit old)); [|auto].
    split; [apply int32_lor; [unfold mutexLocked; lia | exact Hi]|].
    rewrite waiter_count_lor by (unfold mutexLocked; lia). exact Hw. }
  assert (negb (negb (locked_bit old) && negb (starving_bit old)) = true)
    as Hq by (destruct (locked_bit old), (starving_bit old);
              try reflexivity; discriminate Hflag).
  rewrite Hq in *.
  set (n2 := wrap32 (n1 + Z.shiftl 1 mutexWaiterShift)) in *.
  assert (n2 < 0 /\ waiter_count n2 = - 2 ^ 28 /\ int32 n2) as (N2 & W2 & I2).
  { subst n2. change (Z.shiftl 1 mutexWaiterShift) with 8.
    pose proof (wrap32_range (n1 + 8)) as Hr.
    split; [|split; [|exact Hr]]; revert I1 W1; clear; intros; word_arith. }
  set (n3 := if st && negb (negb (locked_bit old))
             then Z.lor n2 mutexStarving else n2) in *.
  assert (n3 < 0 /\ waiter_count n3 = - 2 ^ 28 /\ int32 n3) as (N3 & W3 & I3).
  { subst n3. destruct (st && negb (negb (locked_bit old))); [|auto].
    split; [|split].
    - apply Z.lor_neg. left. exact N2.
    - rewrite waiter_count_lor by (unfold mutexStarving; lia). exact W2.
    - apply int32_lor; [unfold mutexStarving; lia | exact I2]. }
  exists n3. destruct HN as (HL & _). auto.
Qed.

Lemma waiter_field_wraps_witness :
  exists new,
    Lock_new (2 ^ 31 - 7) false false = inl new
    /\ new < 0 /\ waiter_count new = - 2 ^ 28
    /\ locked_bit new
       = locked_bit (2 ^ 31 - 7) || negb (starving_bit (2 ^ 31 - 7))
    /\ int32 new.
Proof.
  apply (waiter_field_wraps (2 ^ 31 - 7) false);
    [unfold int32; lia | reflexivity | reflexivity].
Defined.

(** *** Arriving and coming back *)

Lemma step_park i e c l lifo :
  fatal c = None -> threads c !! i = Some (LockSem l lifo) -> sema c = 0%nat ->
  step i e c
  = Some (Config (state c) 0 (if lifo then i :: semq c else semq c ++ [i])
            (<[i := LockParked l]> (threads c)) None).
Proof.
  intros Hf Hi Hk. unfold step. rewrite Hf, Hi. simpl.
  unfold runtime_SemacquireMutex. simpl. rewrite Hk. reflexivity.
Qed.

(** The slow path up to the CAS of line 163, for a goroutine that does not
    spin. *)
Lemma Lock_queues e l s new :
  canSpin e = false -> old l = s ->
  locked_bit s || starving_bit s = true ->
  Lock_new s (starving l) (awoke l) = inl new ->
  Lock_step e (LockLoop l) s
  = (LockSem (Locals (if waitStartTime l =? 0 then nanotime e
                      else waitStartTime l)
                (starving l) (awoke l) (iter l) s)
       (negb (waitStartTime l =? 0)), new, Tau).
Proof.
  intros Hspin Ho Hflag Hnew. destruct l as [wst st aw it o]; simpl in *.
  subst o. unfold Lock_step; simpl. rewrite Hspin, andb_false_r, Hnew.
  unfold CompareAndSwapInt32. rewrite Z.eqb_refl.
  autorewrite with flags.
  destruct (locked_bit s), (starving_bit s); try discriminate Hflag;
    reflexivity.
Qed.


Lemma Lock_new_free s st aw :
  locked_bit s = false -> starving_bit s = false ->
  (aw = true -> woken_bit s = true) ->
  Lock_new s st aw
  = inl (if aw then Z.ldiff (Z.lor s mutexLocked) mutexWoken
         else Z.lor s mutexLocked).
Proof.
  intros Hl Hs Hw. unfold Lock_new. autorewrite with flags.
  rewrite Hl, Hs, andb_false_r. simpl. destruct aw; [|reflexivity].
  autorewrite with flags. rewrite (Hw eq_refl). reflexivity.
Qed.

Lemma Lock_takes_free e l s new :
  old l = s -> locked_bit s = false -> starving_bit s = false ->
  Lock_new s (starving l) (awoke l) = inl new ->
  Lock_step e (LockLoop l) s = (Held, new, Tau).
Proof.
  intros Ho Hl Hs Hnew. destruct l as [wst st aw it o]; simpl in *.
  subst o. unfold Lock_step; simpl. autorewrite with flags.
  rewrite Hl, Hs. simpl. rewrite Hnew.
  unfold CompareAndSwapInt32. rewrite Z.eqb_refl. reflexivity.
Qed.




(** Property X13 (a woken waiter).  A goroutine that comes back from the
    semaphore in normal mode, the woken bit set for it, and is left alone:
    if the word is unlocked its CAS sets the locked bit and clears the woken
    bit, and it holds the lock after two steps; if the word is locked and
    it does not spin, its CAS adds one waiter, clears the woken bit and sets
    the starving bit exactly when it has been waiting for more than
    [starvationThresholdNs], and it parks again at the front of the queue,
    provided its [waitStartTime] is not zero. *)
Theorem woken_waiter i e1 e2 e3 l c :
  fatal c = None -> threads c !! i = Some (LockWoke l) ->
  starving_bit (state c) = false -> woken_bit (state c) = true ->
  (locked_bit (state c) = false ->
   run [(i, e1); (i, e2)] c
   = Some (Config (Z.ldiff (Z.lor (state c) mutexLocked) mutexWoken)
             (sema c) (semq c) (<[i := Held]> (threads c)) None))
  /\ (locked_bit (state c) = true -> canSpin e2 = false ->
      waitStartTime l <> 0 -> int32 (state c) ->
      waiter_count (state c) + 1 < 2 ^ 28 -> sema c = 0%nat ->
      let st :=
        starving l
        || (wrap64 (nanotime e1 - waitStartTime l)
            >? starvationThresholdNs) in
      exists new,
        run [(i, e1); (i, e2); (i, e3)] c
        = Some (Config new 0 (i :: semq c)
                  (<[i := LockParked
                            (Locals (waitStartTime l) st true 0 (state c))]>
                     (threads c)) None)
        /\ locked_bit new = true /\ woken_bit new = false
        /\ starving_bit new = st
        /\ waiter_count new = waiter_count (state c) + 1).
Proof.
  intros Hf Hi Hs Hw.
  assert (i < length (threads c))%nat as Hlt by (eapply lookup_lt_Some; eauto).
  destruct c as [s k q ts f]; simpl in Hf, Hi, Hs, Hw, Hlt. subst f.
  unfold state, sema, semq, threads.
  set (st := starving l
             || (wrap64 (nanotime e1 - waitStartTime l)
                 >? starvationThresholdNs)).
  assert (step i e1 (Config s k q ts None)
          = Some (Config s k q
                    (<[i := LockLoop (Locals (waitStartTime l) st true 0 s)]>
                       ts) None)) as Hstep1.
  { apply (step_tau i e1 (Config s k q ts None) (LockWoke l));
      [reflexivity|exact Hi|reflexivity|].
    unfold thread_step, Lock_step. simpl. autorewrite with flags.
    rewrite Hs. reflexivity. }
  split.
  - intros Hl. simpl. rewrite Hstep1.
    erewrite step_tau;
      [|reflexivity
       |simpl; apply list_lookup_insert_eq; exact Hlt
       |reflexivity
       |simpl; apply Lock_takes_free;
        [reflexivity|exact Hl|exact Hs
        |apply (Lock_new_free s st true Hl Hs); intros _; exact Hw]].
    simpl. rewrite list_insert_insert_eq. reflexivity.
  - intros Hl Hspin Hwst Hi32 Hroom Hk. subst k. cbv zeta.
    pose proof (Lock_new_flags s st true) as HN.
    pose proof (Lock_new_waiters s st true) as HW.
    destruct (Lock_new s st true) as [new|msg] eqn:Hnew.
    2:{ destruct HN as (_ & _ & Hbad). congruence. }
    destruct HN as (HL & HK & HS & _).
    destruct (HW new Hi32 Hroom eq_refl) as [_ Hwc].
    exists new. split.
    + simpl. rewrite Hstep1.
      erewrite step_tau;
        [|reflexivity
         |simpl; apply list_lookup_insert_eq; exact Hlt
         |reflexivity
         |simpl; apply Lock_queues;
          [exact Hspin|reflexivity|simpl; rewrite Hl; reflexivity
          |simpl; exact Hnew]].
      simpl. rewrite list_insert_insert_eq.
      destruct (Z.eqb_spec (waitStartTime l) 0) as [|_]; [contradiction|].
      erewrite step_park;
        [|reflexivity
         |simpl; apply list_lookup_insert_eq; exact Hlt
         |reflexivity].
      simpl. rewrite list_insert_insert_eq. reflexivity.
    + rewrite HL, HK, HS, Hwc, Hl, Hs, Hw. simpl.
      rewrite andb_true_r. auto.
Qed.

Lemma woken_waiter_witness :
  run [(1%nat, prompt); (1%nat, prompt)] woken_up
  = Some (Config 1 0 [] [Idle; Held; Idle] None)
  /\ exists new,
       run [(1%nat, late); (1%nat, prompt); (1%nat, prompt)] competing
       = Some (Config new 0 [1%nat]
                 [Idle; LockParked (Locals 1 true true 0 3); Held] None)
       /\ locked_bit new = true /\ woken_bit new = false
       /\ starving_bit new = true
       /\ waiter_count new = waiter_count 3 + 1.
Proof.
  split.
  - apply (woken_waiter 1 prompt prompt prompt (Locals 1 false false 0 1)
             woken_up); reflexivity.
  - apply (woken_waiter 1 late prompt prompt (Locals 1 false false 0 1)
             competing); try reflexivity; try discriminate.
    unfold int32; simpl; lia.
Defined.

(** *** Every call can finish *)









(** ** The atomic Value *)

Import AtomicValue.

(** *** The invariant of the cell *)

Lemma total_insert f ts i p q :
  ts !! i = Some p ->
  (total f (<[i := q]> ts) + f p = total f ts + f q)%nat.
Proof.
  revert i. induction ts as [|a ts IH]; intros [|i] H; simpl in *;
    try discriminate.
  - injection H as ->. lia.
  - specialize (IH i H). lia.
Qed.

Lemma total_replicate f n p : total f (replicate n p) = (n * f p)%nat.
Proof. induction n as [|n IH]; simpl; [reflexivity | rewrite IH; lia]. Qed.

Lemma consistent_init n : consistent (init n).
Proof.
  unfold consistent, init; simpl. rewrite total_replicate. simpl.
  split; [lia|]. split; [reflexivity|]. apply Forall_replicate. exact I.
Qed.

Lemma consistent_step i r c c' :
  consistent c -> valid_request r -> step i r c = Some c' -> consistent c'.
Proof.
  intros (Hp & Hh & Ha) Hr Hstep. unfold step in Hstep.
  destruct c as [[t d] ts h]; simpl in *.
  destruct (ts !! i) as [p|] eqn:Hi; [|discriminate].
  pose proof (Forall_lookup_1 _ _ _ _ Ha Hi) as Hpi.
  assert (forall q, arg_ok q -> Forall arg_ok (<[i := q]> ts)) as Hins
    by (intros q Hq; apply Forall_insert; assumption).
  assert (forall q, (total publisher (<[i := q]> ts) + publisher p
                     = total publisher ts + publisher q)%nat) as Htot
    by (intros q; apply total_insert; exact Hi).
  destruct p as [| |t0|x|x|x|x|x|x|x| |msg]; try discriminate;
    simpl in Hstep, Hpi;
    try (injection Hstep as <-; unfold consistent; simpl;
         specialize (Htot (begin r)); destruct r as [|y]; simpl in *;
         (split; [lia|]); (split; [assumption|]); apply Hins; simpl;
         first [exact I | apply Hr]).
  all: unfold thread_step, Load_step, Store_step, is_nil in Hstep;
    simpl in Hstep;
    repeat match type of Hstep with
    | context [?a =? ?b] => destruct (Z.eqb_spec a b)
    end; simpl in Hstep; injection Hstep as <-; unfold consistent; simpl;
    repeat match goal with
    | |- context [?a =? ?b] => destruct (Z.eqb_spec a b)
    | H : context [?a =? ?b] |- _ => destruct (Z.eqb_spec a b)
    end; simpl in *;
    match goal with
    | |- (total publisher (<[_ := ?q]> _) = _ /\ _) =>
        specialize (Htot q); simpl in Htot
    end;
    try (split; [lia|]); try (split; [subst; auto|]);
    try (apply Hins; simpl; intuition congruence);
    unfold nil, firstStoreInProgress in *; try lia; try tauto.
Qed.

Lemma reachable_consistent n c : reachable n c -> consistent c.
Proof.
  induction 1 as [|c i r c' _ IH Hr Hs]; [apply consistent_init|].
  eapply consistent_step; eauto.
Qed.

Lemma total_lookup_le f ts i p :
  ts !! i = Some p -> (f p <= total f ts)%nat.
Proof.
  revert i. induction ts as [|a ts IH]; intros [|i] H; simpl in *;
    try discriminate.
  - injection H as ->. lia.
  - specialize (IH i H). lia.
Qed.

(** Once a real type tag is in the cell no step changes it. *)
Lemma typ_stable i r c c' :
  consistent c ->
  typ (cell c) <> nil -> typ (cell c) <> firstStoreInProgress ->
  step i r c = Some c' -> typ (cell c') = typ (cell c).
Proof.
  intros (Hp & _ & _) Hn Hm Hstep. unfold step in Hstep.
  destruct c as [[t d] ts h]; simpl in *.
  destruct (ts !! i) as [p|] eqn:Hi; [|discriminate].
  pose proof (total_lookup_le publisher _ _ _ Hi) as Hle.
  destruct (Z.eqb_spec t firstStoreInProgress) as [|_]; [contradiction|].
  destruct p; try discriminate; simpl in Hstep, Hle; try lia;
    unfold thread_step, Load_step, Store_step, is_nil in Hstep;
    simpl in Hstep;
    repeat match type of Hstep with
    | context [?a =? ?b] => destruct (Z.eqb_spec a b)
    end; simpl in Hstep; injection Hstep as <-; simpl; congruence.
Qed.

(** *** Calls run on their own *)

Lemma Load_solo v :
  Load v
  = if (typ v =? nil) || (typ v =? firstStoreInProgress)
    then (Loaded nil_iface, v, [ReadTyp])
    else (Loaded v, v, [ReadTyp; ReadData]).
Proof.
  destruct v as [t d]. unfold Load, solo, thread_step, Load_step; simpl.
  destruct ((t =? nil) || (t =? firstStoreInProgress)); reflexivity.
Qed.


Lemma Store_solo_first x :
  typ x <> nil ->
  Store x nil_iface
  = (Stored, x, [ReadTyp; CasTyp true; WriteData; WriteTyp]).
Proof.
  intros Hx. destruct x as [tx dx]; simpl in *.
  unfold Store, solo, thread_step, Store_step, is_nil; simpl.
  destruct (Z.eqb_spec tx nil); [contradiction|]. reflexivity.
Qed.



(** Claim C8 ([Load]).  [Load] reads the type tag first; it returns the nil
    interface, without reading the data word, exactly when the tag it read is
    nil or the in-progress marker, and otherwise reads the data word next and
    returns the pair.  In every reachable configuration the tag is nil or the
    marker exactly when no first store has completed.  [Load] on the zero
    Value returns nil, and after one completed [Store] of a value it returns
    that value. *)
Theorem Load_returns :
  (forall v,
     Load_step Load0 v
     = if (typ v =? nil) || (typ v =? firstStoreInProgress)
       then (Loaded nil_iface, v, [ReadTyp])
       else (Load1 (typ v), v, [ReadTyp]))
  /\ (forall t v,
        Load_step (Load1 t) v = (Loaded (IfaceWords t (data v)), v, [ReadData]))
  /\ (forall v,
        Load v
        = if (typ v =? nil) || (typ v =? firstStoreInProgress)
          then (Loaded nil_iface, v, [ReadTyp])
          else (Loaded v, v, [ReadTyp; ReadData]))
  /\ (forall v x w tr,
        Load v = (Loaded x, w, tr) ->
        (is_nil x = true
         <-> typ v = nil \/ typ v = firstStoreInProgress))
  /\ (forall n c,
        reachable n c ->
        (published c = false
         <-> typ (cell c) = nil \/ typ (cell c) = firstStoreInProgress))
  /\ Load nil_iface = (Loaded nil_iface, nil_iface, [ReadTyp])
  /\ (forall x,
        typ x <> nil -> typ x <> firstStoreInProgress ->
        exists tr,
          Store x nil_iface = (Stored, x, tr)
          /\ Load x = (Loaded x, x, [ReadTyp; ReadData])).
Proof.
  split; [reflexivity|]. split; [reflexivity|]. split; [apply Load_solo|].
  split; [|split; [|split; [reflexivity|]]].
  - intros v x w tr. rewrite Load_solo. unfold is_nil.
    destruct (Z.eqb_spec (typ v) nil) as [Hn|Hn]; simpl.
    + intros [= <- _ _]. simpl. split; auto.
    + destruct (Z.eqb_spec (typ v) firstStoreInProgress) as [Hm|Hm].
      * intros [= <- _ _]. simpl. split; auto.
      * intros [= <- _ _]. destruct (Z.eqb_spec (typ v) nil); [contradiction|].
        split; [discriminate | intros [?|?]; contradiction].
  - intros n c Hr. destruct (reachable_consistent _ _ Hr) as (_ & -> & _).
    destruct (Z.eqb_spec (typ (cell c)) nil); simpl; [tauto|].
    destruct (Z.eqb_spec (typ (cell c)) firstStoreInProgress); simpl;
      [tauto|]. split; [discriminate | tauto].
  - intros x Hn Hm. eexists. split; [apply Store_solo_first; exact Hn|].
    rewrite Load_solo.
    destruct (Z.eqb_spec (typ x) nil); [contradiction|].
    destruct (Z.eqb_spec (typ x) firstStoreInProgress); [contradiction|].
    reflexivity.
Qed.

(** *** What a panicking [Store] has done *)

Lemma Store_step_quiet p v p' v' a :
  Store_step p v = (p', v', a) -> can_panic p' = true ->
  v' = v /\ Forall (fun acc => writes acc = false) a.
Proof.
  unfold Store_step. intros H Hc.
  destruct p; simpl in H;
    repeat match type of H with
    | context [if ?b then _ else _] => destruct b
    end; injection H as <- <- <-; simpl in Hc; try discriminate;
    (split; [reflexivity | repeat constructor]).
Qed.

Lemma Store_exec_panics p tr p'' :
  Store_exec p tr p'' -> forall msg, p'' = Panicked msg ->
  can_panic p = true /\ Forall (fun acc => writes acc = false) tr.
Proof.
  induction 1 as [p|p v p' v' a tr p'' Hf Hs _ IH]; intros msg ->.
  - split; [reflexivity | constructor].
  - destruct (IH msg eq_refl) as [Hc Htr].
    destruct (Store_step_quiet _ _ _ _ _ Hs Hc) as [_ Ha].
    split; [|apply Forall_app; split; assumption].
    destruct p; simpl in *; try reflexivity; try discriminate;
      injection Hs as <- _ _; discriminate.
Qed.

Lemma Store_step_no_write p v p' v' a :
  Store_step p v = (p', v', a) ->
  Forall (fun acc => writes acc = false) a -> v' = v.
Proof.
  unfold Store_step. intros H Ha.
  destruct p; simpl in H;
    repeat match type of H with
    | context [if ?b then _ else _] => destruct b
    end; injection H as <- <- <-; try reflexivity;
    apply Forall_cons_1 in Ha as [Ha _]; discriminate Ha.
Qed.

Lemma Store_step_in_Load p v p' v' a :
  Store_step p v = (p', v', a) -> in_Load p = false -> in_Load p' = false.
Proof.
  unfold Store_step. intros H Hl.
  destruct p; simpl in H;
    repeat match type of H with
    | context [if ?b then _ else _] => destruct b
    end; injection H as <- <- <-; try reflexivity; discriminate Hl.
Qed.

Lemma solo_Store_exec fuel : forall p v p' v' tr,
  in_Load p = false -> solo fuel p v = (p', v', tr) ->
  Store_exec p tr p'
  /\ (Forall (fun acc => writes acc = false) tr -> v' = v).
Proof.
  induction fuel as [|fuel IH]; intros p v p' v' tr Hl; simpl.
  - intros [= <- <- <-]. split; [constructor | reflexivity].
  - destruct (finished p) eqn:Hf.
    + intros [= <- <- <-]. split; [constructor | reflexivity].
    + unfold thread_step. rewrite Hl.
      destruct (Store_step p v) as [[p1 v1] a] eqn:Hs.
      destruct (solo fuel p1 v1) as [[p2 v2] tr2] eqn:Hrun.
      intros [= <- <- <-].
      pose proof (Store_step_in_Load _ _ _ _ _ Hs Hl) as Hl1.
      destruct (IH _ _ _ _ _ Hl1 Hrun) as [Hex Hcell].
      split; [econstructor; eassumption|].
      intros Hall. apply Forall_app in Hall as [Ha Htr].
      rewrite (Hcell Htr). eapply Store_step_no_write; eassumption.
Qed.

(** Claim C10 (a panicking [Store] has written nothing).  Along every
    execution of one call of [Store] that ends in a panic, whatever the other
    goroutines do to the cell in between, none of the accesses of the call is
    a write or a successful CAS; a step without such an access leaves both
    words of the cell as it found them; so a call run on its own that panics
    leaves the cell exactly as it was. *)
Theorem Store_panic_writes_nothing :
  (forall x tr msg,
     Store_exec (Store0 x) tr (Panicked msg) ->
     Forall (fun acc => writes acc = false) tr)
  /\ (forall p v p' v' a,
        Store_step p v = (p', v', a) ->
        Forall (fun acc => writes acc = false) a -> v' = v)
  /\ (forall fuel x v msg v' tr,
        solo fuel (Store0 x) v = (Panicked msg, v', tr) -> v' = v).
Proof.
  split; [|split].
  - intros x tr msg H. eapply Store_exec_panics; eauto.
  - apply Store_step_no_write.
  - intros fuel x v msg v' tr H.
    destruct (solo_Store_exec fuel (Store0 x) v _ _ _ eq_refl H)
      as [Hex Hcell].
    apply Hcell. eapply Store_exec_panics; eauto.
Qed.

(** *** The retry loop of [Store] *)

Lemma run_valid_reachable n sched : forall c c',
  Forall (fun ir => valid_request ir.2) sched ->
  reachable n c -> run sched c = Some c' -> reachable n c'.
Proof.
  induction sched as [|[i r] rest IH]; intros c c' Hv Hc Hrun;
    simpl in Hrun.
  - congruence.
  - destruct (step i r c) as [c1|] eqn:Hs; [|discriminate].
    apply Forall_cons_1 in Hv as [Hr Hv].
    eapply IH; [exact Hv| |exact Hrun]. eapply reach_step; eauto.
Qed.

Lemma publishing_reachable : reachable 2 publishing.
Proof.
  apply (run_valid_reachable 2 publishing_schedule (init 2));
    [|apply reach_init|reflexivity].
  repeat constructor; simpl; unfold firstStoreInProgress; try lia;
    discriminate.
Defined.







Lemma published_once_reachable : reachable 2 published_once.
Proof.
  apply (run_valid_reachable 2
           [(0%nat, CallStore first_value); (0%nat, CallLoad);
            (0%nat, CallLoad); (0%nat, CallLoad); (0%nat, CallLoad);
            (0%nat, CallLoad)] (init 2));
    [|apply reach_init|reflexivity].
  repeat constructor; simpl; unfold firstStoreInProgress; try lia;
    discriminate.
Defined.

Lemma Load_returns_witness :
  (is_nil first_value = true
   <-> typ first_value = nil \/ typ first_value = firstStoreInProgress)
  /\ (published published_once = false
      <-> typ (cell published_once) = nil
          \/ typ (cell published_once) = firstStoreInProgress)
  /\ (exists tr,
        Store first_value nil_iface = (Stored, first_value, tr)
        /\ Load first_value
           = (Loaded first_value, first_value, [ReadTyp; ReadData])).
Proof.
  destruct Load_returns as (_ & _ & _ & Hiff & Hpub & _ & Hround).
  split; [|split].
  - apply (Hiff first_value first_value first_value [ReadTyp; ReadData]).
    reflexivity.
  - apply (Hpub 2%nat published_once). apply published_once_reachable.
  - apply (Hround first_value);
      [discriminate | unfold firstStoreInProgress; simpl; lia].
Defined.

Lemma Store_panic_writes_nothing_witness :
  Forall (fun acc => writes acc = false) [ReadTyp]
  /\ (Store (IfaceWords 8 200) first_value).1.2 = first_value.
Proof.
  destruct Store_panic_writes_nothing as (Hexec & _ & Hsolo).
  split.
  - apply (Hexec (IfaceWords 8 200) [ReadTyp]
             "sync/atomic: store of inconsistently typed value into Value"%string).
    apply (exec_step (Store0 (IfaceWords 8 200)) first_value
             (StoreLoop (IfaceWords 8 200)) first_value [] [ReadTyp]);
      [reflexivity | reflexivity |].
    apply (exec_step (StoreLoop (IfaceWords 8 200)) first_value
             (Panicked
                "sync/atomic: store of inconsistently typed value into Value")
             first_value [ReadTyp] []);
      [reflexivity | reflexivity | apply exec_done].
  - apply (Hsolo 5%nat (IfaceWords 8 200) first_value
             "sync/atomic: store of inconsistently typed value into Value"%string
             (Store (IfaceWords 8 200) first_value).1.2 [ReadTyp]).
    reflexivity.
Defined.

(** *** What [Load] can return

    Further invariants of the reachable configurations, on top of
    [consistent]. *)

Lemma total_two f ts : forall i j p q,
  ts !! i = Some p -> ts !! j = Some q -> i <> j ->
  (f p + f q <= total f ts)%nat.
Proof.
  induction ts as [|a ts IH]; intros [|i] [|j] p q Hi Hj Hne; simpl in *;
    try discriminate; try contradiction.
  - injection Hi as ->.
    pose proof (total_lookup_le f _ _ _ Hj). lia.
  - injection Hj as ->.
    pose proof (total_lookup_le f _ _ _ Hi). lia.
  - assert (i <> j) as Hne' by congruence.
    pose proof (IH _ _ _ _ Hi Hj Hne'). lia.
Qed.

Lemma total_pos f ts :
  (0 < total f ts)%nat -> exists j p, ts !! j = Some p /\ (0 < f p)%nat.
Proof.
  induction ts as [|a ts IH]; simpl; [lia|]. intros H.
  destruct (decide (0 < f a)%nat) as [Ha|Ha].
  - exists 0%nat, a. auto.
  - destruct IH as (j & p & Hj & Hp); [lia|]. exists (S j), p. auto.
Qed.

Lemma unpublished_tag c :
  consistent c -> published c = false ->
  typ (cell c) = nil \/ typ (cell c) = firstStoreInProgress.
Proof.
  intros (_ & Hp & _) Hf. rewrite Hp in Hf.
  destruct (Z.eqb_spec (typ (cell c)) nil); [auto|].
  destruct (Z.eqb_spec (typ (cell c)) firstStoreInProgress); [auto|].
  discriminate Hf.
Qed.

Lemma published_tag c :
  consistent c -> published c = true ->
  typ (cell c) <> nil /\ typ (cell c) <> firstStoreInProgress.
Proof.
  intros (_ & Hp & _) Hf. rewrite Hp in Hf.
  destruct (Z.eqb_spec (typ (cell c)) nil); [discriminate|].
  destruct (Z.eqb_spec (typ (cell c)) firstStoreInProgress); [discriminate|].
  auto.
Qed.

Lemma publisher_marker c i p :
  consistent c -> threads c !! i = Some p -> publisher p = 1%nat ->
  typ (cell c) = firstStoreInProgress /\ published c = false.
Proof.
  intros Hc Hi Hp. pose proof Hc as (Ht & Hpub & _).
  pose proof (total_lookup_le publisher _ _ _ Hi) as Hle.
  destruct (Z.eqb_spec (typ (cell c)) firstStoreInProgress) as [Hm|Hm];
    [|lia].
  split; [exact Hm|]. rewrite Hpub.
  destruct (Z.eqb_spec (typ (cell c)) firstStoreInProgress);
    [apply negb_false_iff, orb_true_r | contradiction].
Qed.

(** The history only grows. *)
Lemma seen_mono h h' c p : h ⊆ h' -> seen h c p -> seen h' c p.
Proof.
  intros Hsub. destruct p; simpl; auto.
  - intros [?|(? & ? & ?)]; auto.
  - intros (? & ?); auto.
  - intros (? & ?); auto.
Qed.

Lemma logged_mono h h' c : h ⊆ h' -> logged h c -> logged h' c.
Proof.
  intros Hsub [Hc Ht]. split; [auto|].
  eapply Forall_impl; [exact Ht|]. intros p. apply seen_mono. exact Hsub.
Qed.

(** A step that changes the tag: no first store has completed before it. *)
Lemma seen_retag h c v' pub' ts' p :
  consistent c -> published c = false -> data v' = data (cell c) ->
  arg_ok p -> seen h c p -> seen h (Config v' ts' pub') p.
Proof.
  intros Hc Hpub Hd Ha.
  destruct (unpublished_tag _ Hc Hpub) as [Ht|Ht];
    destruct p; simpl in *; auto;
    try (intros (? & ?); congruence);
    try (intros [?|(? & ? & ?)]; [auto | congruence]);
    try congruence;
    intros (? & ?); destruct Ha; congruence.
Qed.

(** A step that changes the data word and nothing else, seen by a goroutine
    that is not completing the first store. *)
Lemma seen_rewrite h c v' ts' p :
  typ v' = typ (cell c) -> publisher p = 0%nat ->
  seen h c p -> seen h (Config v' ts' (published c)) p.
Proof.
  intros Ht Hp. destruct p; simpl in *; auto; try discriminate Hp;
    rewrite Ht; auto.
Qed.

(** A step that leaves the cell alone. *)
Lemma seen_same h c ts' p :
  seen h c p -> seen h (Config (cell c) ts' (published c)) p.
Proof. destruct p; simpl; auto. Qed.

Lemma others_idle ts i p j q :
  ts !! i = Some p -> publisher p = 1%nat -> total publisher ts = 1%nat ->
  ts !! j = Some q -> j <> i -> publisher q = 0%nat.
Proof.
  intros Hi Hp Ht Hj Hne.
  pose proof (total_two publisher ts i j p q Hi Hj ltac:(auto)). lia.
Qed.

Lemma Forall_insert_others {A} (P Q : A -> Prop) ts i x :
  Forall P ts -> Q x ->
  (forall j y, j <> i -> ts !! j = Some y -> P y -> Q y) ->
  Forall Q (<[i := x]> ts).
Proof.
  intros HP Hx Hothers. apply Forall_lookup. intros j y Hj.
  destruct (decide (j = i)) as [->|Hne].
  - pose proof (lookup_lt_Some _ _ _ Hj) as Hlt.
    rewrite length_insert in Hlt.
    rewrite list_lookup_insert_eq in Hj by exact Hlt.
    injection Hj as <-. exact Hx.
  - rewrite list_lookup_insert_ne in Hj by auto.
    eapply Hothers; eauto. eapply Forall_lookup_1; eauto.
Qed.

Lemma logged_step h i r c c' :
  consistent c -> logged h c -> valid_request r -> step i r c = Some c' ->
  logged (call_of i r c ++ h) c'.
Proof.
  intros Hc Hlog Hr Hstep.
  assert (consistent c') as Hc' by (eapply consistent_step; eauto).
  unfold step in Hstep.
  destruct (threads c !! i) as [p|] eqn:Hi; [|discriminate].
  pose proof Hc as (Htot & Hpub & Hargs).
  pose proof (Forall_lookup_1 _ _ _ _ Hargs Hi) as Hai.
  destruct (finished p) eqn:Hfin.
  { (* a new call begins *)
    assert (forall y, r = CallStore y -> y ∈ call_of i r c ++ h) as Hnew.
    { intros y ->. unfold call_of. rewrite Hi, Hfin.
      apply elem_of_cons; left; reflexivity. }
    assert (h ⊆ call_of i r c ++ h) as Hsub
      by (intros x Hx; apply elem_of_app; auto).
    apply (logged_mono _ _ _ Hsub) in Hlog. clear Hsub.
    revert Hlog Hnew. generalize (call_of i r c ++ h). intros h' Hlog Hnew.
    destruct Hlog as [Hcell Hts].
    destruct p; try discriminate Hfin; try discriminate Hstep;
      injection Hstep as <-; (split; [exact Hcell|]); simpl;
      (eapply Forall_insert_others;
       [exact Hts| |intros; apply seen_same; assumption]);
      destruct r as [|y]; simpl; auto. }
  assert (call_of i r c = []) as ->
    by (unfold call_of; rewrite Hi, Hfin; destruct r; reflexivity).
  simpl app. revert Hlog.
  intros [Hcell Hts].
  pose proof (Forall_lookup_1 _ _ _ _ Hts Hi) as Hsi.
  destruct c as [[t d] ts pub]; simpl in *.
  destruct p as [| |t0|x|x|x|x|x|x|x| |msg]; try discriminate Hfin;
    unfold thread_step, Load_step, Store_step, is_nil in Hstep;
    simpl in Hstep, Hsi, Hai.
  - (* Load0 *)
    destruct ((t =? nil) || (t =? firstStoreInProgress)) eqn:Ht;
      injection Hstep as <-; (split; [rewrite orb_false_r; exact Hcell|]);
      simpl; rewrite orb_false_r;
      (eapply Forall_insert_others;
       [exact Hts| |intros; apply (seen_same h (Config (IfaceWords t d) ts pub));
                    assumption]); simpl; auto.
  - (* Load1 *)
    injection Hstep as <-. destruct Hsi as [Hp ->].
    split; [rewrite orb_false_r; exact Hcell|]. simpl. rewrite orb_false_r.
    eapply Forall_insert_others;
      [exact Hts| |intros; apply (seen_same h (Config (IfaceWords t d) ts pub));
                   assumption].
    simpl. right. auto.
  - (* Store0 *)
    destruct (typ x =? nil); injection Hstep as <-;
      (split; [rewrite orb_false_r; exact Hcell|]); simpl;
      rewrite orb_false_r;
      (eapply Forall_insert_others;
       [exact Hts| |intros; apply (seen_same h (Config (IfaceWords t d) ts pub));
                    assumption]); simpl; auto.
  - (* StoreLoop *)
    destruct (Z.eqb_spec t nil) as [Hn|Hn];
      [|destruct (Z.eqb_spec t firstStoreInProgress) as [Hm|Hm];
        [|destruct (Z.eqb_spec t (typ x)) as [Hx|Hx]]];
      simpl in Hstep; injection Hstep as <-;
      (split; [rewrite orb_false_r; exact Hcell|]); simpl;
      rewrite orb_false_r;
      (eapply Forall_insert_others;
       [exact Hts| |intros; apply (seen_same h (Config (IfaceWords t d) ts pub));
                    assumption]); simpl; auto.
  - (* StoreCAS *)
    destruct (Z.eqb_spec t nil) as [Hn|Hn]; injection Hstep as <-.
    + assert (pub = false) as ->.
      { rewrite Hpub. subst t. reflexivity. }
      split; [discriminate|]. simpl.
      eapply Forall_insert_others; [exact Hts|exact Hsi|].
      intros j y _ Hj Hy.
      apply (seen_retag h (Config (IfaceWords t d) ts false)); auto.
      eapply Forall_lookup_1; eauto.
    + split; [rewrite orb_false_r; exact Hcell|]. simpl.
      rewrite orb_false_r.
      eapply Forall_insert_others;
        [exact Hts|exact Hsi
        |intros; apply (seen_same h (Config (IfaceWords t d) ts pub));
         assumption].
  - (* StoreData *)
    injection Hstep as <-.
    destruct (publisher_marker (Config (IfaceWords t d) ts pub) i
                (StoreData x) Hc Hi eq_refl) as [Hm Hp]. simpl in Hm, Hp.
    clear Hpub. subst pub. split; [simpl; discriminate|]. simpl.
    eapply Forall_insert_others; [exact Hts|simpl; auto|].
    intros j y Hne Hj Hy.
    apply (seen_rewrite h (Config (IfaceWords t d) ts false)); auto.
    rewrite Hm in Htot. simpl in Htot.
    eapply (others_idle ts i (StoreData x)); eauto.
  - (* StoreTyp *)
    injection Hstep as <-.
    destruct (publisher_marker (Config (IfaceWords t d) ts pub) i
                (StoreTyp x) Hc Hi eq_refl) as [Hm Hp]. simpl in Hm, Hp.
    clear Hpub. subst pub. destruct Hsi as [Hx Hd]. simpl in Hd. subst d.
    split; [intros _; destruct x; exact Hx|]. simpl.
    eapply Forall_insert_others; [exact Hts|reflexivity|].
    intros j y Hne Hj Hy.
    apply (seen_retag h (Config (IfaceWords t (data x)) ts false)); auto.
    eapply Forall_lookup_1; eauto.
  - (* StoreOver *)
    injection Hstep as <-. destruct Hsi as [Hx Ht]. simpl in Ht. subst t.
    assert (pub = true) as ->.
    { rewrite Hpub. destruct Hai as [Hm Hn].
      destruct (Z.eqb_spec (typ x) nil); [contradiction|].
      destruct (Z.eqb_spec (typ x) firstStoreInProgress); [contradiction|].
      reflexivity. }
    split; [intros _; destruct x; exact Hx|]. simpl.
    eapply Forall_insert_others; [exact Hts|reflexivity|].
    intros j y Hne Hj Hy.
    apply (seen_rewrite h (Config (IfaceWords (typ x) d) ts true)); auto.
    pose proof (total_lookup_le publisher _ _ _ Hj) as Hle.
    rewrite Htot in Hle. destruct Hai as [Hm _].
    destruct (Z.eqb_spec (typ x) firstStoreInProgress); [contradiction|].
    lia.
Qed.

Lemma logged_init n : logged [] (init n).
Proof.
  split; [discriminate|]. apply Forall_replicate. exact I.
Qed.

Lemma logged_run sched : forall c c' h,
  Forall (fun ir => valid_request ir.2) sched ->
  consistent c -> logged h c -> run sched c = Some c' ->
  logged (h ++ stores sched c) c'.
Proof.
  induction sched as [|[i r] rest IH]; intros c c' h Hv Hc Hlog Hrun;
    simpl in *.
  - injection Hrun as <-. rewrite app_nil_r. exact Hlog.
  - destruct (step i r c) as [c1|] eqn:Hs; [|discriminate].
    apply Forall_cons_1 in Hv as [Hr Hv].
    pose proof (logged_step _ _ _ _ _ Hc Hlog Hr Hs) as Hlog1.
    pose proof (consistent_step _ _ _ _ Hc Hr Hs) as Hc1.
    specialize (IH _ _ _ Hv Hc1 Hlog1 Hrun).
    eapply logged_mono; [|exact IH].
    intros x Hx. rewrite !elem_of_app in Hx. rewrite !elem_of_app. tauto.
Qed.

Lemma reachable_logged n c : reachable n c -> exists h, logged h c.
Proof.
  induction 1 as [|c i r c' Hr [h IH] Hv Hs].
  - exists []. apply logged_init.
  - exists (call_of i r c ++ h). eapply logged_step; eauto.
    eapply reachable_consistent; eauto.
Qed.

Lemma run_published sched : forall c c',
  run sched c = Some c' -> published c = true -> published c' = true.
Proof.
  induction sched as [|[i r] rest IH]; intros c c' Hrun Hp; simpl in Hrun.
  - congruence.
  - destruct (step i r c) as [c1|] eqn:Hs; [|discriminate].
    apply (IH _ _ Hrun). unfold step in Hs.
    destruct (threads c !! i) as [p|]; [|discriminate].
    destruct p; simpl in Hs; try discriminate;
      try (injection Hs as <-; simpl; rewrite ?Hp; reflexivity);
      destruct (thread_step _ (cell c)) as [[p' v'] a];
      injection Hs as <-; simpl; rewrite Hp; reflexivity.
Qed.

Lemma run_typ_stable sched : forall c c',
  Forall (fun ir => valid_request ir.2) sched ->
  consistent c -> published c = true -> run sched c = Some c' ->
  typ (cell c') = typ (cell c).
Proof.
  induction sched as [|[i r] rest IH]; intros c c' Hv Hc Hp Hrun;
    simpl in Hrun.
  - congruence.
  - destruct (step i r c) as [c1|] eqn:Hs; [|discriminate].
    apply Forall_cons_1 in Hv as [Hr Hv].
    destruct (published_tag _ Hc Hp) as [Hn Hm].
    rewrite <- (typ_stable _ _ _ _ Hc Hn Hm Hs).
    apply IH; auto.
    + eapply consistent_step; eauto.
    + apply (run_published [(i, r)] c c1); [simpl; rewrite Hs; reflexivity|].
      exact Hp.
Qed.

Lemma calm_step T i r c c' :
  T <> nil -> T <> firstStoreInProgress ->
  calm T c -> uniform T r -> step i r c = Some c' -> calm T c'.
Proof.
  intros Hn Hm [Hcell Hts] Hr Hstep. unfold step in Hstep.
  destruct (threads c !! i) as [p|] eqn:Hi; [|discriminate].
  pose proof (Forall_lookup_1 _ _ _ _ Hts Hi) as Hp.
  destruct c as [[t d] ts pub]; simpl in *.
  destruct p as [| |t0|x|x|x|x|x|x|x| |msg]; try contradiction;
    unfold thread_step, Load_step, Store_step, is_nil in Hstep;
    simpl in Hstep;
    repeat match type of Hstep with
    | context [?a =? ?b] => destruct (Z.eqb_spec a b)
    end; simpl in Hstep; injection Hstep as <-;
    (split; simpl; [auto|apply Forall_insert; [exact Hts|]]);
    try (destruct r; simpl; auto; fail); simpl; auto;
    try congruence.
  all: destruct Hcell as [?|[?|?]]; congruence.
Qed.

Lemma calm_run T sched : forall c c',
  T <> nil -> T <> firstStoreInProgress ->
  Forall (fun ir => uniform T ir.2) sched ->
  calm T c -> run sched c = Some c' -> calm T c'.
Proof.
  induction sched as [|[i r] rest IH]; intros c c' Hn Hm Hu Hc Hrun;
    simpl in Hrun.
  - congruence.
  - destruct (step i r c) as [c1|] eqn:Hs; [|discriminate].
    apply Forall_cons_1 in Hu as [Hr Hu].
    apply (IH c1 c' Hn Hm Hu); [|exact Hrun].
    apply (calm_step T i r c c1 Hn Hm Hc Hr Hs).
Qed.

(** Property X14 (loads agree on the type).  In a reachable configuration
    any two values returned by [Load] that are not nil carry the same type
    tag: the tag of the cell, which is never the in-progress marker; and a
    first store has completed. *)
Theorem Load_types_agree n c i j x y :
  reachable n c ->
  threads c !! i = Some (Loaded x) -> threads c !! j = Some (Loaded y) ->
  is_nil x = false -> is_nil y = false ->
  typ x = typ y /\ typ x = typ (cell c)
  /\ typ x <> firstStoreInProgress /\ published c = true.
Proof.
  intros Hr Hi Hj Hx Hy.
  destruct (reachable_logged _ _ Hr) as (h & _ & Hts).
  pose proof (reachable_consistent _ _ Hr) as Hc.
  pose proof (Forall_lookup_1 _ _ _ _ Hts Hi) as Hsi.
  pose proof (Forall_lookup_1 _ _ _ _ Hts Hj) as Hsj.
  simpl in Hsi, Hsj.
  destruct Hsi as [->|(_ & Hp & Hxi)]; [discriminate Hx|].
  destruct Hsj as [->|(_ & _ & Hyj)]; [discriminate Hy|].
  destruct (published_tag _ Hc Hp) as [_ Hm].
  split; [congruence|]. split; [exact Hxi|]. split; [congruence | exact Hp].
Qed.

Lemma Load_types_agree_witness :
  typ first_value = typ first_value
  /\ typ first_value = typ (cell read_twice)
  /\ typ first_value <> firstStoreInProgress
  /\ published read_twice = true.
Proof.
  apply (Load_types_agree 2 read_twice 0 1 first_value first_value);
    try reflexivity.
  apply (run_valid_reachable 2 reading_schedule (init 2));
    [|apply reach_init|reflexivity].
  repeat constructor; simpl; unfold firstStoreInProgress; try lia;
    discriminate.
Defined.

(** Property X15 ([Load] returns what was stored).  Along any schedule
    from the zero Value, a value returned by [Load] is nil or the argument
    of a [Store] call begun earlier in the schedule, both words of it: the
    type tag and the data word are never mixed from two stores.  Once a
    first store has completed the cell itself holds such an argument. *)
Theorem Load_returns_a_stored_value n sched c :
  Forall (fun ir => valid_request ir.2) sched ->
  run sched (init n) = Some c ->
  (forall i x,
     threads c !! i = Some (Loaded x) ->
     x = nil_iface \/ x ∈ stores sched (init n))
  /\ (published c = true -> cell c ∈ stores sched (init n)).
Proof.
  intros Hv Hrun.
  pose proof (logged_run sched _ _ [] Hv (consistent_init n) (logged_init n)
                Hrun) as [Hcell Hts].
  simpl in Hcell, Hts. split; [|exact Hcell].
  intros i x Hi. pose proof (Forall_lookup_1 _ _ _ _ Hts Hi) as Hsi.
  simpl in Hsi. tauto.
Qed.

Lemma Load_returns_a_stored_value_witness :
  (forall i x,
     threads read_twice !! i = Some (Loaded x) ->
     x = nil_iface \/ x ∈ stores reading_schedule (init 2))
  /\ (published read_twice = true ->
      cell read_twice ∈ stores reading_schedule (init 2)).
Proof.
  apply (Load_returns_a_stored_value 2 reading_schedule read_twice);
    [|reflexivity].
  repeat constructor; simpl; unfold firstStoreInProgress; try lia;
    discriminate.
Defined.

(** *** The first store and the later ones *)

(** Property X16 (one first store).  In a reachable configuration at most
    one goroutine is between the CAS of line 78 and the store of line 86;
    the in-progress marker is in the cell exactly while there is one; and
    once a first store has completed there is none. *)
Theorem first_store_is_exclusive n c :
  reachable n c ->
  (forall i j p q,
     threads c !! i = Some p -> threads c !! j = Some q ->
     publisher p = 1%nat -> publisher q = 1%nat -> i = j)
  /\ (typ (cell c) = firstStoreInProgress
      <-> exists i p, threads c !! i = Some p /\ publisher p = 1%nat)
  /\ (published c = true ->
      forall i p, threads c !! i = Some p -> publisher p = 0%nat).
Proof.
  intros Hr. pose proof (reachable_consistent _ _ Hr) as Hc.
  pose proof Hc as (Htot & Hpub & _).
  split; [|split].
  - intros i j p q Hi Hj Hp Hq.
    destruct (decide (i = j)) as [|Hne]; [assumption|].
    pose proof (total_two publisher _ _ _ _ _ Hi Hj Hne) as Htwo.
    destruct (typ (cell c) =? firstStoreInProgress); lia.
  - split.
    + intros Hm. rewrite Hm, Z.eqb_refl in Htot.
      destruct (total_pos publisher (threads c)) as (i & p & Hi & Hp); [lia|].
      exists i, p. split; [exact Hi|]. destruct p; simpl in *; lia.
    + intros (i & p & Hi & Hp). eapply publisher_marker; eauto.
  - intros Hp i p Hi.
    destruct (published_tag _ Hc Hp) as [_ Hm].
    pose proof (total_lookup_le publisher _ _ _ Hi) as Hle.
    destruct (Z.eqb_spec (typ (cell c)) firstStoreInProgress);
      [contradiction | lia].
Qed.

Lemma first_store_is_exclusive_witness :
  (forall i j p q,
     threads publishing !! i = Some p -> threads publishing !! j = Some q ->
     publisher p = 1%nat -> publisher q = 1%nat -> i = j)
  /\ (typ (cell publishing) = firstStoreInProgress
      <-> exists i p, threads publishing !! i = Some p
                      /\ publisher p = 1%nat)
  /\ (published publishing = true ->
      forall i p, threads publishing !! i = Some p -> publisher p = 0%nat).
Proof.
  apply (first_store_is_exclusive 2 publishing). exact publishing_reachable.
Defined.

(** Property X17 (stores of one type never panic).  Along any schedule
    from the zero Value in which every [Store] is passed a value of one and
    the same type, not nil, no call panics, and the type tag of the cell is
    nil, the in-progress marker or that type. *)
Theorem uniform_stores_never_panic n T sched c :
  T <> nil -> T <> firstStoreInProgress ->
  Forall (fun ir => uniform T ir.2) sched ->
  run sched (init n) = Some c ->
  (forall i msg, threads c !! i <> Some (Panicked msg))
  /\ (typ (cell c) = nil \/ typ (cell c) = firstStoreInProgress
      \/ typ (cell c) = T).
Proof.
  intros Hn Hm Hu Hrun.
  assert (calm T (init n)) as H0.
  { split; [left; reflexivity|]. apply Forall_replicate. exact I. }
  destruct (calm_run T sched _ _ Hn Hm Hu H0 Hrun) as [Hcell Hts].
  split; [|exact Hcell].
  intros i msg Hi. apply (Forall_lookup_1 _ _ _ _ Hts Hi).
Qed.

Lemma uniform_stores_never_panic_witness :
  (forall i msg, threads read_twice !! i <> Some (Panicked msg))
  /\ (typ (cell read_twice) = nil
      \/ typ (cell read_twice) = firstStoreInProgress
      \/ typ (cell read_twice) = 7).
Proof.
  apply (uniform_stores_never_panic 2 7 reading_schedule read_twice);
    [discriminate | discriminate | | reflexivity].
  repeat constructor.
Defined.

(** Property X18 (after a [Store] has returned).  From a reachable
    configuration in which some [Store] has returned, whatever the
    goroutines do next, the type tag of the cell stays what it is, a [Load]
    that reads the tag goes on to read the data word, and a [Load] run on
    its own returns the cell, which is not nil. *)
Theorem Load_after_Store n c i sched c' :
  reachable n c -> threads c !! i = Some Stored ->
  Forall (fun ir => valid_request ir.2) sched ->
  run sched c = Some c' ->
  published c' = true
  /\ typ (cell c') = typ (cell c)
  /\ Load_step Load0 (cell c') = (Load1 (typ (cell c)), cell c', [ReadTyp])
  /\ Load (cell c') = (Loaded (cell c'), cell c', [ReadTyp; ReadData])
  /\ is_nil (cell c') = false.
Proof.
  intros Hr Hi Hv Hrun.
  destruct (reachable_logged _ _ Hr) as (h & _ & Hts).
  pose proof (reachable_consistent _ _ Hr) as Hc.
  pose proof (Forall_lookup_1 _ _ _ _ Hts Hi) as Hp. simpl in Hp.
  pose proof (run_published _ _ _ Hrun Hp) as Hp'.
  pose proof (run_typ_stable _ _ _ Hv Hc Hp Hrun) as Ht.
  destruct (published_tag _ Hc Hp) as [Hn Hm]. rewrite <- Ht in Hn, Hm.
  split; [exact Hp'|]. split; [exact Ht|].
  rewrite Load_solo. unfold Load_step, is_nil. rewrite <- Ht.
  destruct (Z.eqb_spec (typ (cell c')) nil); [contradiction|].
  destruct (Z.eqb_spec (typ (cell c')) firstStoreInProgress);
    [contradiction|].
  simpl. auto.
Qed.

Lemma Load_after_Store_witness :
  published stored_twice = true
  /\ typ (cell stored_twice) = typ (cell published_once)
  /\ Load_step Load0 (cell stored_twice)
     = (Load1 (typ (cell published_once)), cell stored_twice, [ReadTyp])
  /\ Load (cell stored_twice)
     = (Loaded (cell stored_twice), cell stored_twice, [ReadTyp; ReadData])
  /\ is_nil (cell stored_twice) = false.
Proof.
  apply (Load_after_Store 2 published_once 0
           [(1%nat, CallStore second_value); (1%nat, CallLoad);
            (1%nat, CallLoad); (1%nat, CallLoad)] stored_twice);
    [exact published_once_reachable | reflexivity | | reflexivity].
  repeat constructor; simpl; unfold firstStoreInProgress; try lia;
    discriminate.
Defined.

(** Property X19 (no retry after the first store).  In a reachable
    configuration in which a first store has completed, every goroutine
    inside a call can take its next step, and the step brings it closer to
    the end of the call by the measure [steps_left], which is at most three:
    a [Store] no longer spins, and a CAS it still has to run fails once and
    is not tried again, whatever the other goroutines do.  The step leaves
    the other goroutines where they are. *)
Theorem calls_bounded_after_first_store n c i p r :
  reachable n c -> published c = true ->
  threads c !! i = Some p -> finished p = false ->
  (steps_left p <= 3)%nat
  /\ exists c' p',
       step i r c = Some c' /\ threads c' !! i = Some p'
       /\ (steps_left p' < steps_left p)%nat
       /\ published c' = true
       /\ forall j, j <> i -> threads c' !! j = threads c !! j.
Proof.
  intros Hr Hp Hi Hfin.
  split; [destruct p; simpl; lia|].
  pose proof (reachable_consistent _ _ Hr) as Hc.
  destruct (published_tag _ Hc Hp) as [Hn Hm].
  assert (i < length (threads c))%nat as Hlt by (eapply lookup_lt_Some; eauto).
  unfold step. rewrite Hi, Hfin.
  destruct (thread_step p (cell c)) as [[p' v'] a] eqn:Hstep.
  assert ((steps_left p' < steps_left p)%nat) as Hless.
  { unfold thread_step, Load_step, Store_step, is_nil in Hstep.
    destruct p; try discriminate Hfin; simpl in Hstep;
      repeat match type of Hstep with
      | context [?a =? ?b] => destruct (Z.eqb_spec a b)
      end; simpl in Hstep; injection Hstep as <- _ _; simpl; try lia;
      contradiction. }
  exists (Config v' (<[i := p']> (threads c))
            (published c || match p with StoreTyp _ => true | _ => false end)),
         p'.
  split; [destruct p; try discriminate Hfin; reflexivity|].
  split; [simpl; apply list_lookup_insert_eq; exact Hlt|].
  split; [exact Hless|]. split; [simpl; rewrite Hp; reflexivity|].
  intros j Hne. simpl. apply list_lookup_insert_ne. auto.
Qed.

Lemma calls_bounded_after_first_store_witness :
  (steps_left (Store0 second_value) <= 3)%nat
  /\ exists c' p',
       step 1 CallLoad
         storing_again = Some c'
       /\ threads c' !! 1%nat = Some p'
       /\ (steps_left p' < steps_left (Store0 second_value))%nat
       /\ published c' = true
       /\ forall j, j <> 1%nat ->
            threads c' !! j
            = threads storing_again
                !! j.
Proof.
  apply (calls_bounded_after_first_store 2
           storing_again 1
           (Store0 second_value) CallLoad);
    [|reflexivity..].
  apply (reach_step 2 published_once 1 (CallStore second_value));
    [exact published_once_reachable | | reflexivity].
  split; [unfold firstStoreInProgress; simpl; lia | discriminate].
Defined.

(** Property X20 (a [Store] takes effect at its last step).  In a
    reachable configuration the last step of a [Store] that returns, the
    store of line 86 or of line 104, leaves exactly its argument in the
    cell, both words, whatever the other goroutines have done in between;
    a first store has then completed, and a [Load] run on its own returns
    that argument. *)
Theorem Store_takes_effect n c i x r c' :
  reachable n c ->
  threads c !! i = Some (StoreTyp x) \/ threads c !! i = Some (StoreOver x) ->
  step i r c = Some c' ->
  cell c' = x /\ threads c' !! i = Some Stored /\ published c' = true
  /\ Load (cell c') = (Loaded x, x, [ReadTyp; ReadData]).
Proof.
  intros Hr Hi Hstep.
  destruct (reachable_logged _ _ Hr) as (h & _ & Hts).
  pose proof (reachable_consistent _ _ Hr) as Hc.
  pose proof Hc as (_ & Hpub & Hargs).
  assert (exists p, threads c !! i = Some p
                    /\ (p = StoreTyp x \/ p = StoreOver x)) as (p & Hp & Hcase)
    by (destruct Hi; eauto).
  pose proof (Forall_lookup_1 _ _ _ _ Hts Hp) as Hsi.
  pose proof (Forall_lookup_1 _ _ _ _ Hargs Hp) as Hai.
  assert (i < length (threads c))%nat as Hlt by (eapply lookup_lt_Some; eauto).
  assert (typ x <> firstStoreInProgress /\ typ x <> nil) as [Hm Hn]
    by (destruct Hcase; subst p; exact Hai).
  assert (cell c' = x /\ threads c' !! i = Some Stored
          /\ published c' = true) as (Hcell & Hthr & Hpub').
  { unfold step in Hstep. rewrite Hp in Hstep.
    destruct Hcase; subst p; simpl in Hstep, Hsi; injection Hstep as <-;
      simpl; destruct Hsi as [_ Heq].
    - rewrite Heq. destruct x as [tx dx]; simpl.
      split; [reflexivity|]. split; [|apply orb_true_r].
      apply list_lookup_insert_eq. exact Hlt.
    - rewrite <- Heq. destruct x as [tx dx]; simpl.
      split; [reflexivity|]. split; [apply list_lookup_insert_eq; exact Hlt|].
      rewrite orb_false_r, Hpub, <- Heq. simpl in *.
      destruct (Z.eqb_spec tx nil); [contradiction|].
      destruct (Z.eqb_spec tx firstStoreInProgress); [contradiction|].
      reflexivity. }
  split; [exact Hcell|]. split; [exact Hthr|]. split; [exact Hpub'|].
  rewrite Hcell, Load_solo.
  destruct (Z.eqb_spec (typ x) nil); [contradiction|].
  destruct (Z.eqb_spec (typ x) firstStoreInProgress); [contradiction|].
  reflexivity.
Qed.

Lemma Store_takes_effect_witness :
  cell stored_twice = second_value
  /\ threads stored_twice !! 1%nat = Some Stored
  /\ published stored_twice = true
  /\ Load (cell stored_twice)
     = (Loaded second_value, second_value, [ReadTyp; ReadData]).
Proof.
  apply (Store_takes_effect 2 overwriting 1 second_value CallLoad
           stored_twice); [|right; reflexivity|reflexivity].
  apply (run_valid_reachable 2
           [(1%nat, CallStore second_value); (1%nat, CallLoad);
            (1%nat, CallLoad)] published_once);
    [|exact published_once_reachable|reflexivity].
  repeat constructor; simpl; unfold firstStoreInProgress; try lia;
    discriminate.
Defined.

(** Property X23 (a [Load] is not torn).  In a reachable configuration a
    [Load] that has read the type tag at line 38 and now reads the data word
    at line 47 returns the cell as it is at that instant, both words,
    whatever stores ran between its two reads; that cell is not nil and does
    not carry the marker of a first store in progress.  The step leaves the
    cell as it is. *)
Theorem Load_is_not_torn n c i t r c' :
  reachable n c -> threads c !! i = Some (Load1 t) ->
  step i r c = Some c' ->
  threads c' !! i = Some (Loaded (cell c)) /\ cell c' = cell c
  /\ is_nil (cell c) = false /\ typ (cell c) <> firstStoreInProgress.
Proof.
  intros Hr Hi Hstep.
  destruct (reachable_logged _ _ Hr) as (h & _ & Hts).
  pose proof (reachable_consistent _ _ Hr) as Hc.
  pose proof (Forall_lookup_1 _ _ _ _ Hts Hi) as [Hp Ht]. simpl in Hp, Ht.
  destruct (published_tag _ Hc Hp) as [Hn Hm].
  assert (i < length (threads c))%nat as Hlt by (eapply lookup_lt_Some; eauto).
  unfold step in Hstep. rewrite Hi in Hstep. simpl in Hstep.
  injection Hstep as <-. simpl.
  split; [|split; [reflexivity|split; [|exact Hm]]].
  - rewrite list_lookup_insert_eq by exact Hlt. subst t.
    destruct (cell c); reflexivity.
  - unfold is_nil. apply Z.eqb_neq. exact Hn.
Qed.

Lemma Load_is_not_torn_witness :
  threads (Config first_value [Stored; Loaded first_value] true) !! 1%nat
  = Some (Loaded (cell half_read))
  /\ cell (Config first_value [Stored; Loaded first_value] true)
     = cell half_read
  /\ is_nil (cell half_read) = false
  /\ typ (cell half_read) <> firstStoreInProgress.
Proof.
  apply (Load_is_not_torn 2 half_read 1 7 CallLoad
           (Config first_value [Stored; Loaded first_value] true));
    [|reflexivity..].
  apply (run_valid_reachable 2 [(1%nat, CallLoad); (1%nat, CallLoad)]
           published_once);
    [repeat constructor | exact published_once_reachable | reflexivity].
Defined.

(** *** Every call can finish *)

Lemma todo_tag v w p : typ w = typ v -> todo w p = todo v p.
Proof. intros H. destruct p; simpl; rewrite ?H; reflexivity. Qed.

Lemma total_tag v w ts :
  typ w = typ v -> total (todo w) ts = total (todo v) ts.
Proof.
  intros H. induction ts as [|a ts IH]; simpl; [reflexivity|].
  rewrite IH, (todo_tag v w a H). reflexivity.
Qed.

Lemma somebody_unfinished (ts : list pc) :
  (forall i p, ts !! i = Some p -> finished p = true)
  \/ exists i p, ts !! i = Some p /\ finished p = false.
Proof.
  induction ts as [|a ts IH]; [left; intros i p Hi; discriminate Hi|].
  destruct (finished a) eqn:Ha.
  - destruct IH as [IH|(i & p & Hi & Hp)].
    + left. intros [|i] p Hi; simpl in Hi; [|eauto].
      injection Hi as <-. exact Ha.
    + right. exists (S i), p. auto.
  - right. exists 0%nat, a. auto.
Qed.

(** The step of a goroutine inside a call brings the configuration closer
    to rest, unless it is a [Store] waiting for the first store of
    another. *)
Lemma progress_call c i p :
  consistent c -> threads c !! i = Some p -> finished p = false ->
  (typ (cell c) = firstStoreInProgress -> publisher p = 1%nat) ->
  exists c',
    step i CallLoad c = Some c'
    /\ (phase (cell c') < phase (cell c)
        \/ (phase (cell c') = phase (cell c)
            /\ total (todo (cell c')) (threads c')
               < total (todo (cell c)) (threads c)))%nat.
Proof.
  intros Hc Hi Hfin Hpubl.
  pose proof Hc as (Htot & Hpub & Hargs).
  pose proof (Forall_lookup_1 _ _ _ _ Hargs Hi) as Hai.
  unfold step. rewrite Hi, Hfin.
  destruct (thread_step p (cell c)) as [[p' v'] a] eqn:Hstep.
  exists (Config v' (<[i := p']> (threads c))
            (published c || match p with StoreTyp _ => true | _ => false end)).
  split; [destruct p; try discriminate Hfin; reflexivity|]. simpl.
  pose proof (total_insert (todo (cell c)) _ i p p' Hi) as Hins.
  assert (typ v' = typ (cell c) -> (todo (cell c) p' < todo (cell c) p)%nat ->
          (phase v' < phase (cell c)
           \/ phase v' = phase (cell c)
              /\ total (todo v') (<[i := p']> (threads c))
                 < total (todo (cell c)) (threads c))%nat) as Hsame.
  { intros Ht Hlt. right. unfold phase. rewrite Ht. split; [reflexivity|].
    rewrite (total_tag (cell c) v' _ Ht). lia. }
  destruct c as [[t d] ts pub]; simpl in *.
  unfold thread_step, Load_step, Store_step, is_nil in Hstep.
  destruct p as [| |t0|x|x|x|x|x|x|x| |msg]; try discriminate Hfin;
    simpl in Hstep, Hai.
  - (* Load0 *)
    destruct ((t =? nil) || (t =? firstStoreInProgress));
      injection Hstep as <- <- _; apply Hsame; simpl;
      first [reflexivity | lia].
  - injection Hstep as <- <- _; apply Hsame; simpl;
      first [reflexivity | lia].
  - (* Store0 *)
    destruct (typ x =? nil); injection Hstep as <- <- _; apply Hsame;
      simpl; try reflexivity; destruct (t =? nil); lia.
  - (* StoreLoop *)
    destruct (Z.eqb_spec t nil) as [Hn|Hn];
      [|destruct (Z.eqb_spec t firstStoreInProgress) as [Hm|Hm];
        [specialize (Hpubl Hm); discriminate Hpubl
        |destruct (negb (t =? typ x))]];
      injection Hstep as <- <- _; apply Hsame; simpl; try reflexivity;
      destruct (Z.eqb_spec t nil); try contradiction; lia.
  - (* StoreCAS *)
    destruct (Z.eqb_spec t nil) as [Hn|Hn]; injection Hstep as <- <- _.
    + left. subst t. unfold phase. simpl. lia.
    + apply Hsame; simpl; [reflexivity|].
      destruct (Z.eqb_spec t nil); [contradiction | lia].
  - (* StoreData *)
    injection Hstep as <- <- _; apply Hsame; simpl;
      first [reflexivity | lia].
  - (* StoreTyp *)
    injection Hstep as <- <- _.
    destruct (publisher_marker (Config (IfaceWords t d) ts pub) i
                (StoreTyp x) Hc Hi eq_refl) as [Hm _]. simpl in Hm. subst t.
    left. unfold phase. simpl. destruct Hai as [Hxm Hxn].
    destruct (Z.eqb_spec (typ x) nil); [contradiction|].
    destruct (Z.eqb_spec (typ x) firstStoreInProgress); [contradiction|].
    lia.
  - (* StoreOver *)
    injection Hstep as <- <- _; apply Hsame; simpl;
      first [reflexivity | lia].
Qed.

(** Property X22 (no call is stuck).  From every reachable configuration
    some schedule in which nobody starts a new call lets every goroutine
    finish the call it is in: a [Store] that waits for the first store of
    another goroutine is waiting for a goroutine that can complete it. *)
Theorem calls_can_finish n c :
  reachable n c ->
  exists sched c',
    run sched c = Some c' /\ stores sched c = []
    /\ Forall (fun ir => valid_request ir.2) sched
    /\ forall i p, threads c' !! i = Some p -> finished p = true.
Proof.
  remember (phase (cell c)) as a eqn:Ha.
  remember (total (todo (cell c)) (threads c)) as b eqn:Hb.
  symmetry in Ha, Hb. revert b c Ha Hb.
  induction a as [a IHa] using lt_wf_ind.
  intros b. induction b as [b IHb] using lt_wf_ind.
  intros c Ha Hb Hr.
  pose proof (reachable_consistent _ _ Hr) as Hc.
  assert ((forall i p, threads c !! i = Some p -> finished p = true)
          \/ exists i p,
               threads c !! i = Some p /\ finished p = false
               /\ (typ (cell c) = firstStoreInProgress ->
                   publisher p = 1%nat)) as [Hall|(i & p & Hi & Hfin & Hp)].
  { destruct (Z.eq_dec (typ (cell c)) firstStoreInProgress) as [Hm|Hm].
    - right. destruct Hc as (Htot & _). rewrite Hm, Z.eqb_refl in Htot.
      destruct (total_pos publisher (threads c)) as (i & p & Hi & Hp);
        [lia|].
      exists i, p. split; [exact Hi|].
      destruct p; simpl in Hp; try lia; auto.
    - destruct (somebody_unfinished (threads c)) as [?|(i & p & Hi & Hp)];
        [left; assumption|].
      right. exists i, p. split; [exact Hi|]. split; [exact Hp|].
      intros ?; contradiction. }
  { exists [], c. split; [reflexivity|]. split; [reflexivity|].
    split; [constructor | exact Hall]. }
  destruct (progress_call c i p Hc Hi Hfin Hp) as (c1 & Hstep & Hless).
  assert (reachable n c1) as Hr1
    by (apply (reach_step n c i CallLoad c1 Hr I Hstep)).
  assert (exists sched c',
            run sched c1 = Some c' /\ stores sched c1 = []
            /\ Forall (fun ir => valid_request ir.2) sched
            /\ forall i p, threads c' !! i = Some p -> finished p = true)
    as (sched & c' & Hrun & Hnone & Hvalid & Hdone).
  { rewrite Ha, Hb in Hless. destruct Hless as [Hlt|[Heq Hlt]].
    - apply (IHa _ Hlt _ c1 eq_refl eq_refl Hr1).
    - apply (IHb _ Hlt c1 Heq eq_refl Hr1). }
  exists ((i, CallLoad) :: sched), c'. simpl. rewrite Hstep.
  split; [exact Hrun|]. split.
  { unfold call_of. rewrite Hi, Hnone. reflexivity. }
  split; [constructor; [exact I | exact Hvalid] | exact Hdone].
Qed.

Lemma calls_can_finish_witness :
  exists sched c',
    run sched publishing = Some c' /\ stores sched publishing = []
    /\ Forall (fun ir => valid_request ir.2) sched
    /\ forall i p, threads c' !! i = Some p -> finished p = true.
Proof.
  apply (calls_can_finish 2 publishing). exact publishing_reachable.
Defined.

(** ** Which operations can block *)


